(** * An R-way trie with parent links and reachability masks (trie.go)

    The Go program keeps its nodes on the heap and mutates them through
    pointers: a node knows its parent, its children live in a
    [map[rune]*Node], and [Remove] walks the parent links upwards.  The
    embedding keeps that shape.  Nodes live in an arena (a list of node
    records, a pointer being an index into it or nil), every Go function is
    a computation over the arena in a small state-and-panic monad, and the
    order in which Go ranges over a map is a parameter of the development. *)

From stdpp Require Import base option numbers list gmap sorting strings.

Local Open Scope Z_scope.

(** ** Machine integers *)

(** [rune] is Go's int32 code point.  A Go string is held as the sequence of
    its code points: on well-formed UTF-8 the conversions [[]rune(s)] and
    [string(rs)] are inverse to each other, and the byte-wise order of
    [sort.Strings] is the code-point-wise lexicographic order. *)
Abbreviation rune := Z (only parsing).
Abbreviation key := (list Z) (only parsing).

(** Conversion to uint64: the value modulo 2^64. *)
Definition uint64 (z : Z) : Z := z mod 2 ^ 64.

(** Go's [<<] on a uint64: a count of 64 or more gives 0. *)
Definition shl64 (x s : Z) : Z :=
  if 64 <=? s then 0 else uint64 (Z.shiftl x s).

(** Go's [int], taken as the 64-bit signed integer with wrap-around. *)
Definition max_int : Z := 2 ^ 63 - 1.
Definition min_int : Z := - 2 ^ 63.
Definition int_wrap (z : Z) : Z := (z + 2 ^ 63) mod 2 ^ 64 - 2 ^ 63.

Definition nul : rune := 0.

(** [maskrune]: [uint64(1) << (uint64(r) - 97)]. *)
Definition maskrune (r : rune) : Z :=
  shl64 (uint64 1) (uint64 (uint64 r - 97)).

(** [maskruneslice]: the loop [m |= maskrune(r)] over the slice, from
    [m = 0]. *)
Definition maskruneslice (rs : list rune) : Z :=
  fold_left (fun m r => Z.lor m (maskrune r)) rs 0.

(** ** Nodes, the arena and the trie *)

Abbreviation loc := nat (only parsing).

(** A [*Node]: nil or the index of a node in the arena. *)
Abbreviation ptr := (option nat) (only parsing).

Record Node := mkNode {
  val : rune;
  term : bool;
  mask : Z;
  parent : ptr;
  children : gmap rune loc
}.

(** The trie owns its nodes; [arena] is the store they live in.  Nodes that
    are detached stay in the store, unreachable. *)
Record Trie := mkTrie {
  arena : list Node;
  root : ptr;
  size : Z
}.

Definition set_mask (m : Z) (n : Node) : Node :=
  mkNode (val n) (term n) m (parent n) (children n).
Definition set_children (c : gmap rune loc) (n : Node) : Node :=
  mkNode (val n) (term n) (mask n) (parent n) c.
Definition set_arena (a : list Node) (t : Trie) : Trie :=
  mkTrie a (root t) (size t).
Definition set_size (s : Z) (t : Trie) : Trie :=
  mkTrie (arena t) (root t) s.

(** ** The monad: state, panics, and running out of fuel *)

Inductive panic := NilDereference | IndexOutOfRange.

(** [Stuck] is no behaviour of the Go program: it is the model running out of
    fuel in a loop over pointers, or following an index outside the arena. *)
Inductive outcome (A : Type) :=
  | Done (a : A) (t : Trie)
  | Panicked (e : panic) (t : Trie)
  | Stuck.
Arguments Done {A} a t.
Arguments Panicked {A} e t.
Arguments Stuck {A}.

Definition M (A : Type) : Type := Trie -> outcome A.

Definition ret {A} (a : A) : M A := fun t => Done a t.
Definition bind {A B} (c : M A) (k : A -> M B) : M B :=
  fun t => match c t with
           | Done a t' => k a t'
           | Panicked e t' => Panicked e t'
           | Stuck => Stuck
           end.

Notation "'let*' x := c 'in' k" := (bind c (fun x => k))
  (at level 10, x name, c at level 100, k at level 200).
Notation "c ;;; k" := (bind c (fun _ => k))
  (at level 100, k at level 200, right associativity).

Definition throw {A} (e : panic) : M A := fun t => Panicked e t.
Definition stuck {A} : M A := fun _ => Stuck.

(** Reading through a pointer. *)
Definition load (p : ptr) : M Node :=
  fun t => match p with
           | None => Panicked NilDereference t
           | Some l => match arena t !! l with
                       | Some n => Done n t
                       | None => Stuck
                       end
           end.

(** Writing a field through a pointer: [p.f = ...]. *)
Definition update (p : ptr) (f : Node -> Node) : M unit :=
  fun t => match p with
           | None => Panicked NilDereference t
           | Some l => match arena t !! l with
                       | Some n => Done tt (set_arena (<[l := f n]> (arena t)) t)
                       | None => Stuck
                       end
           end.

(** [&Node{...}]: a fresh node at the end of the arena. *)
Definition alloc (n : Node) : M loc :=
  fun t => Done (length (arena t)) (set_arena (arena t ++ [n]) t).

(** A [for _, x := range xs] loop whose body updates an accumulator. *)
Fixpoint for_range {A B} (xs : list A) (body : A -> B -> M B) (acc : B) : M B :=
  match xs with
  | [] => ret acc
  | x :: xs' => let* acc' := body x acc in for_range xs' body acc'
  end.

(** ** Node *)

Definition newNode (parent : ptr) (v : rune) (m : Z) (tm : bool) : M loc :=
  alloc (mkNode v tm m parent ∅).

Definition NewChild (n parent : ptr) (r : rune) (bitmask : Z) (v : rune)
    (tm : bool) : M loc :=
  let* node := newNode parent v bitmask tm in
  update n (fun x => set_children (<[r := node]> (children x)) x) ;;;
  ret node.

Definition Parent (n : ptr) : M ptr := let* x := load n in ret (parent x).
Definition Children (n : ptr) : M (gmap rune loc) :=
  let* x := load n in ret (children x).
Definition Val (n : ptr) : M rune := let* x := load n in ret (val x).
Definition Mask (n : ptr) : M Z := let* x := load n in ret (mask x).

(** ** Trie: construction, lookup and insertion *)

Definition CreateTrie : Trie :=
  mkTrie [mkNode 0 false 0 None ∅] (Some 0%nat) 0.

Definition Root : M ptr := fun t => Done (root t) t.

(** [findNode(node, runes, d)].  The pair of the slice and the index [d] is
    carried as the rest [runes[d:]]: [d == len(runes)] is the empty rest and
    [runes[d]] its head. *)
Fixpoint findNode (node : ptr) (rest : list rune) : M ptr :=
  match node with
  | None => ret None
  | Some _ =>
      match rest with
      | [] => ret node
      | r :: rest' =>
          let* c := Children node in
          match c !! r with
          | None => ret None
          | Some n => findNode (Some n) rest'
          end
      end
  end.

Definition nodeAtPath (pre : key) : M ptr :=
  let* r := Root in findNode r pre.

Fixpoint addrune (node : ptr) (runes : list rune) (i : Z) : M Z :=
  match runes with
  | [] =>
      NewChild node node 0 0 nul true ;;;
      ret i
  | r :: rest =>
      let* c := Children node in
      let bitmask := maskruneslice runes in
      let* n := match c !! r with
                | Some n => ret n
                | None => NewChild node node r bitmask r false
                end in
      update (Some n) (fun x => set_mask (Z.lor (mask x) bitmask) x) ;;;
      addrune (Some n) rest (int_wrap (i + 1))
  end.

Definition Add (k : key) : M Z :=
  (fun t => Done tt (set_size (int_wrap (size t + 1)) t)) ;;;
  let* r := Root in
  addrune r k 0.

(** The number of nodes in the store bounds every chain of pointers of a
    tree, downwards and upwards; it is the fuel of the loops that follow
    pointers. *)
Definition fuel : M nat := fun t => Done (length (arena t)) t.

(** ** Operations that range over a children map *)

Section Range.

(** Go leaves the order of [range] over a map unspecified.  [range_order]
    lists a map's entries in the order the loop visits them. *)
Variable range_order : gmap rune loc -> list (rune * loc).

Definition recalculateMask (n : ptr) : M unit :=
  let* v := Val n in
  update n (set_mask (maskrune v)) ;;;
  let* cs := Children n in
  for_range (range_order cs)
    (fun kc _ =>
       let* cm := Mask (Some kc.2) in
       update n (fun x => set_mask (Z.lor (mask x) (Z.lor (maskrune kc.1) cm)) x))
    tt.

(** The loop [for parent := n.Parent(); parent != nil; parent = parent.Parent()]. *)
Fixpoint recalculate_up (gas : nat) (p : ptr) : M unit :=
  match p with
  | None => ret tt
  | Some _ =>
      match gas with
      | O => stuck
      | S gas' =>
          recalculateMask p ;;;
          let* p' := Parent p in
          recalculate_up gas' p'
      end
  end.

Definition RemoveChild (n : ptr) (r : rune) : M unit :=
  update n (fun x => set_children (delete r (children x)) x) ;;;
  recalculateMask n ;;;
  let* p := Parent n in
  let* gas := fuel in
  recalculate_up gas p.

(** [rs[idx]] with its bounds check. *)
Definition index (rs : list rune) (idx : Z) : M rune :=
  if (idx <? 0) || (Z.of_nat (length rs) <=? idx) then throw IndexOutOfRange
  else match rs !! Z.to_nat idx with
       | Some r => ret r
       | None => throw IndexOutOfRange
       end.

(** The loop of [Remove]: [n] walks the parent links, [i] counts the hops. *)
Fixpoint remove_walk (gas : nat) (n : ptr) (rs : list rune) (i : Z) : M unit :=
  match n with
  | None => ret tt
  | Some _ =>
      match gas with
      | O => stuck
      | S gas' =>
          let i := int_wrap (i + 1) in
          let* cs := Children n in
          if bool_decide (1 < base.size cs)%nat then
            let idx := int_wrap (Z.of_nat (length rs) - i) in
            let* r := index rs idx in
            RemoveChild n r
          else
            let* p := Parent n in
            remove_walk gas' p rs i
      end
  end.

Definition Remove (k : key) : M unit :=
  let* node := nodeAtPath k in
  (fun t => Done tt (set_size (int_wrap (size t - 1)) t)) ;;;
  let* n := Parent node in
  let* gas := fuel in
  remove_walk gas n k 0.

(** [collect]: [keys] is the slice behind the pointer [*keys]; the slices
    [pre] and [append(pre, r)] are read before any later [append] can write
    over their backing array, so they are values here. *)
Fixpoint collect (gas : nat) (node : ptr) (pre : list rune) (keys : list key)
    : M (list key) :=
  match gas with
  | O => stuck
  | S gas' =>
      let* cs := Children node in
      for_range (range_order cs)
        (fun rn keys =>
           let* x := load (Some rn.2) in
           if term x then ret (keys ++ [pre])
           else collect gas' (Some rn.2) (pre ++ [rn.1]) keys)
        keys
  end.

(** [fuzzycollect].  Both [partial[1:]] (when [partiallen > 1]) and
    [partial[0:0]] (otherwise) are the tail of [partial]. *)
Fixpoint fuzzycollect (gas : nat) (node : ptr) (partialmatch partial : list rune)
    (keys : list key) : M (list key) :=
  match partial with
  | [] => collect gas node partialmatch keys
  | p0 :: ptail =>
      match gas with
      | O => stuck
      | S gas' =>
          let m := maskruneslice partial in
          let* cs := Children node in
          for_range (range_order cs)
            (fun vn keys =>
               let* nm := Mask (Some vn.2) in
               let xor := Z.lxor nm m in
               if negb (Z.land xor m =? 0) then ret keys
               else
                 let npartial := if vn.1 =? p0 then ptail else partial in
                 fuzzycollect gas' (Some vn.2) (partialmatch ++ [vn.1]) npartial keys)
            keys
      end
  end.

(** [sort.Strings]: the lexicographic order of the code points. *)
Fixpoint key_leb (a b : key) : bool :=
  match a, b with
  | [], _ => true
  | _ :: _, [] => false
  | x :: a', y :: b' => (x <? y) || ((x =? y) && key_leb a' b')
  end.
Definition key_le (a b : key) : Prop := key_leb a b = true.
Global Instance key_le_dec a b : Decision (key_le a b).
Proof. unfold key_le. apply _. Defined.
Definition sort_Strings (ks : list key) : list key := merge_sort key_le ks.

Definition PrefixSearch (pre : key) : M (list key) :=
  let* node := nodeAtPath pre in
  match node with
  | None => ret []
  | Some _ =>
      let* gas := fuel in
      collect gas node pre []
  end.

Definition Keys : M (list key) := PrefixSearch [].

Definition FuzzySearch (pre : key) : M (list key) :=
  let* r := Root in
  let* gas := fuel in
  let* keys := fuzzycollect gas r [] pre [] in
  ret (sort_Strings keys).

End Range.

(** The calls [t.Add(k)] for the keys of a sequence in turn, as in the loop
    of [AddFromFile] over the lines of its file. *)
Fixpoint add_all (ks : list key) : M unit :=
  match ks with
  | [] => ret tt
  | k :: ks' => Add k ;;; add_all ks'
  end.

(** The code points of an ASCII literal, [[]rune("...")]. *)
Definition runes_of (s : string) : key :=
  map (fun a => Z.of_nat (Ascii.nat_of_ascii a)) (String.list_ascii_of_string s).

(** ** The tree a store holds *)

(** The child of the node at [l] under the rune [r]. *)
Definition kid (h : list Node) (l : loc) (r : rune) : option loc :=
  n ← h !! l; children n !! r.

(** The node reached from [l] along the runes [rs]. *)
Fixpoint walk (h : list Node) (l : loc) (rs : list rune) : option loc :=
  match rs with
  | [] => Some l
  | r :: rs' => c ← kid h l r; walk h c rs'
  end.

(** A key is stored below [l] when its path ends in a node that has the
    terminal child, the child under [nul]. *)
Definition stored_from (h : list Node) (l : loc) (k : key) : Prop :=
  exists e s, walk h l k = Some e /\ kid h e nul = Some s.

Definition or_list (zs : list Z) : Z := foldr Z.lor 0 zs.

Definition node_mask (h : list Node) (c : loc) : Z :=
  from_option mask 0 (h !! c).

(** What the entry [k -> c] of a children map contributes to the mask of
    the parent in [recalculateMask]: [maskrune(k) | c.Mask()]. *)
Definition entry_mask (h : list Node) (kc : rune * loc) : Z :=
  Z.lor (maskrune kc.1) (node_mask h kc.2).

Definition kids_mask (h : list Node) (cs : gmap rune loc) : Z :=
  or_list (entry_mask h <$> map_to_list cs).

Definition mask_ok (h : list Node) (n : Node) : Prop :=
  mask n = Z.lor (maskrune (val n)) (kids_mask h (children n)).

(** The mask invariant as the specification words it, with the character
    of each child: [mask(node) = bit(node.character) | OR over each child c
    of (bit(c.character) | mask(c))]. *)
Definition child_bits (h : list Node) (c : loc) : Z :=
  match h !! c with
  | Some x => Z.lor (maskrune (val x)) (mask x)
  | None => 0
  end.

Definition mask_equation (h : list Node) (n : Node) : Prop :=
  mask n = Z.lor (maskrune (val n))
             (or_list (child_bits h <$> (snd <$> map_to_list (children n)))).

(** The mask invariant at every node of the trie, the root included. *)
Definition mask_invariant (t : Trie) : Prop :=
  forall rt p l n, root t = Some rt -> walk (arena t) rt p = Some l ->
    arena t !! l = Some n -> mask_equation (arena t) n.

(** The mask invariant at every node of the trie but the root. *)
Definition mask_invariant_below (t : Trie) : Prop :=
  forall rt p l n, root t = Some rt -> p <> [] ->
    walk (arena t) rt p = Some l ->
    arena t !! l = Some n -> mask_equation (arena t) n.

(** What a path shows of the node it reaches: character, terminal flag and
    mask. *)
Definition view (t : Trie) (p : list rune) : option (rune * bool * Z) :=
  rt ← root t; l ← walk (arena t) rt p; n ← arena t !! l;
  Some (val n, term n, mask n).

(** The shape of the store: the root has no parent; a child points back to
    its parent, carries the rune it is filed under, and is terminal exactly
    under [nul]; a terminal node has no children; a node is allocated after
    its parent. *)
Record shape (h : list Node) (rt : loc) : Prop := mkShape {
  sh_root : exists n, h !! rt = Some n /\ parent n = None /\ term n = false;
  sh_kid : forall l n r c, h !! l = Some n -> children n !! r = Some c ->
    exists nc, h !! c = Some nc /\ parent nc = Some l /\ val nc = r /\
               term nc = bool_decide (r = nul);
  sh_term : forall l n, h !! l = Some n -> term n = true -> children n = ∅;
  sh_up : forall l n p, h !! l = Some n -> parent n = Some p -> (p < l)%nat
}.

(** The masks of all nodes but the root and the nodes in [X] are right. *)
Definition masks_ok (h : list Node) (rt : loc) (X : loc -> Prop) : Prop :=
  forall l n, h !! l = Some n -> l <> rt -> ~ X l -> mask_ok h n.

Definition wf (t : Trie) : Prop :=
  exists rt, root t = Some rt /\ shape (arena t) rt /\
             masks_ok (arena t) rt (fun _ => False).

(** No pointer of the store dangles, and the root is not nil. *)
Definition kids_alloc (h : list Node) : Prop :=
  forall l n r c, h !! l = Some n -> children n !! r = Some c ->
    is_Some (h !! c).

Definition closed (t : Trie) : Prop :=
  (exists rt, root t = Some rt /\ is_Some (arena t !! rt)) /\
  kids_alloc (arena t).

Definition nul_free (k : key) : Prop := Forall (fun r => r <> nul) k.

(** A Go slice has an [int] length. *)
Definition int_len (k : key) : Prop := Z.of_nat (length k) <= max_int.

(** [recalculateMask] as a function on the store. *)
Definition recalc (h : list Node) (l : loc) : list Node :=
  match h !! l with
  | Some n =>
      <[l := set_mask (Z.lor (maskrune (val n)) (kids_mask h (children n))) n]> h
  | None => h
  end.

Fixpoint recalc_up (gas : nat) (h : list Node) (p : ptr) : list Node :=
  match p, gas with
  | Some l, S gas' =>
      let h' := recalc h l in
      recalc_up gas' h' (n ← h' !! l; parent n)
  | _, _ => h
  end.

(** [RemoveChild] as a function on the store. *)
Definition unlink (h : list Node) (l : loc) (r : rune) : list Node :=
  match h !! l with
  | Some n => <[l := set_children (delete r (children n)) n]> h
  | None => h
  end.

Definition remove_child (h : list Node) (l : loc) (r : rune) : list Node :=
  let h1 := recalc (unlink h l r) l in
  recalc_up (length h1) h1 (n ← h1 !! l; parent n).

(** The mask of the node [n] at [l] while [addrune] is at work below it: it
    already holds the runes still to be added. *)
Definition pending (h : list Node) (rt l : loc) (n : Node) (runes : list rune)
    : Prop :=
  l <> rt ->
  mask n = Z.lor (Z.lor (maskrune (val n)) (kids_mask h (children n)))
             (maskruneslice runes).

(** [NewChild] as a function on the store: the node [x] is allocated and
    filed under [r] in the children of the node [n] at [l]. *)
Definition add_kid (h : list Node) (l : loc) (n : Node) (r : rune) (x : Node)
    : list Node :=
  <[l := set_children (<[r := length h]> (children n)) n]> (h ++ [x]).

(** The value [i] reaches after one [i++] for each rune. *)
Fixpoint depth_after (i : Z) (runes : list rune) : Z :=
  match runes with
  | [] => i
  | _ :: rest => depth_after (int_wrap (i + 1)) rest
  end.

Section RangePure.

Variable range_order : gmap rune loc -> list (rune * loc).

(** The keys [collect] appends, as a function of the store. *)
Fixpoint collected (gas : nat) (h : list Node) (l : loc) (pre : list rune)
    : list key :=
  match gas with
  | O => []
  | S gas' =>
      match h !! l with
      | None => []
      | Some n =>
          rn ← range_order (children n);
          match h !! rn.2 with
          | None => []
          | Some x =>
              if term x then [pre]
              else collected gas' h rn.2 (pre ++ [rn.1])
          end
      end
  end.

(** The keys [fuzzycollect] appends, as a function of the store. *)
Fixpoint fuzzy_collected (gas : nat) (h : list Node) (l : loc)
    (partialmatch partial : list rune) : list key :=
  match partial with
  | [] => collected gas h l partialmatch
  | p0 :: ptail =>
      match gas with
      | O => []
      | S gas' =>
          match h !! l with
          | None => []
          | Some n =>
              vn ← range_order (children n);
              if negb (Z.land (Z.lxor (node_mask h vn.2) (maskruneslice partial))
                         (maskruneslice partial) =? 0)
              then []
              else fuzzy_collected gas' h vn.2 (partialmatch ++ [vn.1])
                     (if vn.1 =? p0 then ptail else partial)
          end
      end
  end.

(** The tries the operations build from the fresh trie, with keys free of
    the rune [nul] that the terminal child is filed under.  A call of
    [Remove] that panicked and was recovered leaves a trie too. *)
Inductive built : Trie -> Prop :=
  | built_create : built CreateTrie
  | built_add t k d t' :
      built t -> nul_free k -> Add k t = Done d t' -> built t'
  | built_remove t k t' :
      built t -> Remove range_order k t = Done tt t' -> built t'
  | built_remove_panic t k e t' :
      built t -> Remove range_order k t = Panicked e t' -> built t'.

End RangePure.

(** The order of visit that lists a map by its keys, an instance of the
    orders Go may take. *)
Definition canonical_order (m : gmap rune loc) : list (rune * loc) :=
  map_to_list m.

(** The trie a computation leaves. *)
Definition after {A} (c : M A) (t : Trie) : Trie :=
  match c t with
  | Done _ t' => t'
  | Panicked _ t' => t'
  | Stuck => t
  end.

(** [a] is a submask of [b]. *)
Definition submask (a b : Z) : Prop := Z.lor b a = b.

(** Stores that differ in masks only. *)
Definition masks_differ (h h' : list Node) : Prop :=
  length h = length h' /\
  forall l n, h !! l = Some n -> exists m, h' !! l = Some (set_mask m n).

(** Some tries: the keys are added to a fresh trie in turn. *)
Definition cat_car_cart_dog : Trie :=
  after (add_all [runes_of "cat"; runes_of "car"; runes_of "cart"; runes_of "dog"])
    CreateTrie.

Definition car_cart : Trie :=
  after (add_all [runes_of "car"; runes_of "cart"]) CreateTrie.

Definition only_cat : Trie := after (add_all [runes_of "cat"]) CreateTrie.

(** The number of children of the node that the path [p] reaches from
    [rt]; 0 when it reaches none. *)
Definition kids_at (h : list Node) (rt : loc) (p : list rune) : nat :=
  from_option (fun n => base.size (children n)) 0%nat
    (l ← walk h rt p; h !! l).

(** Every node below the root that is not a terminal child lies on the path
    of a stored key: the trie has no dead branch. *)
Definition live (h : list Node) (rt : loc) : Prop :=
  forall p r, is_Some (walk h rt (p ++ [r])) -> r <> nul ->
    exists suf, stored_from h rt ((p ++ [r]) ++ suf).

(** Another order of visit: the entries from last to first. *)
Definition reversed_order (m : gmap rune loc) : list (rune * loc) :=
  reverse (map_to_list m).

Definition car_cart_cat : Trie :=
  after (add_all [runes_of "car"; runes_of "cart"; runes_of "cat"]) CreateTrie.

(** The empty key and "a". *)
Definition empty_and_a : Trie :=
  after (add_all [[]; runes_of "a"]) CreateTrie.

(** ** Bit masks *)

Lemma int_wrap_id z : min_int <= z <= max_int -> int_wrap z = z.
Proof.
  unfold int_wrap, min_int, max_int. intros Hz.
  rewrite Z.mod_small by lia. lia.
Qed.

Lemma maskrune_nul : maskrune 0 = 0.
Proof. reflexivity. Qed.

Lemma maskrune_letter r :
  97 <= r <= 160 -> maskrune r = 2 ^ (r - 97).
Proof.
  intros Hr. unfold maskrune, shl64, uint64.
  rewrite (Z.mod_small r) by lia.
  rewrite (Z.mod_small (r - 97)) by lia.
  destruct (64 <=? r - 97) eqn:E; [apply Z.leb_le in E; lia|].
  rewrite (Z.mod_small 1) by lia.
  rewrite Z.shiftl_1_l. apply Z.mod_small.
  split; [apply Z.pow_nonneg; lia|].
  apply Z.pow_lt_mono_r; lia.
Qed.

Lemma fold_lor_acc (rs : list rune) (a : Z) :
  fold_left (fun m r => Z.lor m (maskrune r)) rs a
  = Z.lor a (fold_left (fun m r => Z.lor m (maskrune r)) rs 0).
Proof.
  revert a. induction rs as [|r rs IH]; intros a; cbn.
  - by rewrite Z.lor_0_r.
  - rewrite (IH (Z.lor a _)), (IH (Z.lor 0 _)), Z.lor_0_l.
    by rewrite Z.lor_assoc.
Qed.

Lemma maskruneslice_nil : maskruneslice [] = 0.
Proof. reflexivity. Qed.

Lemma maskruneslice_cons r rs :
  maskruneslice (r :: rs) = Z.lor (maskrune r) (maskruneslice rs).
Proof. unfold maskruneslice. cbn. rewrite Z.lor_0_l. apply fold_lor_acc. Qed.

Ltac bitblast :=
  apply Z.bits_inj'; intros ?i ?Hi;
  repeat match goal with
         | H : @eq Z _ _ |- _ =>
             apply (f_equal (fun z => Z.testbit z i)) in H
         end;
  repeat rewrite ?Z.lor_spec, ?Z.land_spec, ?Z.lxor_spec, ?Z.bits_0 in *;
  repeat match goal with
         | |- context [Z.testbit ?a i] => destruct (Z.testbit a i)
         | H : context [Z.testbit ?a i] |- _ => destruct (Z.testbit a i)
         end;
  try done.

Lemma submask_refl a : submask a a.
Proof. unfold submask. apply Z.lor_diag. Qed.

Lemma submask_0 a : submask 0 a.
Proof. unfold submask. apply Z.lor_0_r. Qed.

Lemma submask_trans a b c : submask a b -> submask b c -> submask a c.
Proof. unfold submask. intros Hab Hbc. bitblast. Qed.

Lemma submask_lor_l a b c : submask a b -> submask a (Z.lor b c).
Proof. unfold submask. intros H. bitblast. Qed.

Lemma submask_lor_r a b c : submask a c -> submask a (Z.lor b c).
Proof. unfold submask. intros H. bitblast. Qed.

Lemma submask_lor a b c : submask a c -> submask b c -> submask (Z.lor a b) c.
Proof. unfold submask. intros Ha Hb. bitblast. Qed.

Lemma submask_lor_inv a b c : submask (Z.lor a b) c -> submask a c /\ submask b c.
Proof. unfold submask. intros H. split; bitblast. Qed.

(** The test of [fuzzycollect]: [(mask ^ m) & m == 0] says that [m] is a
    submask of [mask]. *)
Lemma prune_test (nm m : Z) :
  Z.land (Z.lxor nm m) m = 0 <-> submask m nm.
Proof. unfold submask. split; intros H; bitblast. Qed.

(** ** Paths *)

Lemma kid_Some h l r c :
  kid h l r = Some c <-> exists n, h !! l = Some n /\ children n !! r = Some c.
Proof.
  unfold kid. destruct (h !! l) as [n|]; cbn.
  - split; [eauto|]. by intros (? & [= <-] & ?).
  - split; [done|]. by intros (? & ? & ?).
Qed.

Lemma walk_app h l p q :
  walk h l (p ++ q) = x ← walk h l p; walk h x q.
Proof.
  revert l. induction p as [|r p IH]; intros l; cbn; [done|].
  destruct (kid h l r) as [c|]; cbn; [apply IH|done].
Qed.

Lemma walk_snoc h l p r :
  walk h l (p ++ [r]) = x ← walk h l p; kid h x r.
Proof.
  rewrite walk_app. destruct (walk h l p) as [x|]; cbn; [|done].
  by destruct (kid h x r).
Qed.

Lemma walk_snoc_Some h l p r x :
  walk h l (p ++ [r]) = Some x <->
  exists y, walk h l p = Some y /\ kid h y r = Some x.
Proof.
  rewrite walk_snoc. destruct (walk h l p) as [y|]; cbn.
  - split; [eauto|]. by intros (? & [= <-] & ?).
  - split; [done|]. by intros (? & ? & ?).
Qed.

Section Shape.

Context {h : list Node} {rt : loc} (Hs : shape h rt).

Lemma shape_kids_alloc : kids_alloc h.
Proof.
  intros l n r c Hl Hc.
  destruct (sh_kid h rt Hs l n r c Hl Hc) as (nc & -> & _). eauto.
Qed.

Lemma kid_node l r c :
  kid h l r = Some c ->
  exists nc, h !! c = Some nc /\ parent nc = Some l /\ val nc = r /\
             term nc = bool_decide (r = nul).
Proof.
  intros (n & Hl & Hc)%kid_Some. eapply sh_kid; eauto.
Qed.

Lemma kid_lt l r c : kid h l r = Some c -> (l < c < length h)%nat.
Proof.
  intros Hk. destruct (kid_node l r c Hk) as (nc & Hc & Hp & _).
  split; [eapply sh_up; eauto|]. eapply lookup_lt_Some; eauto.
Qed.

Lemma walk_le l p x : walk h l p = Some x -> (l <= x)%nat.
Proof.
  revert l. induction p as [|r p IH]; intros l; cbn.
  - intros [= ->]. lia.
  - destruct (kid h l r) as [c|] eqn:Hk; cbn; [|done].
    intros Hw. apply IH in Hw. apply kid_lt in Hk. lia.
Qed.

Lemma walk_lt l p x : walk h l p = Some x -> p <> [] -> (l < x)%nat.
Proof.
  destruct p as [|r p]; [done|]. cbn.
  destruct (kid h l r) as [c|] eqn:Hk; cbn; [|done].
  intros Hw _. apply walk_le in Hw. apply kid_lt in Hk. lia.
Qed.

Lemma walk_alloc l p x :
  (l < length h)%nat -> walk h l p = Some x -> (x < length h)%nat.
Proof.
  revert l. induction p as [|r p IH]; intros l Hl; cbn.
  - by intros [= <-].
  - destruct (kid h l r) as [c|] eqn:Hk; cbn; [|done].
    apply IH. apply kid_lt in Hk. lia.
Qed.

Lemma walk_length l p x : walk h l p = Some x -> (l + length p <= x)%nat.
Proof.
  revert l. induction p as [|r p IH]; intros l; cbn.
  - intros [= ->]. lia.
  - destruct (kid h l r) as [c|] eqn:Hk; cbn; [|done].
    intros Hw. apply IH in Hw. apply kid_lt in Hk. lia.
Qed.

(** Two paths that reach the same node are the same path. *)
Lemma walk_inj l p q x :
  walk h l p = Some x -> walk h l q = Some x -> p = q.
Proof.
  revert q x. induction p as [|r p IH] using rev_ind; intros q x Hp Hq.
  - cbn in Hp. injection Hp as <-.
    destruct q as [|r q]; [done|].
    apply walk_lt in Hq; [lia|done].
  - destruct q as [|r' q _] using rev_ind.
    + cbn in Hq. injection Hq as <-.
      apply walk_lt in Hp; [lia|]. by destruct p.
    + apply walk_snoc_Some in Hp as (y & Hp & Hy).
      apply walk_snoc_Some in Hq as (y' & Hq & Hy').
      destruct (kid_node _ _ _ Hy) as (nc & Hc & Hpar & Hval & _).
      destruct (kid_node _ _ _ Hy') as (nc' & Hc' & Hpar' & Hval' & _).
      simplify_eq. f_equal. eauto.
Qed.

(** The parent of the node at the end of a path is the node before it. *)
Lemma walk_parent l p r x nx :
  walk h l (p ++ [r]) = Some x -> h !! x = Some nx ->
  exists y, walk h l p = Some y /\ parent nx = Some y /\ val nx = r.
Proof.
  intros (y & Hp & Hy)%walk_snoc_Some Hx.
  destruct (kid_node _ _ _ Hy) as (nc & Hc & Hpar & Hval & _).
  simplify_eq. eauto.
Qed.

(** Nothing lies below a terminal node. *)
Lemma walk_term l n p x :
  h !! l = Some n -> term n = true -> walk h l p = Some x -> p = [].
Proof.
  intros Hl Ht. destruct p as [|r p]; [done|]. cbn.
  unfold kid. rewrite Hl. cbn.
  rewrite (sh_term h rt Hs l n Hl Ht), lookup_empty. done.
Qed.

(** A stored key has no [nul] in it. *)
Lemma walk_nul_end l p x :
  walk h l (p ++ [nul]) = Some x ->
  exists nx, h !! x = Some nx /\ term nx = true /\ children nx = ∅.
Proof.
  intros (y & Hp & Hy)%walk_snoc_Some.
  destruct (kid_node _ _ _ Hy) as (nc & Hc & Hpar & Hval & Ht).
  rewrite bool_decide_eq_true_2 in Ht by done.
  exists nc. split_and!; [done..|]. eapply sh_term; eauto.
Qed.

Lemma stored_nul_free l k : stored_from h l k -> nul_free k.
Proof.
  intros (e & s & Hw & Hs0). unfold nul_free.
  apply Forall_forall. intros r Hr ->.
  apply list_elem_of_split in Hr as (p & q & ->).
  rewrite (assoc_L (++) p [nul] q : p ++ nul :: q = (p ++ [nul]) ++ q) in Hw.
  rewrite walk_app in Hw.
  destruct (walk h l (p ++ [nul])) as [x|] eqn:Hx; cbn in Hw; [|done].
  destruct (walk_nul_end _ _ _ Hx) as (nx & Hnx & Ht & Hch).
  pose proof (walk_term _ _ _ _ Hnx Ht Hw) as ->. cbn in Hw. simplify_eq.
  unfold kid in Hs0. rewrite Hnx in Hs0. cbn in Hs0.
  rewrite Hch, lookup_empty in Hs0. done.
Qed.

End Shape.

(** ** Running the primitive operations *)

Lemma bind_Done {A B} (c : M A) (k : A -> M B) t a t' :
  c t = Done a t' -> bind c k t = k a t'.
Proof. unfold bind. by intros ->. Qed.

Lemma bind_Panicked {A B} (c : M A) (k : A -> M B) t e t' :
  c t = Panicked e t' -> bind c k t = Panicked e t'.
Proof. unfold bind. by intros ->. Qed.

Lemma load_Some t l n : arena t !! l = Some n -> load (Some l) t = Done n t.
Proof. unfold load. by intros ->. Qed.

Lemma update_Some t l n f :
  arena t !! l = Some n ->
  update (Some l) f t = Done tt (set_arena (<[l := f n]> (arena t)) t).
Proof. unfold update. by intros ->. Qed.

Lemma Children_Some t l n :
  arena t !! l = Some n -> Children (Some l) t = Done (children n) t.
Proof. intros H. unfold Children. by rewrite (bind_Done _ _ _ _ _ (load_Some _ _ _ H)). Qed.

Lemma Parent_Some t l n :
  arena t !! l = Some n -> Parent (Some l) t = Done (parent n) t.
Proof. intros H. unfold Parent. by rewrite (bind_Done _ _ _ _ _ (load_Some _ _ _ H)). Qed.

Lemma Mask_Some t l n :
  arena t !! l = Some n -> Mask (Some l) t = Done (mask n) t.
Proof. intros H. unfold Mask. by rewrite (bind_Done _ _ _ _ _ (load_Some _ _ _ H)). Qed.

Lemma Val_Some t l n :
  arena t !! l = Some n -> Val (Some l) t = Done (val n) t.
Proof. intros H. unfold Val. by rewrite (bind_Done _ _ _ _ _ (load_Some _ _ _ H)). Qed.

Lemma NewChild_Some t l n r m v tm :
  arena t !! l = Some n ->
  NewChild (Some l) (Some l) r m v tm t =
  Done (length (arena t))
    (set_arena (add_kid (arena t) l n r (mkNode v tm m (Some l) ∅)) t).
Proof.
  intros H. unfold NewChild, newNode, alloc, bind, update, ret, set_arena.
  cbn [arena root size].
  rewrite lookup_app_l by (eapply lookup_lt_Some; eauto).
  rewrite H. done.
Qed.

(** One step of a computation: the first operation of a [let*] is run with
    the facts at hand. *)
Ltac mleaf :=
  first [ eapply Children_Some; eassumption
        | eapply Parent_Some; eassumption
        | eapply Mask_Some; eassumption
        | eapply Val_Some; eassumption
        | eapply load_Some; eassumption
        | eapply update_Some; eassumption
        | eapply NewChild_Some; eassumption
        | reflexivity ].

Ltac mrun :=
  lazymatch goal with
  | |- bind ?c ?k ?t = _ =>
      let H := fresh "Hrun" in
      eassert (c t = Done _ _) as H;
      [ mrun0 | rewrite (bind_Done c k t _ _ H); clear H; cbv beta ]
  end
with mrun0 :=
  lazymatch goal with
  | |- bind _ _ _ = _ => mrun; mrun0
  | |- _ => mleaf
  end.

(** [findNode] follows the path. *)
Lemma findNode_walk t l rs :
  kids_alloc (arena t) -> is_Some (arena t !! l) ->
  findNode (Some l) rs t = Done (walk (arena t) l rs) t.
Proof.
  intros Hk. revert l. induction rs as [|r rs IH]; intros l [n Hl]; cbn; [done|].
  rewrite (bind_Done _ _ _ _ _ (Children_Some _ _ _ Hl)).
  unfold kid. rewrite Hl. cbn.
  destruct (children n !! r) as [c|] eqn:Hc; cbn; [|done].
  apply IH. eapply Hk; eauto.
Qed.

Lemma nodeAtPath_walk t rt k :
  closed t -> root t = Some rt ->
  nodeAtPath k t = Done (walk (arena t) rt k) t.
Proof.
  intros [(rt' & Hr & Hal) Hk] Hrt. simplify_eq.
  unfold nodeAtPath, bind, Root. rewrite Hr.
  by apply findNode_walk.
Qed.

Lemma wf_closed t : wf t -> closed t.
Proof.
  intros (rt & Hr & Hs & _). split.
  - exists rt. split; [done|]. destruct (sh_root _ _ Hs) as (n & -> & _). eauto.
  - eapply shape_kids_alloc; eauto.
Qed.

(** ** Masks of children *)

Lemma or_list_perm l1 l2 : l1 ≡ₚ l2 -> or_list l1 = or_list l2.
Proof.
  unfold or_list. induction 1; cbn; [done|congruence| |congruence].
  rewrite !Z.lor_assoc. f_equal. apply Z.lor_comm.
Qed.

Lemma or_list_app l1 l2 : or_list (l1 ++ l2) = Z.lor (or_list l1) (or_list l2).
Proof.
  unfold or_list. induction l1 as [|z l1 IH]; cbn; [done|].
  by rewrite IH, Z.lor_assoc.
Qed.

Lemma submask_or_list z zs : z ∈ zs -> submask z (or_list zs).
Proof.
  induction 1; cbn.
  - apply submask_lor_l, submask_refl.
  - by apply submask_lor_r.
Qed.

Lemma or_list_submask zs m : Forall (fun z => submask z m) zs -> submask (or_list zs) m.
Proof.
  induction 1; cbn; [apply submask_0|]. by apply submask_lor.
Qed.

Lemma kids_mask_empty h : kids_mask h ∅ = 0.
Proof. unfold kids_mask. by rewrite map_to_list_empty. Qed.

Lemma kids_mask_insert h cs k c :
  cs !! k = None ->
  kids_mask h (<[k := c]> cs) = Z.lor (entry_mask h (k, c)) (kids_mask h cs).
Proof.
  intros H. unfold kids_mask.
  rewrite (or_list_perm _ (entry_mask h <$> ((k, c) :: map_to_list cs))); [done|].
  apply fmap_Permutation. by apply map_to_list_insert.
Qed.

Lemma kids_mask_delete h cs k c :
  cs !! k = Some c ->
  kids_mask h cs = Z.lor (entry_mask h (k, c)) (kids_mask h (delete k cs)).
Proof.
  intros H. rewrite <- kids_mask_insert by apply lookup_delete_eq.
  by rewrite insert_delete_id.
Qed.

Lemma kids_mask_ext h h' (cs : gmap rune loc) :
  (forall k c, cs !! k = Some c -> node_mask h c = node_mask h' c) ->
  kids_mask h cs = kids_mask h' cs.
Proof.
  intros H. unfold kids_mask. f_equal.
  apply list_fmap_ext. intros i [k c] Hi.
  unfold entry_mask. cbn. f_equal. apply (H k).
  apply elem_of_map_to_list. eapply list_elem_of_lookup_2; eauto.
Qed.

Lemma kids_mask_entry h (cs : gmap rune loc) k c :
  cs !! k = Some c -> submask (entry_mask h (k, c)) (kids_mask h cs).
Proof.
  intros H. apply submask_or_list.
  apply list_elem_of_fmap. exists (k, c). split; [done|].
  by apply elem_of_map_to_list.
Qed.

(** ** Stores that differ in masks only *)

Lemma set_mask_set_mask m m' n : set_mask m (set_mask m' n) = set_mask m n.
Proof. done. Qed.

Lemma set_mask_id n : set_mask (mask n) n = n.
Proof. by destruct n. Qed.

Lemma masks_differ_refl h : masks_differ h h.
Proof. split; [done|]. intros l n H. exists (mask n). by rewrite set_mask_id. Qed.

Lemma masks_differ_trans h1 h2 h3 :
  masks_differ h1 h2 -> masks_differ h2 h3 -> masks_differ h1 h3.
Proof.
  intros [L1 H1] [L2 H2]. split; [congruence|].
  intros l n Hl. destruct (H1 _ _ Hl) as [m Hm].
  destruct (H2 _ _ Hm) as [m' Hm']. exists m'. by rewrite Hm'.
Qed.

Lemma masks_differ_insert h l n m :
  h !! l = Some n -> masks_differ h (<[l := set_mask m n]> h).
Proof.
  intros Hl. split; [by rewrite length_insert|].
  intros l' n' Hl'. destruct (decide (l' = l)) as [->|Hne].
  - simplify_eq. exists m. apply list_lookup_insert_eq. eapply lookup_lt_Some; eauto.
  - exists (mask n'). rewrite set_mask_id, list_lookup_insert_ne; done.
Qed.

Lemma masks_differ_inv h h' l n' :
  masks_differ h h' -> h' !! l = Some n' ->
  exists n, h !! l = Some n /\ val n' = val n /\ term n' = term n /\
            parent n' = parent n /\ children n' = children n.
Proof.
  intros [L H] Hl'.
  destruct (h !! l) as [n|] eqn:Hl.
  - destruct (H _ _ Hl) as [m Hm]. simplify_eq. exists n. by split.
  - apply lookup_ge_None in Hl. apply lookup_lt_Some in Hl'. lia.
Qed.

Lemma masks_differ_kid h h' l r : masks_differ h h' -> kid h' l r = kid h l r.
Proof.
  intros Hd. unfold kid.
  destruct (h !! l) as [n|] eqn:Hl.
  - destruct (proj2 Hd _ _ Hl) as [m ->]. done.
  - destruct (h' !! l) as [n'|] eqn:Hl'; [|done].
    destruct (masks_differ_inv _ _ _ _ Hd Hl') as (n & ? & _). congruence.
Qed.

Lemma masks_differ_walk h h' l p : masks_differ h h' -> walk h' l p = walk h l p.
Proof.
  intros Hd. revert l. induction p as [|r p IH]; intros l; cbn; [done|].
  rewrite (masks_differ_kid h h') by done.
  destruct (kid h l r); cbn; [apply IH|done].
Qed.

Lemma masks_differ_shape h h' rt : masks_differ h h' -> shape h rt -> shape h' rt.
Proof.
  intros Hd Hs. split.
  - destruct (sh_root _ _ Hs) as (n & Hn & Hp & Ht).
    destruct (proj2 Hd _ _ Hn) as [m Hm]. exists (set_mask m n). done.
  - intros l n' r c Hl Hc.
    destruct (masks_differ_inv _ _ _ _ Hd Hl) as (n & Hn & _ & _ & _ & Hch).
    rewrite Hch in Hc.
    destruct (sh_kid _ _ Hs l n r c Hn Hc) as (nc & Hnc & ?).
    destruct (proj2 Hd _ _ Hnc) as [m Hm]. exists (set_mask m nc). done.
  - intros l n' Hl Ht.
    destruct (masks_differ_inv _ _ _ _ Hd Hl) as (n & Hn & _ & Ht' & _ & Hch).
    rewrite Hch. apply (sh_term _ _ Hs l n Hn). congruence.
  - intros l n' p Hl Hp.
    destruct (masks_differ_inv _ _ _ _ Hd Hl) as (n & Hn & _ & _ & Hp' & _).
    apply (sh_up _ _ Hs l n p Hn). congruence.
Qed.

Lemma recalc_masks_differ h l : masks_differ h (recalc h l).
Proof.
  unfold recalc. destruct (h !! l) as [n|] eqn:Hl.
  - by apply masks_differ_insert.
  - apply masks_differ_refl.
Qed.

Lemma recalc_up_masks_differ gas h p : masks_differ h (recalc_up gas h p).
Proof.
  revert h p. induction gas as [|gas IH]; intros h [l|]; cbn;
    try apply masks_differ_refl.
  eapply masks_differ_trans; [apply recalc_masks_differ|apply IH].
Qed.

Lemma node_mask_insert_ne h l n c :
  c <> l -> node_mask (<[l := n]> h) c = node_mask h c.
Proof. intros H. unfold node_mask. by rewrite list_lookup_insert_ne. Qed.

Lemma masks_ok_weaken h rt (X X' : loc -> Prop) :
  (forall l, X' l -> X l) -> masks_ok h rt X' -> masks_ok h rt X.
Proof. intros HX H l n Hl Hrt HnX. apply (H l n Hl Hrt). naive_solver. Qed.

(** Recomputing the mask of [l] makes it right, and can only spoil the mask
    of the parent of [l]. *)
Lemma recalc_masks_ok h rt l n :
  shape h rt -> h !! l = Some n -> masks_ok h rt (eq l) ->
  masks_ok (recalc h l) rt (fun x => parent n = Some x).
Proof.
  intros Hs Hl Hm x nx Hx Hrt Hnp.
  unfold recalc in *. rewrite Hl in *.
  destruct (decide (x = l)) as [->|Hne].
  - rewrite list_lookup_insert_eq in Hx by (eapply lookup_lt_Some; eauto).
    injection Hx as <-. unfold mask_ok. cbn. f_equal.
    apply kids_mask_ext. intros k c Hc.
    rewrite node_mask_insert_ne; [done|].
    pose proof (kid_lt Hs l k c) as Hlt. unfold kid in Hlt. rewrite Hl in Hlt.
    specialize (Hlt Hc). lia.
  - rewrite list_lookup_insert_ne in Hx by done.
    pose proof (Hm x nx Hx Hrt ltac:(congruence)) as Hok.
    unfold mask_ok in *. rewrite Hok. f_equal.
    apply kids_mask_ext. intros k c Hc.
    rewrite node_mask_insert_ne; [done|].
    intros ->. destruct (sh_kid _ _ Hs x nx k l Hx Hc) as (nc & Hnc & Hp & _).
    simplify_eq; done.
Qed.

Lemma recalc_up_masks_ok gas h rt p :
  shape h rt ->
  match p with
  | Some x => (x < gas)%nat /\ is_Some (h !! x) /\ masks_ok h rt (eq x)
  | None => masks_ok h rt (fun _ => False)
  end ->
  masks_ok (recalc_up gas h p) rt (fun _ => False).
Proof.
  revert h p. induction gas as [|gas IH]; intros h p Hs Hp.
  - destruct p as [x|]; [lia|done].
  - destruct p as [x|]; [|done]. destruct Hp as (Hlt & [n Hx] & Hm). cbn.
    pose proof (recalc_masks_ok h rt x n Hs Hx Hm) as Hm'.
    pose proof (recalc_masks_differ h x) as Hd.
    apply IH; [by eapply masks_differ_shape|].
    destruct (proj2 Hd _ _ Hx) as [m Hx']. rewrite Hx'. cbn.
    destruct (parent n) as [y|] eqn:Hy.
    + pose proof (sh_up _ _ Hs x n y Hx Hy) as Hyx.
      split_and!; [lia| |].
      * apply lookup_lt_is_Some. rewrite <- (proj1 Hd).
        apply lookup_lt_Some in Hx. lia.
      * eapply masks_ok_weaken; [|exact Hm']. naive_solver.
    + eapply masks_ok_weaken; [|exact Hm']. naive_solver.
Qed.

(** ** Detaching a child *)

Lemma unlink_length h l r : length (unlink h l r) = length h.
Proof. unfold unlink. destruct (h !! l); [apply length_insert|done]. Qed.

Lemma unlink_lookup h l r x :
  unlink h l r !! x =
  if decide (x = l) then (fun n => set_children (delete r (children n)) n) <$> h !! l
  else h !! x.
Proof.
  unfold unlink. destruct (h !! l) as [n|] eqn:Hl.
  - destruct (decide (x = l)) as [->|Hne].
    + rewrite list_lookup_insert_eq by (eapply lookup_lt_Some; eauto). done.
    + by rewrite list_lookup_insert_ne.
  - destruct (decide (x = l)) as [->|Hne]; [by rewrite Hl|done].
Qed.

Lemma unlink_lookup_inv h l r x nx' :
  unlink h l r !! x = Some nx' ->
  exists nx, h !! x = Some nx /\ val nx' = val nx /\ term nx' = term nx /\
             mask nx' = mask nx /\ parent nx' = parent nx /\
             children nx' = (if decide (x = l) then delete r (children nx)
                             else children nx).
Proof.
  rewrite unlink_lookup. destruct (decide (x = l)) as [->|Hne].
  - destruct (h !! l) as [n|]; cbn; [|done]. intros [= <-]. by exists n.
  - intros H. by exists nx'.
Qed.

Lemma unlink_node_mask h l r c : node_mask (unlink h l r) c = node_mask h c.
Proof.
  unfold node_mask. rewrite unlink_lookup.
  destruct (decide (c = l)) as [->|]; [|done]. by destruct (h !! l).
Qed.

Lemma unlink_shape h rt l r : shape h rt -> shape (unlink h l r) rt.
Proof.
  intros Hs. split.
  - destruct (sh_root _ _ Hs) as (n & Hn & Hp & Ht).
    rewrite unlink_lookup. destruct (decide (rt = l)) as [->|].
    + rewrite Hn. cbn. eauto.
    + eauto.
  - intros x nx' k c Hx Hc.
    destruct (unlink_lookup_inv _ _ _ _ _ Hx) as (nx & Hnx & _ & _ & _ & _ & Hch).
    assert (children nx !! k = Some c) as Hc'.
    { rewrite Hch in Hc. destruct (decide (x = l)); [|done].
      apply lookup_delete_Some in Hc. tauto. }
    destruct (sh_kid _ _ Hs x nx k c Hnx Hc') as (nc & Hnc & Hp & Hv & Ht).
    rewrite unlink_lookup. destruct (decide (c = l)) as [->|].
    + rewrite Hnc. cbn. eauto.
    + eauto.
  - intros x nx' Hx Ht.
    destruct (unlink_lookup_inv _ _ _ _ _ Hx) as (nx & Hnx & _ & Ht' & _ & _ & Hch).
    rewrite Ht' in Ht. pose proof (sh_term _ _ Hs x nx Hnx Ht) as He.
    rewrite Hch, He. destruct (decide (x = l)); [|done].
    apply delete_empty.
  - intros x nx' p Hx Hp.
    destruct (unlink_lookup_inv _ _ _ _ _ Hx) as (nx & Hnx & _ & _ & _ & Hp' & _).
    rewrite Hp' in Hp. eapply sh_up; eauto.
Qed.

Lemma unlink_masks_ok h rt l r :
  masks_ok h rt (fun _ => False) -> masks_ok (unlink h l r) rt (eq l).
Proof.
  intros Hm x nx' Hx Hrt Hne.
  destruct (unlink_lookup_inv _ _ _ _ _ Hx) as (nx & Hnx & Hv & _ & Hmk & _ & Hch).
  rewrite decide_False in Hch by done.
  pose proof (Hm x nx Hnx Hrt ltac:(tauto)) as Hok.
  unfold mask_ok in *. rewrite Hmk, Hv, Hch, Hok. f_equal.
  apply kids_mask_ext. intros. by rewrite unlink_node_mask.
Qed.

Lemma remove_child_wf h rt l r :
  shape h rt -> masks_ok h rt (fun _ => False) -> is_Some (h !! l) ->
  shape (remove_child h l r) rt /\
  masks_ok (remove_child h l r) rt (fun _ => False) /\
  length (remove_child h l r) = length h.
Proof.
  intros Hs Hm [n Hl]. unfold remove_child.
  set (h1 := unlink h l r).
  assert (shape h1 rt) as Hs1 by by apply unlink_shape.
  assert (exists n1, h1 !! l = Some n1 /\ parent n1 = parent n) as (n1 & Hl1 & Hp1).
  { subst h1. rewrite unlink_lookup, decide_True, Hl by done. cbn. eauto. }
  pose proof (recalc_masks_differ h1 l) as Hd.
  set (h2 := recalc h1 l) in *.
  assert (shape h2 rt) as Hs2 by by eapply masks_differ_shape.
  pose proof (recalc_up_masks_differ (length h2) h2 (n ← h2 !! l; parent n)) as Hd2.
  split_and!.
  - by eapply masks_differ_shape.
  - apply recalc_up_masks_ok; [done|].
    destruct (proj2 Hd _ _ Hl1) as [m Hl2]. rewrite Hl2. cbn.
    pose proof (recalc_masks_ok h1 rt l n1 Hs1 Hl1
                  (unlink_masks_ok h rt l r Hm)) as Hm2.
    fold h2 in Hm2.
    destruct (parent n1) as [y|] eqn:Hy.
    + pose proof (sh_up _ _ Hs1 l n1 y Hl1 Hy) as Hyl.
      apply lookup_lt_Some in Hl2.
      split_and!; [lia|apply lookup_lt_is_Some; lia|].
      eapply masks_ok_weaken; [|exact Hm2]. naive_solver.
    + eapply masks_ok_weaken; [|exact Hm2]. naive_solver.
  - rewrite <- (proj1 Hd2), <- (proj1 Hd). apply unlink_length.
Qed.

(** ** Running the operations that range over children *)

Section Run.

Variable range_order : gmap rune loc -> list (rune * loc).
Hypothesis range_order_perm : forall m, range_order m ≡ₚ map_to_list m.

Lemma recalc_loop (l : loc) (xs : list (rune * loc)) : forall t x,
  arena t !! l = Some x ->
  (forall kc, kc ∈ xs -> kc.2 <> l /\ is_Some (arena t !! kc.2)) ->
  for_range xs
    (fun kc _ =>
       let* cm := Mask (Some kc.2) in
       update (Some l) (fun x => set_mask (Z.lor (mask x) (Z.lor (maskrune kc.1) cm)) x))
    tt t
  = Done tt (set_arena
      (<[l := set_mask (Z.lor (mask x) (or_list (entry_mask (arena t) <$> xs))) x]>
         (arena t)) t).
Proof.
  induction xs as [|[k c] xs IH]; intros t x Hl Hxs; cbn.
  - unfold ret. rewrite Z.lor_0_r, set_mask_id, list_insert_id by done.
    by destruct t.
  - destruct (Hxs (k, c) ltac:(left)) as [Hne [nc Hc]]. cbn in Hne, Hc.
    mrun.
    set (x' := set_mask _ x).
    rewrite (IH _ x').
    + cbn. f_equal. unfold set_arena. cbn. f_equal.
      rewrite list_insert_insert_eq. f_equal. subst x'. cbn.
      unfold set_mask. cbn. f_equal.
      rewrite <- Z.lor_assoc. f_equal.
      assert (entry_mask (arena t) (k, c) = Z.lor (maskrune k) (mask nc)) as ->.
      { unfold entry_mask, node_mask. cbn. by rewrite Hc. }
      f_equal. unfold or_list. f_equal.
      apply list_fmap_ext. intros i [k' c'] Hi.
      unfold entry_mask. cbn. f_equal. apply node_mask_insert_ne.
      apply (Hxs (k', c')). right. eapply list_elem_of_lookup_2; eauto.
    + cbn. apply list_lookup_insert_eq. eapply lookup_lt_Some; eauto.
    + intros kc Hkc. destruct (Hxs kc ltac:(by right)) as [Hne' Hal].
      split; [done|]. cbn. by rewrite list_lookup_insert_ne.
Qed.

Lemma recalculateMask_run t rt l n :
  shape (arena t) rt -> arena t !! l = Some n ->
  recalculateMask range_order (Some l) t
  = Done tt (set_arena (recalc (arena t) l) t).
Proof.
  intros Hs Hl. unfold recalculateMask.
  mrun. mrun.
  set (t0 := set_arena _ t).
  assert (arena t0 !! l = Some (set_mask (maskrune (val n)) n)) as Hl0.
  { subst t0. cbn. apply list_lookup_insert_eq. eapply lookup_lt_Some; eauto. }
  mrun. cbn [children set_mask].
  rewrite (recalc_loop l _ t0 _ Hl0).
  - subst t0. unfold set_arena. cbn. f_equal. f_equal.
    rewrite list_insert_insert_eq. unfold recalc. rewrite Hl. f_equal.
    unfold set_mask. cbn. f_equal. f_equal.
    unfold kids_mask.
    rewrite (or_list_perm _ (entry_mask (<[l:=set_mask (maskrune (val n)) n]> (arena t))
                               <$> map_to_list (children n)))
      by (apply fmap_Permutation, range_order_perm).
    f_equal. apply list_fmap_ext. intros i [k c] Hi.
    unfold entry_mask. cbn. f_equal. apply node_mask_insert_ne.
    apply list_elem_of_lookup_2, elem_of_map_to_list in Hi.
    pose proof (kid_lt Hs l k c) as Hlt. unfold kid in Hlt. rewrite Hl in Hlt.
    specialize (Hlt Hi). lia.
  - intros [k c] Hkc. rewrite range_order_perm in Hkc.
    apply elem_of_map_to_list in Hkc. cbn.
    pose proof (kid_lt Hs l k c) as Hlt. unfold kid in Hlt. rewrite Hl in Hlt.
    specialize (Hlt Hkc). split; [lia|].
    subst t0. cbn. apply lookup_lt_is_Some. rewrite length_insert. lia.
Qed.

Lemma recalculate_up_run gas : forall t rt p,
  shape (arena t) rt ->
  (forall x, p = Some x -> (x < gas)%nat /\ is_Some (arena t !! x)) ->
  recalculate_up range_order gas p t
  = Done tt (set_arena (recalc_up gas (arena t) p) t).
Proof.
  induction gas as [|gas IH]; intros t rt p Hs Hp.
  - destruct p as [x|]; [destruct (Hp x eq_refl); lia|]. cbn. by destruct t.
  - destruct p as [x|]; [|cbn; by destruct t].
    destruct (Hp x eq_refl) as [Hlt [n Hx]]. cbn [recalculate_up recalc_up].
    rewrite (bind_Done _ _ _ _ _ (recalculateMask_run _ rt _ _ Hs Hx)).
    pose proof (recalc_masks_differ (arena t) x) as Hd.
    destruct (proj2 Hd _ _ Hx) as [m Hx'].
    set (t1 := set_arena _ t).
    assert (arena t1 !! x = Some (set_mask m n)) as Hx1 by done.
    mrun.
    rewrite (IH t1 rt).
    + subst t1. cbn. rewrite Hx'. cbn. done.
    + subst t1. cbn. by eapply masks_differ_shape.
    + intros y Hy. cbn in Hy.
      pose proof (sh_up _ _ Hs x n y Hx Hy). split; [lia|].
      subst t1. cbn. apply lookup_lt_is_Some. rewrite <- (proj1 Hd).
      apply lookup_lt_Some in Hx. lia.
Qed.

Lemma RemoveChild_run t rt l r :
  shape (arena t) rt -> is_Some (arena t !! l) ->
  RemoveChild range_order (Some l) r t
  = Done tt (set_arena (remove_child (arena t) l r) t).
Proof.
  intros Hs [n Hl]. unfold RemoveChild.
  mrun.
  set (t1 := set_arena _ t).
  assert (arena t1 = unlink (arena t) l r) as E1.
  { subst t1. cbn. unfold unlink. by rewrite Hl. }
  assert (shape (arena t1) rt) as Hs1 by (rewrite E1; by apply unlink_shape).
  assert (exists n1, arena t1 !! l = Some n1 /\ parent n1 = parent n) as (n1 & Hl1 & Hp1).
  { rewrite E1, unlink_lookup, decide_True, Hl by done. cbn. eauto. }
  rewrite (bind_Done _ _ _ _ _ (recalculateMask_run _ rt _ _ Hs1 Hl1)).
  pose proof (recalc_masks_differ (arena t1) l) as Hd.
  destruct (proj2 Hd _ _ Hl1) as [m Hl2].
  set (t2 := set_arena _ t1).
  assert (arena t2 !! l = Some (set_mask m n1)) as Hl2' by done.
  mrun. unfold bind, fuel.
  rewrite (recalculate_up_run _ t2 rt).
  - subst t2. cbn. unfold remove_child. rewrite <- E1. rewrite Hl2. cbn.
    subst t1. done.
  - subst t2. cbn. by eapply masks_differ_shape.
  - intros y Hy. cbn in Hy.
    pose proof (sh_up _ _ Hs1 l n1 y Hl1 Hy).
    apply lookup_lt_Some in Hl2'.
    split; [lia|]. apply lookup_lt_is_Some. lia.
Qed.

End Run.

(** ** Attaching a child *)

Lemma depth_after_ok i runes :
  0 <= i -> i + Z.of_nat (length runes) <= max_int ->
  depth_after i runes = i + Z.of_nat (length runes).
Proof.
  revert i. induction runes as [|r rest IH]; intros i Hi Hle;
    cbn [depth_after length] in *.
  - lia.
  - rewrite Nat2Z.inj_succ in *.
    rewrite int_wrap_id by (unfold min_int, max_int in *; lia).
    rewrite IH by lia. lia.
Qed.

Lemma add_kid_length h l n r x : length (add_kid h l n r x) = S (length h).
Proof. unfold add_kid. rewrite length_insert, length_app. cbn. lia. Qed.

Lemma add_kid_lookup h l n r x y :
  h !! l = Some n ->
  add_kid h l n r x !! y =
  if decide (y = l) then Some (set_children (<[r := length h]> (children n)) n)
  else if decide (y = length h) then Some x
  else h !! y.
Proof.
  intros Hl. pose proof (lookup_lt_Some _ _ _ Hl) as Hlt. unfold add_kid.
  destruct (decide (y = l)) as [->|Hne].
  - apply list_lookup_insert_eq. rewrite length_app. cbn. lia.
  - rewrite list_lookup_insert_ne by done.
    destruct (decide (y = length h)) as [->|Hne'].
    + rewrite lookup_app_r by lia. by rewrite Nat.sub_diag.
    + destruct (decide (y < length h)%nat).
      * by rewrite lookup_app_l.
      * rewrite !lookup_ge_None_2; [done|lia|].
        rewrite length_app. cbn. lia.
Qed.

Lemma add_kid_lookup_old h l n r x y ny :
  h !! l = Some n -> h !! y = Some ny ->
  exists ny', add_kid h l n r x !! y = Some ny' /\
    val ny' = val ny /\ term ny' = term ny /\ mask ny' = mask ny /\
    parent ny' = parent ny /\
    children ny' = (if decide (y = l) then <[r := length h]> (children ny)
                    else children ny).
Proof.
  intros Hl Hy. rewrite (add_kid_lookup _ _ _ _ _ _ Hl).
  pose proof (lookup_lt_Some _ _ _ Hy).
  destruct (decide (y = l)) as [->|].
  - simplify_eq. eexists. split; [done|]. done.
  - rewrite decide_False by lia. eauto 10.
Qed.

Lemma add_kid_node_mask h l n r x c :
  h !! l = Some n -> (c < length h)%nat ->
  node_mask (add_kid h l n r x) c = node_mask h c.
Proof.
  intros Hl Hc. unfold node_mask.
  destruct (lookup_lt_is_Some_2 h c Hc) as [nc Hnc].
  destruct (add_kid_lookup_old h l n r x c nc Hl Hnc) as (nc' & -> & _ & _ & Hm & _).
  rewrite Hnc. done.
Qed.

Lemma add_kid_shape h rt l n r m :
  shape h rt -> h !! l = Some n -> term n = false ->
  shape (add_kid h l n r (mkNode r (bool_decide (r = nul)) m (Some l) ∅)) rt.
Proof.
  intros Hs Hl Ht. pose proof (lookup_lt_Some _ _ _ Hl) as Hlt.
  set (x := mkNode _ _ _ _ _). split.
  - destruct (sh_root _ _ Hs) as (nr & Hnr & Hp & Htr).
    destruct (add_kid_lookup_old h l n r x rt nr Hl Hnr) as (nr' & E & _ & Ht' & _ & Hp' & _).
    exists nr'. split_and!; congruence.
  - intros y ny' k c Hy Hc.
    rewrite (add_kid_lookup _ _ _ _ _ _ Hl) in Hy.
    assert (forall c nc, h !! c = Some nc ->
      exists nc', add_kid h l n r x !! c = Some nc' /\ parent nc' = parent nc /\
                  val nc' = val nc /\ term nc' = term nc) as Hold.
    { intros c0 nc0 Hc0.
      destruct (add_kid_lookup_old h l n r x c0 nc0 Hl Hc0)
        as (nc' & E & Hv & Ht' & _ & Hp' & _). eauto 10. }
    destruct (decide (y = l)) as [->|Hyl].
    + injection Hy as <-. cbn in Hc.
      destruct (decide (k = r)) as [->|Hkr].
      * rewrite lookup_insert_eq in Hc. injection Hc as <-.
        exists x. rewrite (add_kid_lookup _ _ _ _ _ _ Hl).
        rewrite decide_False by lia. rewrite decide_True by done. done.
      * rewrite lookup_insert_ne in Hc by done.
        destruct (sh_kid _ _ Hs l n k c Hl Hc) as (nc & Hnc & Hp & Hv & Htc).
        destruct (Hold c nc Hnc) as (nc' & E & Hp' & Hv' & Ht').
        exists nc'. split_and!; congruence.
    + destruct (decide (y = length h)) as [->|Hyn].
      * injection Hy as <-. cbn in Hc. by rewrite lookup_empty in Hc.
      * destruct (sh_kid _ _ Hs y ny' k c Hy Hc) as (nc & Hnc & Hp & Hv & Htc).
        destruct (Hold c nc Hnc) as (nc' & E & Hp' & Hv' & Ht').
        exists nc'. split_and!; congruence.
  - intros y ny' Hy Hty.
    rewrite (add_kid_lookup _ _ _ _ _ _ Hl) in Hy.
    destruct (decide (y = l)) as [->|Hyl].
    + injection Hy as <-. cbn in Hty. congruence.
    + destruct (decide (y = length h)) as [->|Hyn].
      * by injection Hy as <-.
      * eapply sh_term; eauto.
  - intros y ny' p Hy Hp.
    rewrite (add_kid_lookup _ _ _ _ _ _ Hl) in Hy.
    destruct (decide (y = l)) as [->|Hyl].
    + injection Hy as <-. cbn in Hp. eapply sh_up; eauto.
    + destruct (decide (y = length h)) as [->|Hyn].
      * injection Hy as <-. cbn in Hp. injection Hp as <-. done.
      * eapply sh_up; eauto.
Qed.

(** Below a node whose subtree is untouched, paths are untouched. *)
Lemma walk_frame h h' c :
  (forall s x, walk h c s = Some x -> h' !! x = h !! x) ->
  forall s, walk h' c s = walk h c s.
Proof.
  intros H s. revert c H. induction s as [|r s IH]; intros c H; cbn; [done|].
  assert (kid h' c r = kid h c r) as ->.
  { unfold kid. by rewrite (H [] c). }
  destruct (kid h c r) as [d|] eqn:Hd; cbn; [|done].
  apply IH. intros s' x Hx. apply (H (r :: s')). cbn. by rewrite Hd.
Qed.

Lemma stored_frame h h' c :
  (forall s x, walk h c s = Some x -> h' !! x = h !! x) ->
  forall k, stored_from h' c k <-> stored_from h c k.
Proof.
  intros H k. unfold stored_from. rewrite (walk_frame h h' c H).
  split; intros (e & s0 & Hw & Hk); exists e, s0; split; try done.
  - unfold kid in *. by rewrite <- (H k e Hw).
  - unfold kid in *. by rewrite (H k e Hw).
Qed.

Lemma masks_differ_stored h h' l k :
  masks_differ h h' -> stored_from h' l k <-> stored_from h l k.
Proof.
  intros Hd. unfold stored_from. rewrite (masks_differ_walk h h') by done.
  by setoid_rewrite (masks_differ_kid h h' _ _ Hd).
Qed.

Lemma stored_from_cons h l r k :
  stored_from h l (r :: k) <-> exists c, kid h l r = Some c /\ stored_from h c k.
Proof.
  unfold stored_from. cbn. split.
  - intros (e & s & Hw & Hk). destruct (kid h l r) as [c|]; cbn in Hw; [|done].
    exists c. eauto.
  - intros (c & -> & e & s & Hw & Hk). cbn. eauto.
Qed.

Lemma stored_from_nil h l : stored_from h l [] <-> is_Some (kid h l nul).
Proof.
  unfold stored_from. cbn. split.
  - intros (e & s & [= <-] & Hk). eauto.
  - intros [s Hk]. eauto.
Qed.

(** ** The masks along an insertion *)

Lemma kid_not_root h rt l r c : shape h rt -> kid h l r = Some c -> c <> rt.
Proof.
  intros Hs Hk ->. destruct (kid_node Hs _ _ _ Hk) as (nc & Hnc & Hp & _).
  destruct (sh_root _ _ Hs) as (nr & Hnr & Hpr & _). congruence.
Qed.

Lemma sentinel_mask h rt X l s :
  shape h rt -> masks_ok h rt X -> kid h l nul = Some s -> ~ X s ->
  node_mask h s = 0.
Proof.
  intros Hs Hm Hk HX.
  destruct (kid_node Hs _ _ _ Hk) as (ns & Hns & Hp & Hv & Ht).
  rewrite bool_decide_eq_true_2 in Ht by done.
  pose proof (Hm s ns Hns (kid_not_root _ _ _ _ _ Hs Hk) HX) as Hok.
  unfold node_mask. rewrite Hns. cbn. rewrite Hok, Hv.
  by rewrite (sh_term _ _ Hs s ns Hns Ht), kids_mask_empty.
Qed.

Lemma add_sentinel_masks h rt l n :
  shape h rt -> h !! l = Some n -> masks_ok h rt (eq l) ->
  pending h rt l n [] ->
  masks_ok (add_kid h l n nul (mkNode nul true 0 (Some l) ∅)) rt (fun _ => False).
Proof.
  intros Hs Hl Hm Hp x nx' Hx Hrt _.
  pose proof (lookup_lt_Some _ _ _ Hl) as Hlt.
  set (h' := add_kid _ _ _ _ _) in *.
  assert (forall (cs : gmap Z nat),
    (forall k c, cs !! k = Some c -> (c < length h)%nat) ->
    kids_mask h' cs = kids_mask h cs) as Hext.
  { intros cs Hcs. apply kids_mask_ext. intros k c Hc.
    apply add_kid_node_mask; eauto. }
  unfold h' in Hx. rewrite (add_kid_lookup _ _ _ _ _ _ Hl) in Hx.
  destruct (decide (x = l)) as [->|Hxl].
  - injection Hx as <-. unfold mask_ok. cbn.
    rewrite (Hp Hrt), maskruneslice_nil, Z.lor_0_r. f_equal.
    rewrite <- (insert_delete_eq (children n)).
    rewrite kids_mask_insert by apply lookup_delete_eq.
    assert (entry_mask h' (nul, length h) = 0) as ->.
    { unfold entry_mask, node_mask. cbn.
      subst h'. rewrite (add_kid_lookup _ _ _ _ _ _ Hl).
      rewrite decide_False by lia. by rewrite decide_True. }
    rewrite Z.lor_0_l, Hext.
    2:{ intros k c [_ Hc]%lookup_delete_Some.
        eapply (kid_lt Hs l k c). unfold kid. by rewrite Hl. }
    destruct (children n !! nul) as [s0|] eqn:Hs0.
    + rewrite (kids_mask_delete h (children n) nul s0 Hs0).
      assert (kid h l nul = Some s0) as Hk by (unfold kid; by rewrite Hl).
      unfold entry_mask. cbn.
      rewrite (sentinel_mask h rt (eq l) l s0 Hs Hm Hk).
      * done.
      * apply (kid_lt Hs) in Hk. lia.
    + by rewrite delete_id.
  - destruct (decide (x = length h)) as [->|Hxn].
    + injection Hx as <-. unfold mask_ok. cbn. by rewrite kids_mask_empty.
    + pose proof (Hm x nx' Hx Hrt ltac:(congruence)) as Hok.
      unfold mask_ok in *. rewrite Hok. f_equal. symmetry. apply Hext.
      intros k c Hc. eapply (kid_lt Hs x k c). unfold kid. by rewrite Hx.
Qed.

Lemma lor_absorb_new mv K R B m :
  B = Z.lor R m -> Z.lor (Z.lor mv K) B = Z.lor mv (Z.lor (Z.lor R B) K).
Proof. intros H. bitblast. Qed.

Lemma add_child_masks h rt l n r rest :
  shape h rt -> h !! l = Some n -> children n !! r = None ->
  masks_ok h rt (eq l) -> pending h rt l n (r :: rest) ->
  let x := mkNode r false (maskruneslice (r :: rest)) (Some l) ∅ in
  masks_ok (add_kid h l n r x) rt (eq (length h)) /\
  pending (add_kid h l n r x) rt (length h) x rest.
Proof.
  intros Hs Hl Hr Hm Hp x.
  pose proof (lookup_lt_Some _ _ _ Hl) as Hlt.
  set (h' := add_kid _ _ _ _ _) in *.
  assert (forall (cs : gmap Z nat),
    (forall k c, cs !! k = Some c -> (c < length h)%nat) ->
    kids_mask h' cs = kids_mask h cs) as Hext.
  { intros cs Hcs. apply kids_mask_ext. intros k c Hc.
    apply add_kid_node_mask; eauto. }
  split.
  - intros y ny' Hy Hrt Hyn.
    subst h'. rewrite (add_kid_lookup _ _ _ _ _ _ Hl) in Hy.
    destruct (decide (y = l)) as [->|Hyl].
    + injection Hy as <-. unfold mask_ok. cbn.
      rewrite (Hp Hrt). rewrite kids_mask_insert by done.
      assert (entry_mask (add_kid h l n r x) (r, length h)
              = Z.lor (maskrune r) (maskruneslice (r :: rest))) as ->.
      { unfold entry_mask, node_mask. cbn.
        rewrite (add_kid_lookup _ _ _ _ _ _ Hl).
        rewrite decide_False by lia. by rewrite decide_True. }
      rewrite Hext.
      2:{ intros k c Hc. eapply (kid_lt Hs l k c). unfold kid. by rewrite Hl. }
      eapply lor_absorb_new. apply maskruneslice_cons.
    + rewrite decide_False in Hy by congruence.
      pose proof (Hm y ny' Hy Hrt ltac:(congruence)) as Hok.
      unfold mask_ok in *. rewrite Hok. f_equal. symmetry. apply Hext.
      intros k c Hc. eapply (kid_lt Hs y k c). unfold kid. by rewrite Hy.
  - intros _. cbn. rewrite kids_mask_empty, Z.lor_0_r. apply maskruneslice_cons.
Qed.

Lemma lor_absorb_old mv E K' B R M :
  B = Z.lor R M ->
  Z.lor (Z.lor mv (Z.lor (Z.lor R E) K')) B
  = Z.lor mv (Z.lor (Z.lor R (Z.lor E B)) K').
Proof. intros H. bitblast. Qed.

Lemma lor_absorb_pending R K B M :
  B = Z.lor R M ->
  Z.lor (Z.lor R K) B = Z.lor (Z.lor R K) M.
Proof. intros H. bitblast. Qed.

Lemma or_child_masks h rt l n r c nc rest :
  shape h rt -> h !! l = Some n -> children n !! r = Some c -> h !! c = Some nc ->
  masks_ok h rt (eq l) -> pending h rt l n (r :: rest) ->
  let nc' := set_mask (Z.lor (mask nc) (maskruneslice (r :: rest))) nc in
  masks_ok (<[c := nc']> h) rt (eq c) /\ pending (<[c := nc']> h) rt c nc' rest.
Proof.
  intros Hs Hl Hr Hc Hm Hp nc'.
  assert (kid h l r = Some c) as Hk by (unfold kid; by rewrite Hl).
  pose proof (kid_lt Hs _ _ _ Hk) as Hlc.
  destruct (kid_node Hs _ _ _ Hk) as (nc0 & Hc0 & Hpar & Hval & Hterm).
  simplify_eq.
  assert (forall (cs : gmap Z nat),
    (forall k c', cs !! k = Some c' -> c' <> c) ->
    kids_mask (<[c := nc']> h) cs = kids_mask h cs) as Hext.
  { intros cs Hcs. apply kids_mask_ext. intros k c' Hc'.
    apply node_mask_insert_ne. eauto. }
  assert (mask nc = Z.lor (maskrune (val nc)) (kids_mask h (children nc))) as Hokc.
  { apply (Hm c nc Hc); [|lia]. eapply kid_not_root; eauto. }
  split.
  - intros y ny Hy Hrt Hyc.
    rewrite list_lookup_insert_ne in Hy by done.
    destruct (decide (y = l)) as [->|Hyl].
    + simplify_eq. unfold mask_ok. rewrite (Hp Hrt).
      rewrite (kids_mask_delete (<[c := nc']> h) (children n) (val nc) c Hr).
      rewrite (kids_mask_delete h (children n) (val nc) c Hr).
      rewrite Hext.
      2:{ intros k c' [Hkr Hc']%lookup_delete_Some ->.
          destruct (sh_kid _ _ Hs l n k c Hl Hc') as (? & ? & _ & ? & _).
          congruence. }
      unfold entry_mask, node_mask. cbn.
      rewrite list_lookup_insert_eq by (eapply lookup_lt_Some; eauto).
      rewrite Hc. cbn.
      eapply lor_absorb_old. apply maskruneslice_cons.
    + pose proof (Hm y ny Hy Hrt ltac:(congruence)) as Hok.
      unfold mask_ok in *. rewrite Hok. f_equal. symmetry. apply Hext.
      intros k c' Hc' ->.
      destruct (sh_kid _ _ Hs y ny k c Hy Hc') as (? & ? & ? & _).
      congruence.
  - intros _. subst nc'. cbn. rewrite Hext.
    2:{ intros k c' Hc' ->.
        pose proof (kid_lt Hs c k c) as Hlt. unfold kid in Hlt. rewrite Hc in Hlt.
        specialize (Hlt Hc'). lia. }
    rewrite Hokc at 1. eapply lor_absorb_pending. apply maskruneslice_cons.
Qed.

(** ** Insertion *)

Lemma set_arena_id t : set_arena (arena t) t = t.
Proof. by destruct t. Qed.

(** [addrune] below the node at [l]: the invariants come back, the nodes off
    the path are untouched, and the one key added below [l] is [runes]. *)
Lemma addrune_spec runes : forall l i t rt n,
  shape (arena t) rt -> arena t !! l = Some n -> term n = false ->
  nul_free runes ->
  masks_ok (arena t) rt (eq l) -> pending (arena t) rt l n runes ->
  exists t', addrune (Some l) runes i t = Done (depth_after i runes) t' /\
    root t' = root t /\ size t' = size t /\
    shape (arena t') rt /\ masks_ok (arena t') rt (fun _ => False) /\
    (length (arena t) <= length (arena t'))%nat /\
    (forall x, (x < length (arena t))%nat ->
       (forall p, p `prefix_of` runes -> walk (arena t) l p <> Some x) ->
       arena t' !! x = arena t !! x) /\
    (forall k, stored_from (arena t') l k <-> k = runes \/ stored_from (arena t) l k).
Proof.
  induction runes as [|r rest IH]; intros l i t rt n Hs Hl Ht Hnf Hm Hp.
  - (* the key is exhausted: the terminal child *)
    pose proof (lookup_lt_Some _ _ _ Hl) as Hlt.
    set (h := arena t) in *.
    set (x := mkNode nul true 0 (Some l) ∅).
    exists (set_arena (add_kid h l n nul x) t).
    assert (shape (add_kid h l n nul x) rt) as Hs'
      by (apply (add_kid_shape h rt l n nul 0); done).
    split_and!.
    + cbn [addrune]. mrun. done.
    + done.
    + done.
    + done.
    + cbn. by apply add_sentinel_masks.
    + cbn. rewrite add_kid_length. lia.
    + intros y Hy Hpath. cbn. rewrite (add_kid_lookup _ _ _ _ _ _ Hl).
      rewrite decide_False.
      2:{ intros ->. by apply (Hpath []). }
      rewrite decide_False by lia. done.
    + intros k. cbn [arena set_arena].
      assert (forall r', kid (add_kid h l n nul x) l r'
                = if decide (r' = nul) then Some (length h) else kid h l r') as Hkid.
      { intros r'. unfold kid. rewrite (add_kid_lookup _ _ _ _ _ _ Hl).
        rewrite decide_True by done. cbn. rewrite Hl. cbn.
        destruct (decide (r' = nul)) as [->|].
        - by rewrite lookup_insert_eq.
        - by rewrite lookup_insert_ne. }
      assert (forall r', kid (add_kid h l n nul x) (length h) r' = None) as Hnew.
      { intros r'. unfold kid. rewrite (add_kid_lookup _ _ _ _ _ _ Hl).
        rewrite decide_False by lia. rewrite decide_True by done. done. }
      destruct k as [|r' s].
      * rewrite !stored_from_nil, Hkid. rewrite decide_True by done.
        split; eauto.
      * rewrite !stored_from_cons. rewrite Hkid.
        destruct (decide (r' = nul)) as [->|Hr'].
        -- split.
           ++ intros (c & [= <-] & Hst). exfalso.
              destruct s as [|r'' s].
              ** apply stored_from_nil in Hst. rewrite Hnew in Hst.
                 by destruct Hst.
              ** apply stored_from_cons in Hst as (? & Hst & _).
                 by rewrite Hnew in Hst.
           ++ intros [?|(c & Hk & Hst)]; [done|]. exfalso.
              assert (stored_from h l (nul :: s)) as Hst'
                by (apply stored_from_cons; eauto).
              apply (stored_nul_free Hs) in Hst'.
              by apply Forall_cons in Hst' as [? _].
        -- assert (forall c0 s0, kid h l r' = Some c0 ->
             stored_from (add_kid h l n nul x) c0 s0 <-> stored_from h c0 s0) as Hfr.
           { intros c0 s0 Hk0. apply stored_frame. intros s' y Hy.
             pose proof (kid_lt Hs _ _ _ Hk0).
             pose proof (walk_le Hs _ _ _ Hy).
             pose proof (walk_alloc Hs c0 s' y ltac:(lia) Hy).
             rewrite (add_kid_lookup _ _ _ _ _ _ Hl).
             by rewrite !decide_False by lia. }
           split.
           ++ intros (c & Hk & Hst). right. exists c. split; [done|].
              by apply Hfr.
           ++ intros [?|(c & Hk & Hst)]; [done|]. exists c. split; [done|].
              by apply Hfr.
  - (* one more rune *)
    apply Forall_cons in Hnf as [Hr Hnf].
    pose proof (lookup_lt_Some _ _ _ Hl) as Hlt.
    cbn [addrune depth_after].
    destruct (children n !! r) as [c|] eqn:Hc.
    + (* the child is there *)
      assert (kid (arena t) l r = Some c) as Hk by (unfold kid; by rewrite Hl).
      pose proof (kid_lt Hs _ _ _ Hk) as Hlc.
      destruct (kid_node Hs _ _ _ Hk) as (nc & Hnc & Hpar & Hval & Hterm).
      rewrite bool_decide_eq_false_2 in Hterm by done.
      set (nc' := set_mask (Z.lor (mask nc) (maskruneslice (r :: rest))) nc).
      set (t1 := set_arena (<[c := nc']> (arena t)) t).
      pose proof (masks_differ_insert (arena t) c nc
                    (Z.lor (mask nc) (maskruneslice (r :: rest))) Hnc) as Hd.
      fold nc' in Hd.
      destruct (or_child_masks (arena t) rt l n r c nc rest Hs Hl Hc Hnc Hm Hp)
        as [Hm1 Hp1]. fold nc' in Hm1, Hp1.
      destruct (IH c (int_wrap (i + 1)) t1 rt nc') as (t' & Hrun & Hroot & Hsize &
        Hs' & Hm' & Hlen & Hframe & Hkeys).
      { by eapply masks_differ_shape. }
      { cbn. apply list_lookup_insert_eq. lia. }
      { done. }
      { done. }
      { done. }
      { done. }
      exists t'. split_and!; try done.
      * mrun. rewrite Hc. mrun. mrun. exact Hrun.
      * cbn in Hlen. rewrite length_insert in Hlen. done.
      * intros y Hy Hpath. cbn in Hframe. rewrite length_insert in Hframe.
        rewrite Hframe; [|done|].
        -- apply list_lookup_insert_ne. intros ->.
           apply (Hpath [r]); [by apply prefix_cons, prefix_nil|].
           cbn. by rewrite Hk.
        -- intros p Hpre Hw. apply (Hpath (r :: p)); [by apply prefix_cons|].
           cbn. rewrite Hk. cbn.
           by rewrite <- (masks_differ_walk _ _ _ _ Hd).
      * intros k.
        assert (arena t' !! l = arena t !! l) as El.
        { cbn in Hframe. rewrite length_insert in Hframe.
          rewrite Hframe; [by apply list_lookup_insert_ne; lia|done|].
          intros p _ Hw. apply (walk_le (masks_differ_shape _ _ _ Hd Hs)) in Hw.
          lia. }
        assert (forall r', kid (arena t') l r' = kid (arena t) l r') as Hkid.
        { intros r'. unfold kid. by rewrite El. }
        destruct k as [|r' s].
        -- rewrite !stored_from_nil, Hkid. split; [by right|by intros [?|?]].
        -- rewrite !stored_from_cons. setoid_rewrite Hkid.
           destruct (decide (r' = r)) as [->|Hr'].
           ++ rewrite Hk. split.
              ** intros (c0 & [= <-] & Hst). apply Hkeys in Hst as [->|Hst]; [by left|].
                 right. exists c. split; [done|].
                 by apply (masks_differ_stored _ _ _ _ Hd).
              ** intros [[= ->]|(c0 & [= <-] & Hst)]; exists c; (split; [done|]);
                   apply Hkeys; [by left|right].
                 by apply (masks_differ_stored _ _ _ _ Hd).
           ++ assert (forall c0 s0, kid (arena t) l r' = Some c0 ->
                stored_from (arena t') c0 s0 <-> stored_from (arena t) c0 s0) as Hfr.
              { intros c0 s0 Hk0. apply stored_frame. intros s' y Hy.
                cbn in Hframe. rewrite length_insert in Hframe.
                pose proof (kid_lt Hs _ _ _ Hk0).
                rewrite Hframe.
                - apply list_lookup_insert_ne. intros Hcy.
                  assert (walk (arena t) l (r' :: s') = Some c) as Hw1
                    by (cbn; rewrite Hk0; cbn; congruence).
                  assert (walk (arena t) l [r] = Some c) as Hw2
                    by (cbn; by rewrite Hk).
                  pose proof (walk_inj Hs _ _ _ _ Hw1 Hw2). congruence.
                - eapply (walk_alloc Hs c0); [lia|done].
                - intros p Hpre Hw.
                  rewrite (masks_differ_walk _ _ _ _ Hd) in Hw.
                  assert (walk (arena t) l (r' :: s') = Some y) as Hw1
                    by (cbn; by rewrite Hk0).
                  assert (walk (arena t) l (r :: p) = Some y) as Hw2
                    by (cbn; by rewrite Hk).
                  pose proof (walk_inj Hs _ _ _ _ Hw1 Hw2). congruence. }
              split.
              ** intros (c0 & Hk0 & Hst). right. exists c0. split; [done|].
                 by apply Hfr.
              ** intros [?|(c0 & Hk0 & Hst)]; [congruence|]. exists c0.
                 split; [done|]. by apply Hfr.
    + (* a new child *)
      set (h := arena t) in *.
      set (x := mkNode r false (maskruneslice (r :: rest)) (Some l) ∅).
      set (t1 := set_arena (add_kid h l n r x) t).
      assert (kid h l r = None) as Hk by (unfold kid; by rewrite Hl).
      assert (arena t1 !! length h = Some x) as Hnew.
      { cbn. rewrite (add_kid_lookup _ _ _ _ _ _ Hl).
        rewrite decide_False by lia. by rewrite decide_True. }
      assert (shape (arena t1) rt) as Hs1.
      { cbn. pose proof (add_kid_shape h rt l n r (maskruneslice (r :: rest)) Hs Hl Ht) as H1.
        rewrite bool_decide_eq_false_2 in H1 by done. exact H1. }
      destruct (add_child_masks h rt l n r rest Hs Hl Hc Hm Hp) as [Hm1 Hp1].
      fold x in Hm1, Hp1.
      destruct (IH (length h) (int_wrap (i + 1)) t1 rt x) as (t' & Hrun & Hroot & Hsize &
        Hs' & Hm' & Hlen & Hframe & Hkeys); try done.
      cbn [arena set_arena t1] in Hlen, Hframe, Hkeys.
      assert (add_kid h l n r x !! length h = Some x) as Hnew' by exact Hnew.
      rewrite add_kid_length in Hlen, Hframe.
      exists t'. split_and!; try done.
      * mrun. rewrite Hc. mrun. fold h x t1. mrun.
        cbv zeta.
        assert (set_arena (<[length h := set_mask
                   (Z.lor (mask x) (maskruneslice (r :: rest))) x]> (arena t1)) t1
                = t1) as ->.
        { cbn [mask x]. rewrite Z.lor_diag.
          change (set_mask (maskruneslice (r :: rest)) x) with x.
          rewrite list_insert_id by done. apply set_arena_id. }
        exact Hrun.
      * lia.
      * intros y Hy Hpath. rewrite Hframe; [|lia|].
        -- rewrite (add_kid_lookup _ _ _ _ _ _ Hl).
           rewrite decide_False.
           2:{ intros ->. by apply (Hpath []); [apply prefix_nil|]. }
           by rewrite decide_False by lia.
        -- intros p _ Hw. apply (walk_le Hs1) in Hw. lia.
      * intros k.
        assert (arena t' !! l = Some (set_children (<[r := length h]> (children n)) n)) as El.
        { rewrite Hframe; [|lia|].
          - rewrite (add_kid_lookup _ _ _ _ _ _ Hl). by rewrite decide_True.
          - intros p _ Hw. apply (walk_le Hs1) in Hw. lia. }
        assert (forall r', kid (arena t') l r'
                  = if decide (r' = r) then Some (length h) else kid h l r') as Hkid.
        { intros r'. unfold kid. rewrite El, Hl. cbn.
          destruct (decide (r' = r)) as [->|].
          - by rewrite lookup_insert_eq.
          - by rewrite lookup_insert_ne. }
        destruct k as [|r' s].
        -- rewrite !stored_from_nil, Hkid. rewrite decide_False by done.
           split; [by right|by intros [?|?]].
        -- rewrite !stored_from_cons. setoid_rewrite Hkid.
           destruct (decide (r' = r)) as [->|Hr'].
           ++ rewrite Hk. split.
              ** intros (c0 & [= <-] & Hst). apply Hkeys in Hst as [->|Hst]; [by left|].
                 exfalso. destruct Hst as (e & s0 & Hw & Hk0).
                 destruct s as [|r'' s]; cbn in Hw.
                 --- injection Hw as <-. unfold kid in Hk0.
                     rewrite Hnew' in Hk0. done.
                 --- unfold kid in Hw. rewrite Hnew' in Hw. done.
              ** intros [[= ->]|(c0 & ? & _)]; [|done].
                 exists (length h). split; [done|]. apply Hkeys. by left.
           ++ assert (forall c0 s0, kid h l r' = Some c0 ->
                stored_from (arena t') c0 s0 <-> stored_from h c0 s0) as Hfr.
              { intros c0 s0 Hk0. apply stored_frame. intros s' y Hy.
                pose proof (kid_lt Hs _ _ _ Hk0).
                pose proof (walk_le Hs _ _ _ Hy).
                pose proof (walk_alloc Hs c0 s' y ltac:(lia) Hy).
                rewrite Hframe; [|lia|].
                - rewrite (add_kid_lookup _ _ _ _ _ _ Hl).
                  by rewrite !decide_False by lia.
                - intros p _ Hw. apply (walk_le Hs1) in Hw. lia. }
              split.
              ** intros (c0 & Hk0 & Hst). right. exists c0. split; [done|].
                 by apply Hfr.
              ** intros [?|(c0 & Hk0 & Hst)]; [congruence|]. exists c0.
                 split; [done|]. by apply Hfr.
Qed.

Lemma Add_spec k t :
  wf t -> nul_free k ->
  exists t', Add k t = Done (depth_after 0 k) t' /\ wf t' /\
    size t' = int_wrap (size t + 1) /\ root t' = root t /\
    (length (arena t) <= length (arena t'))%nat /\
    forall rt, root t = Some rt ->
      forall k', stored_from (arena t') rt k' <-> k' = k \/ stored_from (arena t) rt k'.
Proof.
  intros (rt & Hr & Hs & Hm) Hnf.
  destruct (sh_root _ _ Hs) as (n & Hn & Hp & Ht).
  set (t0 := set_size (int_wrap (size t + 1)) t).
  assert (masks_ok (arena t0) rt (eq rt)) as Hm0.
  { eapply masks_ok_weaken; [|exact Hm]. done. }
  assert (pending (arena t0) rt rt n k) as Hp0 by (by intros ?).
  destruct (addrune_spec k rt 0 t0 rt n Hs Hn Ht Hnf Hm0 Hp0)
    as (t' & Hrun & Hroot & Hsize & Hs' & Hm' & Hlen & _ & Hkeys).
  exists t'. split_and!; try done.
  - unfold Add, bind, Root. fold t0. cbn [root t0 set_size]. rewrite Hr. exact Hrun.
  - exists rt. split_and!; [|done..]. by rewrite Hroot.
  - intros rt' Hrt'. simplify_eq. exact Hkeys.
Qed.

Lemma kids_alloc_lt h :
  kids_alloc h <->
  forall l n r c, h !! l = Some n -> children n !! r = Some c -> (c < length h)%nat.
Proof.
  unfold kids_alloc. split; intros H l n r c Hl Hc.
  - apply lookup_lt_is_Some. eauto.
  - apply lookup_lt_is_Some. eauto.
Qed.

Lemma add_kid_kids_alloc h l n r x :
  kids_alloc h -> h !! l = Some n -> children x = ∅ ->
  kids_alloc (add_kid h l n r x).
Proof.
  rewrite !kids_alloc_lt. intros Hk Hl Hx y ny k c Hy Hc.
  rewrite add_kid_length. rewrite (add_kid_lookup _ _ _ _ _ _ Hl) in Hy.
  destruct (decide (y = l)) as [->|].
  - injection Hy as <-. cbn in Hc.
    destruct (decide (k = r)) as [->|].
    + rewrite lookup_insert_eq in Hc. injection Hc as <-. lia.
    + rewrite lookup_insert_ne in Hc by done.
      pose proof (Hk l n k c Hl Hc). lia.
  - destruct (decide (y = length h)) as [->|].
    + injection Hy as <-. by rewrite Hx, lookup_empty in Hc.
    + pose proof (Hk y ny k c Hy Hc). lia.
Qed.

Lemma set_mask_kids_alloc h c nc m :
  kids_alloc h -> h !! c = Some nc -> kids_alloc (<[c := set_mask m nc]> h).
Proof.
  rewrite !kids_alloc_lt. intros Hk Hc y ny k d Hy Hd.
  rewrite length_insert.
  destruct (decide (y = c)) as [->|].
  - rewrite list_lookup_insert_eq in Hy by (eapply lookup_lt_Some; eauto).
    injection Hy as <-. eapply Hk; eauto.
  - rewrite list_lookup_insert_ne in Hy by done. eapply Hk; eauto.
Qed.

(** On any store without dangling pointers, and for any key, [addrune] runs
    to the end of the key. *)
Lemma addrune_closed runes : forall l i t,
  kids_alloc (arena t) -> is_Some (arena t !! l) ->
  exists t', addrune (Some l) runes i t = Done (depth_after i runes) t' /\
    kids_alloc (arena t') /\ root t' = root t /\ size t' = size t /\
    (length (arena t) <= length (arena t'))%nat.
Proof.
  induction runes as [|r rest IH]; intros l i t Hk [n Hl].
  - exists (set_arena (add_kid (arena t) l n nul (mkNode nul true 0 (Some l) ∅)) t).
    split_and!; try done.
    + cbn [addrune]. mrun. done.
    + cbn. by apply add_kid_kids_alloc.
    + cbn. rewrite add_kid_length. lia.
  - cbn [addrune depth_after].
    destruct (children n !! r) as [c|] eqn:Hc.
    + destruct (Hk l n r c Hl Hc) as [nc Hnc].
      set (t1 := set_arena (<[c := set_mask (Z.lor (mask nc) (maskruneslice (r :: rest))) nc]>
                              (arena t)) t).
      destruct (IH c (int_wrap (i + 1)) t1) as (t' & Hrun & Hk' & Hroot & Hsize & Hlen).
      { cbn. by apply set_mask_kids_alloc. }
      { cbn. apply lookup_lt_is_Some. rewrite length_insert.
        eapply lookup_lt_Some; eauto. }
      exists t'. split_and!; try done.
      * mrun. rewrite Hc. mrun. mrun. exact Hrun.
      * cbn in Hlen. by rewrite length_insert in Hlen.
    + set (x := mkNode r false (maskruneslice (r :: rest)) (Some l) ∅).
      set (t1 := set_arena (add_kid (arena t) l n r x) t).
      pose proof (lookup_lt_Some _ _ _ Hl) as Hlt.
      assert (arena t1 !! length (arena t) = Some x) as Hnew.
      { cbn. rewrite (add_kid_lookup _ _ _ _ _ _ Hl).
        rewrite decide_False by lia. by rewrite decide_True. }
      set (t2 := set_arena (<[length (arena t) := set_mask
                 (Z.lor (mask x) (maskruneslice (r :: rest))) x]> (arena t1)) t1).
      destruct (IH (length (arena t)) (int_wrap (i + 1)) t2)
        as (t' & Hrun & Hk' & Hroot & Hsize & Hlen).
      { cbn [arena t2 set_arena]. apply set_mask_kids_alloc; [|done].
        cbn. by apply add_kid_kids_alloc. }
      { cbn [arena t2 set_arena]. apply lookup_lt_is_Some.
        rewrite length_insert. eapply lookup_lt_Some; eauto. }
      exists t'. split_and!; try done.
      * mrun. rewrite Hc. mrun. fold x t1. mrun. exact Hrun.
      * cbn in Hlen. rewrite length_insert, add_kid_length in Hlen. lia.
Qed.

Lemma Add_closed k t :
  closed t ->
  exists t', Add k t = Done (depth_after 0 k) t' /\ closed t' /\
    size t' = int_wrap (size t + 1).
Proof.
  intros [(rt & Hr & Hal) Hk].
  set (t0 := set_size (int_wrap (size t + 1)) t).
  destruct (addrune_closed k rt 0 t0) as (t' & Hrun & Hk' & Hroot & Hsize & Hlen);
    try done.
  exists t'. split_and!; try done.
  - unfold Add, bind, Root. fold t0. cbn [root t0 set_size]. rewrite Hr. exact Hrun.
  - split; [|done]. exists rt. split; [by rewrite Hroot|].
    apply lookup_lt_is_Some. apply lookup_lt_is_Some in Hal. cbn in Hlen. lia.
Qed.

(** ** Masks cover the subtree *)

Lemma submask_maskrune_elem r (rs : list Z) :
  r ∈ rs -> submask (maskrune r) (maskruneslice rs).
Proof.
  induction 1; rewrite maskruneslice_cons.
  - apply submask_lor_l, submask_refl.
  - by apply submask_lor_r.
Qed.

Lemma submask_maskruneslice (p q : list Z) :
  (forall r, r ∈ p -> r ∈ q) -> submask (maskruneslice p) (maskruneslice q).
Proof.
  induction p as [|r p IH]; intros H.
  - apply submask_0.
  - rewrite maskruneslice_cons. apply submask_lor.
    + apply submask_maskrune_elem, H. left.
    + apply IH. intros r' Hr'. apply H. by right.
Qed.

(** The mask of a child holds its own rune and every rune below it. *)
Lemma mask_covers h rt s : forall l r c e,
  shape h rt -> masks_ok h rt (fun _ => False) ->
  kid h l r = Some c -> walk h c s = Some e ->
  submask (maskruneslice (r :: s)) (node_mask h c).
Proof.
  induction s as [|r' s IH]; intros l r c e Hs Hm Hk Hw.
  - destruct (kid_node Hs _ _ _ Hk) as (nc & Hnc & _ & Hv & _).
    pose proof (Hm c nc Hnc (kid_not_root _ _ _ _ _ Hs Hk) ltac:(tauto)) as Hok.
    unfold node_mask. rewrite Hnc. cbn [from_option]. rewrite Hok, Hv.
    rewrite maskruneslice_cons, maskruneslice_nil, Z.lor_0_r.
    apply submask_lor_l, submask_refl.
  - cbn in Hw. destruct (kid h c r') as [c'|] eqn:Hk'; cbn in Hw; [|done].
    pose proof (IH c r' c' e Hs Hm Hk' Hw) as Hsub.
    destruct (kid_node Hs _ _ _ Hk) as (nc & Hnc & _ & Hv & _).
    pose proof (Hm c nc Hnc (kid_not_root _ _ _ _ _ Hs Hk) ltac:(tauto)) as Hok.
    assert (children nc !! r' = Some c') as Hc'.
    { unfold kid in Hk'. by rewrite Hnc in Hk'. }
    unfold node_mask at 1. rewrite Hnc. cbn [from_option]. rewrite Hok, Hv.
    rewrite maskruneslice_cons. apply submask_lor.
    + apply submask_lor_l, submask_refl.
    + apply submask_lor_r.
      eapply submask_trans; [|apply (kids_mask_entry h _ r' c' Hc')].
      unfold entry_mask. cbn. by apply submask_lor_r.
Qed.

(** ** The order of the keys *)

Lemma key_leb_refl a : key_leb a a = true.
Proof.
  induction a as [|x a IH]; cbn; [done|].
  rewrite Z.ltb_irrefl, Z.eqb_refl, IH. done.
Qed.

Global Instance key_le_total : Total key_le.
Proof.
  intros a. unfold key_le. induction a as [|x a IH]; intros [|y b]; cbn; auto.
  destruct (IH b) as [H|H]; rewrite H;
    destruct (Z.ltb_spec x y), (Z.ltb_spec y x), (Z.eqb_spec x y), (Z.eqb_spec y x);
    cbn; auto; lia.
Qed.

Global Instance key_le_trans : Transitive key_le.
Proof.
  intros a. unfold key_le. induction a as [|x a IH]; intros [|y b] [|z c]; cbn;
    try done.
  intros H1 H2.
  destruct (Z.ltb_spec x y), (Z.ltb_spec y z), (Z.ltb_spec x z),
    (Z.eqb_spec x y), (Z.eqb_spec y z), (Z.eqb_spec x z);
    cbn in *; try done; try lia.
  eauto.
Qed.

Lemma sort_Strings_sorted ks : StronglySorted key_le (sort_Strings ks).
Proof. apply StronglySorted_merge_sort; apply _. Qed.

Lemma sort_Strings_perm ks : sort_Strings ks ≡ₚ ks.
Proof. apply merge_sort_Permutation. Qed.

(** ** Enumeration *)

Lemma for_range_append {A} (xs : list A) (body : A -> list (list Z) -> M (list (list Z)))
    (f : A -> list (list Z)) t :
  (forall x keys, x ∈ xs -> body x keys t = Done (keys ++ f x) t) ->
  forall keys, for_range xs body keys t = Done (keys ++ (x ← xs; f x)) t.
Proof.
  induction xs as [|x xs IH]; intros H keys; cbn.
  - by rewrite app_nil_r.
  - rewrite (bind_Done _ _ _ _ _ (H x keys ltac:(left))).
    rewrite IH by (intros; apply H; by right).
    by rewrite app_assoc.
Qed.

Lemma bind_perm_ext {A B} (f g : A -> list B) (xs ys : list A) :
  xs ≡ₚ ys -> (forall x, x ∈ xs -> f x ≡ₚ g x) ->
  (x ← xs; f x) ≡ₚ (x ← ys; g x).
Proof.
  intros Hp Hfg. rewrite <- Hp. clear ys Hp.
  induction xs as [|x xs IH]; cbn; [done|].
  rewrite (Hfg x ltac:(left)), IH; [done|]. intros; apply Hfg; by right.
Qed.

Section Enumerate.

Variable range_order : gmap rune loc -> list (rune * loc).
Hypothesis range_order_perm : forall m, range_order m ≡ₚ map_to_list m.

Lemma range_order_elem (cs : gmap Z nat) r c :
  (r, c) ∈ range_order cs <-> cs !! r = Some c.
Proof. by rewrite range_order_perm, elem_of_map_to_list. Qed.

Lemma collect_run gas : forall l pre keys t rt,
  shape (arena t) rt -> (l < length (arena t))%nat ->
  (length (arena t) - l <= gas)%nat ->
  collect range_order gas (Some l) pre keys t
  = Done (keys ++ collected range_order gas (arena t) l pre) t.
Proof.
  induction gas as [|gas IH]; intros l pre keys t rt Hs Hl Hgas; [lia|].
  destruct (lookup_lt_is_Some_2 _ _ Hl) as [n Hn].
  cbn [collect collected]. rewrite Hn. mrun.
  apply for_range_append. intros [r c] keys' Hrc. cbn [fst snd].
  apply range_order_elem in Hrc.
  assert (kid (arena t) l r = Some c) as Hk by (unfold kid; by rewrite Hn).
  pose proof (kid_lt Hs _ _ _ Hk) as Hlc.
  destruct (kid_node Hs _ _ _ Hk) as (nc & Hnc & _).
  rewrite Hnc. mrun.
  destruct (term nc); [done|].
  apply (IH c _ _ t rt); [done|lia|lia].
Qed.

Lemma collected_spec gas : forall h rt l pre k,
  shape h rt -> (l < length h)%nat -> (length h - l <= gas)%nat ->
  k ∈ collected range_order gas h l pre <->
  exists suf, k = pre ++ suf /\ stored_from h l suf.
Proof.
  induction gas as [|gas IH]; intros h rt l pre k Hs Hl Hgas; [lia|].
  destruct (lookup_lt_is_Some_2 _ _ Hl) as [n Hn].
  cbn [collected]. rewrite Hn. rewrite list_elem_of_bind. split.
  - intros ([r c] & Hk & Hrc). cbn [fst snd] in Hk.
    apply range_order_elem in Hrc.
    assert (kid h l r = Some c) as Hkid by (unfold kid; by rewrite Hn).
    pose proof (kid_lt Hs _ _ _ Hkid) as Hlc.
    destruct (kid_node Hs _ _ _ Hkid) as (nc & Hnc & _ & _ & Ht).
    rewrite Hnc in Hk. destruct (term nc).
    + apply list_elem_of_singleton in Hk as ->.
      symmetry in Ht. apply bool_decide_eq_true in Ht as ->.
      exists []. rewrite app_nil_r. split; [done|].
      apply stored_from_nil. eauto.
    + apply (IH h rt) in Hk as (suf & -> & Hst); [|done|lia|lia].
      exists (r :: suf). rewrite <- app_assoc. split; [done|].
      apply stored_from_cons. eauto.
  - intros (suf & -> & Hst).
    pose proof (stored_nul_free Hs _ _ Hst) as Hnf.
    destruct suf as [|r suf].
    + apply stored_from_nil in Hst as [s Hkid].
      destruct (kid_node Hs _ _ _ Hkid) as (ns & Hns & _ & _ & Ht).
      rewrite bool_decide_eq_true_2 in Ht by done.
      exists (nul, s). split.
      * cbn [fst snd]. rewrite Hns, Ht, app_nil_r. by left.
      * apply range_order_elem. unfold kid in Hkid. by rewrite Hn in Hkid.
    + apply stored_from_cons in Hst as (c & Hkid & Hst).
      apply Forall_cons in Hnf as [Hr _].
      pose proof (kid_lt Hs _ _ _ Hkid) as Hlc.
      destruct (kid_node Hs _ _ _ Hkid) as (nc & Hnc & _ & _ & Ht).
      rewrite bool_decide_eq_false_2 in Ht by done.
      exists (r, c). split.
      * cbn [fst snd]. rewrite Hnc, Ht.
        apply (IH h rt); [done|lia|lia|].
        exists suf. by rewrite <- app_assoc.
      * apply range_order_elem. unfold kid in Hkid. by rewrite Hn in Hkid.
Qed.

Lemma fuzzycollect_run gas : forall l pm partial keys t rt,
  shape (arena t) rt -> (l < length (arena t))%nat ->
  (length (arena t) - l <= gas)%nat ->
  fuzzycollect range_order gas (Some l) pm partial keys t
  = Done (keys ++ fuzzy_collected range_order gas (arena t) l pm partial) t.
Proof.
  induction gas as [|gas IH]; intros l pm partial keys t rt Hs Hl Hgas; [lia|].
  destruct partial as [|p0 pt].
  - cbn [fuzzycollect fuzzy_collected]. by apply (collect_run _ _ _ _ _ rt).
  - destruct (lookup_lt_is_Some_2 _ _ Hl) as [n Hn].
    cbn [fuzzycollect fuzzy_collected]. rewrite Hn. mrun. cbv zeta.
    apply for_range_append. intros [r c] keys' Hrc. cbn [fst snd].
    apply range_order_elem in Hrc.
    assert (kid (arena t) l r = Some c) as Hk by (unfold kid; by rewrite Hn).
    pose proof (kid_lt Hs _ _ _ Hk) as Hlc.
    destruct (kid_node Hs _ _ _ Hk) as (nc & Hnc & _).
    mrun. unfold node_mask. rewrite Hnc. cbn [from_option].
    destruct (negb _); [by rewrite app_nil_r|].
    apply (IH c _ _ _ t rt); [done|lia|lia].
Qed.

Lemma sublist_tail {A} (x : A) l k : x :: l `sublist_of` k -> l `sublist_of` k.
Proof.
  intros (k1 & k2 & -> & H)%sublist_cons_l.
  apply sublist_inserts_l. by constructor.
Qed.

Lemma sublist_elem {A} (l k : list A) x : l `sublist_of` k -> x ∈ l -> x ∈ k.
Proof.
  intros H. induction H as [|y l1 l2 H IH|y l1 l2 H IH]; intros Hx.
  - done.
  - apply elem_of_cons in Hx as [->|Hx]; [left|right; auto].
  - right. auto.
Qed.

Lemma fuzzy_collected_spec gas : forall h rt l pm partial k,
  shape h rt -> masks_ok h rt (fun _ => False) ->
  (l < length h)%nat -> (length h - l <= gas)%nat ->
  k ∈ fuzzy_collected range_order gas h l pm partial <->
  exists suf, k = pm ++ suf /\ stored_from h l suf /\ partial `sublist_of` suf.
Proof.
  induction gas as [|gas IH]; intros h rt l pm partial k Hs Hm Hl Hgas; [lia|].
  destruct partial as [|p0 pt].
  - cbn [fuzzy_collected]. rewrite (collected_spec _ h rt) by done.
    split.
    + intros (suf & ? & ?). exists suf. split_and!; [done..|apply sublist_nil_l].
    + intros (suf & ? & ? & _). eauto.
  - destruct (lookup_lt_is_Some_2 _ _ Hl) as [n Hn].
    cbn [fuzzy_collected]. rewrite Hn. rewrite list_elem_of_bind. split.
    + intros ([r c] & Hk & Hrc). cbn [fst snd] in Hk.
      apply range_order_elem in Hrc.
      assert (kid h l r = Some c) as Hkid by (unfold kid; by rewrite Hn).
      pose proof (kid_lt Hs _ _ _ Hkid) as Hlc.
      destruct (negb _); [by apply elem_of_nil in Hk|].
      apply (IH h rt) in Hk as (suf & -> & Hst & Hsub); [|done|done|lia|lia].
      exists (r :: suf). rewrite <- app_assoc. split_and!; [done| |].
      * apply stored_from_cons. eauto.
      * destruct (Z.eqb_spec r p0) as [->|]; by constructor.
    + intros (suf & -> & Hst & Hsub).
      destruct suf as [|r suf]; [by apply sublist_nil_r in Hsub|].
      pose proof Hst as Hst0.
      apply stored_from_cons in Hst as (c & Hkid & Hst).
      pose proof (kid_lt Hs _ _ _ Hkid) as Hlc.
      exists (r, c). split.
      2:{ apply range_order_elem. unfold kid in Hkid. by rewrite Hn in Hkid. }
      cbn [fst snd].
      assert (submask (maskruneslice (p0 :: pt)) (node_mask h c)) as Hcov.
      { destruct Hst as (e & s & Hw & _).
        eapply submask_trans; [|by eapply (mask_covers h rt suf l r c e)].
        apply submask_maskruneslice. intros x. by apply sublist_elem. }
      apply prune_test in Hcov. rewrite Hcov. cbn [negb Z.eqb].
      apply (IH h rt); [done|done|lia|lia|].
      exists suf. rewrite <- app_assoc. split_and!; [done..|].
      apply sublist_cons_r in Hsub as [Hsub|(l' & [= -> ->] & Hsub)].
      * destruct (Z.eqb_spec r p0); [by apply sublist_tail in Hsub|done].
      * by rewrite Z.eqb_refl.
Qed.

End Enumerate.

(** The order of visit does not change what is enumerated. *)
Lemma collected_perm (o1 o2 : gmap Z nat -> list (Z * nat)) gas :
  (forall m, o1 m ≡ₚ map_to_list m) -> (forall m, o2 m ≡ₚ map_to_list m) ->
  forall h l pre, collected o1 gas h l pre ≡ₚ collected o2 gas h l pre.
Proof.
  intros H1 H2. induction gas as [|gas IH]; intros h l pre; cbn; [done|].
  destruct (h !! l) as [n|]; [|done].
  apply bind_perm_ext; [by rewrite H1, H2|].
  intros [r c] _. cbn. destruct (h !! c) as [x|]; [|done].
  destruct (term x); [done|apply IH].
Qed.

(** ** Removal *)

Lemma ancestor_step h rt (rs : list Z) d x nx :
  shape h rt -> walk h rt (take d rs) = Some x -> h !! x = Some nx ->
  (d <= length rs)%nat ->
  match d with
  | O => parent nx = None
  | S d' => exists y, parent nx = Some y /\ walk h rt (take d' rs) = Some y
  end.
Proof.
  intros Hs Hw Hx Hd. destruct d as [|d'].
  - cbn in Hw. injection Hw as <-.
    destruct (sh_root _ _ Hs) as (n & Hn & Hp & _). congruence.
  - destruct (lookup_lt_is_Some_2 rs d' ltac:(lia)) as [r Hr].
    rewrite (take_S_r _ _ _ Hr) in Hw.
    destruct (walk_parent Hs _ _ _ _ _ Hw Hx) as (y & Hy & Hp & _). eauto.
Qed.

Section Removal.

Variable range_order : gmap rune loc -> list (rune * loc).
Hypothesis range_order_perm : forall m, range_order m ≡ₚ map_to_list m.

Lemma index_run (rs : list Z) (d : nat) r t :
  rs !! d = Some r -> int_len rs ->
  index rs (int_wrap (Z.of_nat (length rs) - int_wrap (Z.of_nat (length rs - d - 1) + 1))) t
  = Done r t.
Proof.
  intros Hr Hlen. pose proof (lookup_lt_Some _ _ _ Hr) as Hd.
  unfold int_len, max_int in Hlen.
  rewrite (int_wrap_id (_ + 1)) by (unfold min_int, max_int; lia).
  rewrite int_wrap_id by (unfold min_int, max_int; lia).
  replace (Z.of_nat (length rs) - (Z.of_nat (length rs - d - 1) + 1)) with (Z.of_nat d)
    by lia.
  unfold index.
  destruct (Z.ltb_spec (Z.of_nat d) 0); [lia|].
  destruct (Z.leb_spec (Z.of_nat (length rs)) (Z.of_nat d)); [lia|].
  cbn [orb]. rewrite Nat2Z.id, Hr. done.
Qed.

(** The walk of [Remove] ends, and keeps the invariants, whatever the key. *)
Lemma remove_walk_wf (rs : list Z) gas : forall p i t rt,
  shape (arena t) rt -> masks_ok (arena t) rt (fun _ => False) ->
  (forall x, p = Some x -> (x < gas)%nat /\ (x < length (arena t))%nat) ->
  (exists t', remove_walk range_order gas p rs i t = Done tt t' /\
     shape (arena t') rt /\ masks_ok (arena t') rt (fun _ => False) /\
     root t' = root t /\ size t' = size t) \/
  remove_walk range_order gas p rs i t = Panicked IndexOutOfRange t.
Proof.
  induction gas as [|gas IH]; intros p i t rt Hs Hm Hp.
  - destruct p as [x|]; [destruct (Hp x eq_refl); lia|]. left. exists t. done.
  - destruct p as [x|]; [|left; exists t; done].
    destruct (Hp x eq_refl) as [Hxg Hxl].
    destruct (lookup_lt_is_Some_2 _ _ Hxl) as [nx Hx].
    cbn [remove_walk]. cbv zeta.
    rewrite (bind_Done _ _ _ _ _ (Children_Some _ _ _ Hx)).
    destruct (bool_decide (1 < base.size (children nx))%nat).
    + unfold bind, index.
      destruct (_ || _); [by right|].
      destruct (rs !! _) as [r|]; [|by right]. cbn.
      rewrite (RemoveChild_run range_order range_order_perm t rt x r Hs) by eauto.
      destruct (remove_child_wf (arena t) rt x r Hs Hm) as (Hs' & Hm' & _); [eauto|].
      left. eexists. split; [done|]. done.
    + rewrite (bind_Done _ _ _ _ _ (Parent_Some _ _ _ Hx)).
      apply IH; [done..|].
      intros y Hy. pose proof (sh_up _ _ Hs x nx y Hx Hy). lia.
Qed.

(** With a key of [int] length whose path exists, the index is in range. *)
Lemma remove_walk_indexed (rs : list Z) gas : forall p t rt d t',
  shape (arena t) rt -> int_len rs ->
  (forall x, p = Some x ->
     (x < gas)%nat /\ (d < length rs)%nat /\
     walk (arena t) rt (take d rs) = Some x) ->
  remove_walk range_order gas p rs (Z.of_nat (length rs - d - 1)) t
  <> Panicked IndexOutOfRange t'.
Proof.
  induction gas as [|gas IH]; intros p t rt d t' Hs Hlen Hp.
  - destruct p as [x|]; [destruct (Hp x eq_refl); lia|]. done.
  - destruct p as [x|]; [|done].
    destruct (Hp x eq_refl) as (Hxg & Hd & Hw).
    pose proof (walk_alloc Hs rt (take d rs) x) as Hxl.
    destruct (sh_root _ _ Hs) as (nr & Hnr & _).
    specialize (Hxl ltac:(by eapply lookup_lt_Some) Hw).
    destruct (lookup_lt_is_Some_2 _ _ Hxl) as [nx Hx].
    cbn [remove_walk]. cbv zeta.
    rewrite (bind_Done _ _ _ _ _ (Children_Some _ _ _ Hx)).
    destruct (bool_decide (1 < base.size (children nx))%nat).
    + destruct (lookup_lt_is_Some_2 rs d Hd) as [r Hr].
      rewrite (bind_Done _ _ _ _ _ (index_run rs d r t Hr Hlen)).
      rewrite (RemoveChild_run range_order range_order_perm t rt x r Hs) by eauto.
      done.
    + rewrite (bind_Done _ _ _ _ _ (Parent_Some _ _ _ Hx)).
      pose proof (ancestor_step _ _ rs d x nx Hs Hw Hx ltac:(lia)) as Hanc.
      destruct d as [|d'].
      * rewrite Hanc. by destruct gas.
      * destruct Hanc as (y & Hy & Hwy). rewrite Hy.
        assert (int_wrap (Z.of_nat (length rs - S d' - 1) + 1)
                = Z.of_nat (length rs - d' - 1)) as ->.
        { unfold int_len, max_int in Hlen.
          rewrite int_wrap_id by (unfold min_int, max_int; lia). lia. }
        apply (IH _ _ rt); [done..|].
        intros y' [= <-]. pose proof (sh_up _ _ Hs x nx y Hx Hy).
        split_and!; [lia|lia|done].
Qed.

(** While every node met has a single child, nothing is detached. *)
Lemma remove_walk_single (rs : list Z) gas : forall p i t rt d,
  shape (arena t) rt ->
  (forall j y ny, (j < length rs)%nat -> walk (arena t) rt (take j rs) = Some y ->
     arena t !! y = Some ny -> base.size (children ny) = 1%nat) ->
  (forall x, p = Some x ->
     (x < gas)%nat /\ (d < length rs)%nat /\
     walk (arena t) rt (take d rs) = Some x) ->
  remove_walk range_order gas p rs i t = Done tt t.
Proof.
  induction gas as [|gas IH]; intros p i t rt d Hs Hone Hp.
  - destruct p as [x|]; [destruct (Hp x eq_refl); lia|]. done.
  - destruct p as [x|]; [|done].
    destruct (Hp x eq_refl) as (Hxg & Hd & Hw).
    pose proof (walk_alloc Hs rt (take d rs) x) as Hxl.
    destruct (sh_root _ _ Hs) as (nr & Hnr & _).
    specialize (Hxl ltac:(by eapply lookup_lt_Some) Hw).
    destruct (lookup_lt_is_Some_2 _ _ Hxl) as [nx Hx].
    cbn [remove_walk]. cbv zeta.
    rewrite (bind_Done _ _ _ _ _ (Children_Some _ _ _ Hx)).
    rewrite (Hone d x nx Hd Hw Hx).
    rewrite bool_decide_eq_false_2 by lia.
    rewrite (bind_Done _ _ _ _ _ (Parent_Some _ _ _ Hx)).
    pose proof (ancestor_step _ _ rs d x nx Hs Hw Hx ltac:(lia)) as Hanc.
    destruct d as [|d'].
    + rewrite Hanc. by destruct gas.
    + destruct Hanc as (y & Hy & Hwy). rewrite Hy.
      apply (IH _ _ _ rt d'); [done..|].
      intros y' [= <-]. pose proof (sh_up _ _ Hs x nx y Hx Hy).
      split_and!; [lia|lia|done].
Qed.

Lemma Remove_unfold k t rt :
  wf t -> root t = Some rt ->
  Remove range_order k t =
  let t0 := set_size (int_wrap (size t - 1)) t in
  match walk (arena t) rt k with
  | None => Panicked NilDereference t0
  | Some x =>
      remove_walk range_order (length (arena t))
        (n ← arena t !! x; parent n) k 0 t0
  end.
Proof.
  intros Hwf Hr. pose proof (wf_closed _ Hwf) as Hc.
  destruct Hwf as (rt' & Hr' & Hs & Hm).
  assert (rt' = rt) as -> by congruence.
  unfold Remove.
  rewrite (bind_Done _ _ _ _ _ (nodeAtPath_walk t rt k Hc Hr)).
  unfold bind at 1. cbv zeta.
  destruct (walk (arena t) rt k) as [x|] eqn:Hw.
  - destruct (sh_root _ _ Hs) as (nr & Hnr & _).
    pose proof (walk_alloc Hs rt _ x ltac:(by eapply lookup_lt_Some) Hw) as Hxl.
    destruct (lookup_lt_is_Some_2 _ _ Hxl) as [nx Hx].
    set (t0 := set_size _ t).
    assert (arena t0 !! x = Some nx) as Hx0 by done.
    mrun. unfold bind, fuel. cbn [arena t0 set_size]. by rewrite Hx.
  - done.
Qed.

(** [Remove] keeps the invariants in every case, also when it panics. *)
Lemma Remove_wf k t :
  wf t ->
  (exists t', Remove range_order k t = Done tt t' /\ wf t' /\
     size t' = int_wrap (size t - 1) /\ root t' = root t) \/
  (exists e, Remove range_order k t
     = Panicked e (set_size (int_wrap (size t - 1)) t)).
Proof.
  intros Hwf. pose proof Hwf as (rt & Hr & Hs & Hm).
  rewrite (Remove_unfold k t rt Hwf Hr). cbv zeta.
  destruct (walk (arena t) rt k) as [x|] eqn:Hw; [|right; eauto].
  destruct (sh_root _ _ Hs) as (nr & Hnr & _).
  pose proof (walk_alloc Hs rt _ x ltac:(by eapply lookup_lt_Some) Hw) as Hxl.
  destruct (lookup_lt_is_Some_2 _ _ Hxl) as [nx Hx]. rewrite Hx. cbn.
  set (t0 := set_size _ t).
  destruct (remove_walk_wf k (length (arena t)) (parent nx) 0 t0 rt)
    as [(t' & Hrun & Hs' & Hm' & Hr'' & Hsz)|Hpanic]; try done.
  - intros y Hy. pose proof (sh_up _ _ Hs x nx y Hx Hy). cbn. lia.
  - left. exists t'. split_and!; try done. exists rt. split_and!; try done.
    by rewrite Hr''.
  - right. eauto.
Qed.

Lemma built_wf t : built range_order t -> wf t.
Proof.
  induction 1 as [|t k d t' Hb IH Hnf Hadd|t k t' Hb IH Hrm|t k e t' Hb IH Hrm].
  - exists 0%nat. split_and!; [done| |].
    + split.
      * eexists. split; [done|]. done.
      * intros [|l] n r c Hl Hc; [|done]. injection Hl as <-.
        cbn in Hc. by rewrite lookup_empty in Hc.
      * intros [|l] n Hl Ht; [|done]. by injection Hl as <-.
      * intros [|l] n p Hl Hp; [|done]. by injection Hl as <-.
    + intros [|l] n Hl Hne _; [done|done].
  - destruct (Add_spec k t IH Hnf) as (t'' & Hrun & Hwf & _). congruence.
  - destruct (Remove_wf k t IH) as [(t'' & Hrun & Hwf & _)|(e & Hrun)]; congruence.
  - destruct (Remove_wf k t IH) as [(t'' & Hrun & Hwf & _)|(e' & Hrun)]; [congruence|].
    rewrite Hrun in Hrm. injection Hrm as <- <-.
    destruct IH as (rt & ? & ? & ?). exists rt. done.
Qed.

End Removal.

(** [Remove] does not depend on the order of visit. *)
Lemma remove_walk_order (o1 o2 : gmap Z nat -> list (Z * nat)) (rs : list Z) gas :
  (forall m, o1 m ≡ₚ map_to_list m) -> (forall m, o2 m ≡ₚ map_to_list m) ->
  forall p i t rt, shape (arena t) rt ->
  remove_walk o1 gas p rs i t = remove_walk o2 gas p rs i t.
Proof.
  intros H1 H2. induction gas as [|gas IH]; intros p i t rt Hs; [done|].
  destruct p as [x|]; [|done]. cbn [remove_walk]. cbv zeta.
  destruct (arena t !! x) as [nx|] eqn:Hx.
  - rewrite !(bind_Done _ _ _ _ _ (Children_Some _ _ _ Hx)).
    destruct (bool_decide _).
    + unfold bind. destruct (index rs _ t) as [r t1|e t1|] eqn:Hi; [|done..].
      assert (t1 = t) as ->.
      { unfold index in Hi. destruct (_ || _); [done|].
        destruct (rs !! _); [|done]. by injection Hi. }
      rewrite (RemoveChild_run o1 H1 t rt x r Hs) by eauto.
      rewrite (RemoveChild_run o2 H2 t rt x r Hs) by eauto. done.
    + rewrite !(bind_Done _ _ _ _ _ (Parent_Some _ _ _ Hx)). by apply (IH _ _ _ rt).
  - unfold bind, Children, load, bind. by rewrite Hx.
Qed.

Lemma Remove_order (o1 o2 : gmap Z nat -> list (Z * nat)) k t :
  (forall m, o1 m ≡ₚ map_to_list m) -> (forall m, o2 m ≡ₚ map_to_list m) ->
  wf t -> Remove o1 k t = Remove o2 k t.
Proof.
  intros H1 H2 Hwf. pose proof Hwf as (rt & Hr & Hs & Hm).
  rewrite !(Remove_unfold _ k t rt Hwf Hr). cbv zeta.
  destruct (walk (arena t) rt k); [|done].
  by apply (remove_walk_order o1 o2 k _ H1 H2 _ _ _ rt).
Qed.

(** ** The searches *)

Section Search.

Variable range_order : gmap rune loc -> list (rune * loc).
Hypothesis range_order_perm : forall m, range_order m ≡ₚ map_to_list m.

Lemma PrefixSearch_run pre t rt :
  wf t -> root t = Some rt ->
  PrefixSearch range_order pre t =
  Done (match walk (arena t) rt pre with
        | Some l => collected range_order (length (arena t)) (arena t) l pre
        | None => []
        end) t.
Proof.
  intros Hwf Hr. pose proof (wf_closed _ Hwf) as Hc.
  destruct Hwf as (rt' & Hr' & Hs & Hm).
  assert (rt' = rt) as -> by congruence.
  unfold PrefixSearch.
  rewrite (bind_Done _ _ _ _ _ (nodeAtPath_walk t rt pre Hc Hr)).
  destruct (walk (arena t) rt pre) as [l|] eqn:Hw; [|done].
  destruct (sh_root _ _ Hs) as (nr & Hnr & _).
  pose proof (walk_alloc Hs rt _ l ltac:(by eapply lookup_lt_Some) Hw) as Hl.
  unfold bind, fuel.
  rewrite (collect_run range_order range_order_perm _ l pre [] t rt); [done..|lia].
Qed.

Lemma Keys_run t rt :
  wf t -> root t = Some rt ->
  Keys range_order t
  = Done (collected range_order (length (arena t)) (arena t) rt []) t.
Proof. intros Hwf Hr. unfold Keys. by rewrite (PrefixSearch_run [] t rt). Qed.

Lemma Keys_spec t rt :
  wf t -> root t = Some rt ->
  exists res, Keys range_order t = Done res t /\
    forall k, k ∈ res <-> stored_from (arena t) rt k.
Proof.
  intros Hwf Hr. eexists. split; [by apply Keys_run|].
  destruct Hwf as (rt' & Hr' & Hs & Hm).
  assert (rt' = rt) as -> by congruence.
  destruct (sh_root _ _ Hs) as (nr & Hnr & _).
  apply lookup_lt_Some in Hnr.
  intros k. rewrite (collected_spec range_order range_order_perm _ _ rt); [|done|done|lia].
  split.
  - by intros (suf & -> & ?).
  - intros ?. by exists k.
Qed.

Lemma PrefixSearch_spec pre t rt :
  wf t -> root t = Some rt ->
  exists res, PrefixSearch range_order pre t = Done res t /\
    forall k, k ∈ res <-> stored_from (arena t) rt k /\ pre `prefix_of` k.
Proof.
  intros Hwf Hr. eexists. split; [by apply PrefixSearch_run|].
  destruct Hwf as (rt' & Hr' & Hs & Hm).
  assert (rt' = rt) as -> by congruence.
  destruct (sh_root _ _ Hs) as (nr & Hnr & _).
  apply lookup_lt_Some in Hnr.
  intros k. destruct (walk (arena t) rt pre) as [l|] eqn:Hw.
  - pose proof (walk_alloc Hs rt _ l Hnr Hw) as Hl.
    rewrite (collected_spec range_order range_order_perm _ _ rt); [|done|done|lia].
    unfold stored_from. split.
    + intros (suf & -> & e & s & Hws & Hk). split; [|by exists suf].
      exists e, s. rewrite walk_app, Hw. done.
    + intros [(e & s & Hwk & Hk) [suf ->]]. exists suf. split; [done|].
      rewrite walk_app, Hw in Hwk. eauto.
  - split; [by intros ?%elem_of_nil|].
    intros [(e & s & Hwk & Hk) [suf ->]].
    rewrite walk_app, Hw in Hwk. done.
Qed.

Lemma FuzzySearch_run p t rt :
  wf t -> root t = Some rt ->
  FuzzySearch range_order p t =
  Done (sort_Strings
          (fuzzy_collected range_order (length (arena t)) (arena t) rt [] p)) t.
Proof.
  intros (rt' & Hr' & Hs & Hm) Hr.
  assert (rt' = rt) as -> by congruence.
  destruct (sh_root _ _ Hs) as (nr & Hnr & _).
  apply lookup_lt_Some in Hnr.
  unfold FuzzySearch, bind, Root, fuel. rewrite Hr.
  rewrite (fuzzycollect_run range_order range_order_perm _ rt [] p [] t rt);
    [done..|lia].
Qed.

(** The mask invariant in the words of the specification and in those of
    [recalculateMask] say the same of a node of the store. *)
Lemma mask_equation_ok h rt l n :
  shape h rt -> h !! l = Some n -> mask_equation h n <-> mask_ok h n.
Proof.
  intros Hs Hl. unfold mask_equation, mask_ok, kids_mask.
  assert (child_bits h <$> (snd <$> map_to_list (children n))
          = entry_mask h <$> map_to_list (children n)) as ->; [|done].
  rewrite <- list_fmap_compose. apply list_fmap_ext.
  intros i [k c] Hi. cbn [compose fst snd].
  apply list_elem_of_lookup_2, elem_of_map_to_list in Hi.
  destruct (sh_kid _ _ Hs l n k c Hl Hi) as (nc & Hnc & _ & Hv & _).
  unfold child_bits, entry_mask, node_mask. cbn [fst snd].
  rewrite Hnc. cbn [from_option]. by rewrite Hv.
Qed.

Lemma wf_mask_invariant_below t : wf t -> mask_invariant_below t.
Proof.
  intros (rt & Hr & Hs & Hm) rt' p l n Hr' Hp Hw Hl.
  assert (rt' = rt) as -> by congruence.
  apply (mask_equation_ok _ rt l n Hs Hl).
  apply (Hm l n Hl); [|tauto].
  intros ->. apply (walk_lt Hs) in Hw; [lia|done].
Qed.

Lemma add_all_spec ks : forall t rt,
  wf t -> root t = Some rt -> Forall nul_free ks ->
  exists t', add_all ks t = Done tt t' /\ wf t' /\ root t' = root t /\
    forall k, stored_from (arena t') rt k <-> k ∈ ks \/ stored_from (arena t) rt k.
Proof.
  induction ks as [|k0 ks IH]; intros t rt Hwf Hr Hnf.
  - exists t. split_and!; try done. intros k. rewrite elem_of_nil. tauto.
  - apply Forall_cons in Hnf as [Hk0 Hnf].
    destruct (Add_spec k0 t Hwf Hk0) as (t1 & Hrun & Hwf1 & _ & Hr1 & _ & Hst1).
    destruct (IH t1 rt Hwf1 ltac:(congruence) Hnf) as (t' & Hrun' & Hwf' & Hr' & Hst').
    exists t'. split_and!; try done.
    + cbn [add_all]. by rewrite (bind_Done _ _ _ _ _ Hrun).
    + congruence.
    + intros k. rewrite Hst', (Hst1 rt Hr), elem_of_cons. tauto.
Qed.

Lemma int_wrap_range z : min_int <= int_wrap z <= max_int.
Proof.
  unfold int_wrap, min_int, max_int.
  pose proof (Z.mod_pos_bound (z + 2 ^ 63) (2 ^ 64) ltac:(lia)). lia.
Qed.

Lemma built_size t : built range_order t -> min_int <= size t <= max_int.
Proof.
  induction 1 as [|t k d t' Hb IH Hnf Hadd|t k t' Hb IH Hrm|t k e t' Hb IH Hrm].
  - cbn. unfold min_int, max_int. lia.
  - destruct (Add_spec k t (built_wf _ range_order_perm _ Hb) Hnf)
      as (t'' & Hrun & _ & Hsz & _).
    assert (t'' = t') as -> by congruence. rewrite Hsz. apply int_wrap_range.
  - destruct (Remove_wf _ range_order_perm k t (built_wf _ range_order_perm _ Hb))
      as [(t'' & Hrun & _ & Hsz & _)|(e & Hrun)]; [|congruence].
    assert (t'' = t') as -> by congruence. rewrite Hsz. apply int_wrap_range.
  - destruct (Remove_wf _ range_order_perm k t (built_wf _ range_order_perm _ Hb))
      as [(t'' & Hrun & _)|(e' & Hrun)]; [congruence|].
    rewrite Hrun in Hrm. injection Hrm as <- <-. cbn. apply int_wrap_range.
Qed.

End Search.

(** ** Adding a key that is there *)

(** When the key is stored already, [addrune] changes no mask and only puts
    a fresh terminal child in the place of the old one. *)
Lemma addrune_present runes : forall l i t rt e ne s0,
  shape (arena t) rt -> masks_ok (arena t) rt (fun _ => False) ->
  is_Some (arena t !! l) ->
  walk (arena t) l runes = Some e -> arena t !! e = Some ne ->
  kid (arena t) e nul = Some s0 ->
  addrune (Some l) runes i t
  = Done (depth_after i runes)
      (set_arena (add_kid (arena t) e ne nul (mkNode nul true 0 (Some e) ∅)) t).
Proof.
  induction runes as [|r rest IH]; intros l i t rt e ne s0 Hs Hm [n Hl] Hw He Hk.
  - cbn in Hw. injection Hw as <-. assert (ne = n) as -> by congruence.
    cbn [addrune]. mrun. done.
  - cbn in Hw. destruct (kid (arena t) l r) as [c|] eqn:Hkc; cbn in Hw; [|done].
    destruct (kid_node Hs _ _ _ Hkc) as (nc & Hnc & _).
    assert (children n !! r = Some c) as Hc.
    { unfold kid in Hkc. by rewrite Hl in Hkc. }
    cbn [addrune depth_after]. mrun. rewrite Hc. mrun. mrun.
    pose proof (mask_covers _ rt rest l r c e Hs Hm Hkc Hw) as Hcov.
    unfold submask, node_mask in Hcov. rewrite Hnc in Hcov.
    cbn [from_option] in Hcov.
    rewrite Hcov, set_mask_id, list_insert_id, set_arena_id by done.
    apply (IH c _ t rt e ne s0); eauto.
Qed.

Section Swap.

Context {h : list Node} {rt e s0 : loc} {ne : Node}.
Context (Hs : shape h rt) (Hm : masks_ok h rt (fun _ => False)).
Context (He : h !! e = Some ne) (Hk : kid h e nul = Some s0).

Let sent := mkNode nul true 0 (Some e) ∅.
Let h' := add_kid h e ne nul sent.

Lemma swap_kid l r :
  (l < length h)%nat ->
  kid h' l r = if decide (l = e /\ r = nul) then Some (length h) else kid h l r.
Proof.
  intros Hl. destruct (lookup_lt_is_Some_2 _ _ Hl) as [n Hn].
  unfold kid, h'. rewrite (add_kid_lookup _ _ _ _ _ _ He).
  destruct (decide (l = e)) as [->|Hle].
  - assert (n = ne) as -> by congruence. cbn. rewrite He. cbn.
    destruct (decide (r = nul)) as [->|Hr].
    + rewrite decide_True by done. by rewrite lookup_insert_eq.
    + rewrite decide_False by tauto. by rewrite lookup_insert_ne.
  - rewrite decide_False by lia. rewrite decide_False by tauto. done.
Qed.

Lemma swap_new_kid r : kid h' (length h) r = None.
Proof.
  unfold kid, h'. rewrite (add_kid_lookup _ _ _ _ _ _ He).
  pose proof (lookup_lt_Some _ _ _ He).
  rewrite decide_False by lia. rewrite decide_True by done. done.
Qed.

Lemma swap_old_kid r : kid h s0 r = None.
Proof.
  destruct (kid_node Hs _ _ _ Hk) as (ns & Hns & _ & _ & Ht).
  rewrite bool_decide_eq_true_2 in Ht by done.
  unfold kid. rewrite Hns. cbn.
  by rewrite (sh_term _ _ Hs s0 ns Hns Ht), lookup_empty.
Qed.

Lemma swap_walk p : forall l,
  (l < length h)%nat -> l <> s0 ->
  walk h' l p = (fun x => if decide (x = s0) then length h else x) <$> walk h l p.
Proof.
  induction p as [|r p IH]; intros l Hl Hne.
  - cbn. by rewrite decide_False.
  - cbn. rewrite swap_kid by done.
    destruct (decide (l = e /\ r = nul)) as [[-> ->]|Hnot].
    + rewrite Hk. cbn. destruct p as [|r' p]; cbn.
      * by rewrite decide_True.
      * by rewrite swap_new_kid, swap_old_kid.
    + destruct (kid h l r) as [c|] eqn:Hc; cbn; [|done].
      pose proof (kid_lt Hs _ _ _ Hc).
      apply IH; [lia|]. intros ->.
      destruct (kid_node Hs _ _ _ Hc) as (nc & Hnc & Hp & Hv & _).
      destruct (kid_node Hs _ _ _ Hk) as (ns & Hns & Hp' & Hv' & _).
      apply Hnot. split; congruence.
Qed.

Lemma swap_lookup_new : h' !! length h = Some sent.
Proof.
  unfold h'. rewrite (add_kid_lookup _ _ _ _ _ _ He).
  pose proof (lookup_lt_Some _ _ _ He).
  rewrite decide_False by lia. by rewrite decide_True.
Qed.

Lemma swap_old_node :
  exists ns, h !! s0 = Some ns /\ val ns = nul /\ term ns = true /\ mask ns = 0.
Proof.
  destruct (kid_node Hs _ _ _ Hk) as (ns & Hns & _ & Hv & Ht).
  rewrite bool_decide_eq_true_2 in Ht by done.
  exists ns. split_and!; try done.
  pose proof (sentinel_mask h rt _ e s0 Hs Hm Hk ltac:(tauto)) as H0.
  unfold node_mask in H0. by rewrite Hns in H0.
Qed.

Lemma swap_kids_mask x nx nx' :
  h !! x = Some nx -> h' !! x = Some nx' ->
  kids_mask h' (children nx') = kids_mask h (children nx).
Proof.
  intros Hx Hx'. pose proof (lookup_lt_Some _ _ _ He) as Hlt.
  assert (forall (cs : gmap Z nat),
    (forall k c, cs !! k = Some c -> (c < length h)%nat) ->
    kids_mask h' cs = kids_mask h cs) as Hext.
  { intros cs Hcs. apply kids_mask_ext. intros k c Hc.
    apply add_kid_node_mask; eauto. }
  destruct (add_kid_lookup_old h e ne nul sent x nx He Hx)
    as (ny & Hy & _ & _ & _ & _ & Hch).
  fold h' in Hy. assert (ny = nx') as -> by congruence. rewrite Hch.
  destruct (decide (x = e)) as [->|Hxe].
  - assert (nx = ne) as -> by congruence.
    rewrite <- (insert_delete_eq (children ne)).
    rewrite kids_mask_insert by apply lookup_delete_eq.
    assert (entry_mask h' (nul, length h) = 0) as ->.
    { unfold entry_mask, node_mask. cbn. by rewrite swap_lookup_new. }
    rewrite Z.lor_0_l, Hext.
    2:{ intros k c [_ Hc]%lookup_delete_Some.
        eapply (kid_lt Hs e k c). unfold kid. by rewrite He. }
    assert (children ne !! nul = Some s0) as Hs0.
    { unfold kid in Hk. by rewrite He in Hk. }
    rewrite (kids_mask_delete h (children ne) nul s0 Hs0).
    unfold entry_mask. cbn.
    by rewrite (sentinel_mask h rt _ e s0 Hs Hm Hk ltac:(tauto)).
  - apply Hext. intros k c Hc. eapply (kid_lt Hs x k c). unfold kid. by rewrite Hx.
Qed.

Lemma swap_mask_ok x nx :
  h !! x = Some nx -> mask_ok h nx ->
  exists nx', h' !! x = Some nx' /\ mask_ok h' nx'.
Proof.
  intros Hx Hok.
  destruct (add_kid_lookup_old h e ne nul sent x nx He Hx)
    as (nx' & Hx' & Hv & _ & Hmk & _ & _).
  fold h' in Hx'. exists nx'. split; [done|].
  unfold mask_ok in *. by rewrite Hmk, Hv, (swap_kids_mask x nx nx').
Qed.

End Swap.

(** * The claims *)

Lemma canonical_order_perm m : canonical_order m ≡ₚ map_to_list m.
Proof. done. Qed.

Section Claims.

Variable range_order : gmap rune loc -> list (rune * loc).
Hypothesis range_order_perm : forall m, range_order m ≡ₚ map_to_list m.

Lemma built_add_all ks : forall t t',
  built range_order t -> Forall nul_free ks -> add_all ks t = Done tt t' ->
  built range_order t'.
Proof.
  induction ks as [|k ks IH]; intros t t' Hb Hnf Hrun.
  - cbn in Hrun. unfold ret in Hrun. by injection Hrun as <-.
  - apply Forall_cons in Hnf as [Hk Hnf].
    destruct (Add_spec k t (built_wf _ range_order_perm _ Hb) Hk)
      as (t1 & Hadd & _).
    cbn [add_all] in Hrun. rewrite (bind_Done _ _ _ _ _ Hadd) in Hrun.
    eapply IH; [|done|exact Hrun]. eapply built_add; eauto.
Qed.

(** C1. For every trie built by the operations and every pattern [p]: the
    result of [FuzzySearch p] holds exactly the keys stored in the trie (the
    keys whose path from the root ends at a node with the terminal child,
    which are also the keys [Keys] returns) of which the runes of [p] are an
    ordered, not necessarily contiguous, subsequence, and it is sorted in
    ascending lexicographic order.  When the trie was made by adding the
    keys [ks] to a fresh trie, these are the keys of [ks] of which [p] is a
    subsequence. *)
Theorem fuzzy_search_subsequence t p :
  built range_order t ->
  (exists rt all res,
     root t = Some rt /\
     Keys range_order t = Done all t /\
     (forall k, k ∈ all <-> stored_from (arena t) rt k) /\
     FuzzySearch range_order p t = Done res t /\
     (forall k, k ∈ res <-> stored_from (arena t) rt k /\ p `sublist_of` k) /\
     StronglySorted key_le res) /\
  (forall ks, Forall nul_free ks -> add_all ks CreateTrie = Done tt t ->
     exists res, FuzzySearch range_order p t = Done res t /\
       (forall k, k ∈ res <-> k ∈ ks /\ p `sublist_of` k) /\
       StronglySorted key_le res).
Proof.
  intros Hb. pose proof (built_wf _ range_order_perm _ Hb) as Hwf.
  pose proof Hwf as (rt & Hr & Hs & Hm).
  destruct (Keys_spec _ range_order_perm t rt Hwf Hr) as (all & Hkeys & Hall).
  pose proof (FuzzySearch_run _ range_order_perm p t rt Hwf Hr) as Hrun.
  set (res := sort_Strings _) in Hrun.
  assert (forall k, k ∈ res <-> stored_from (arena t) rt k /\ p `sublist_of` k)
    as Hres.
  { intros k. unfold res. rewrite sort_Strings_perm.
    destruct (sh_root _ _ Hs) as (nr & Hnr & _). apply lookup_lt_Some in Hnr.
    rewrite (fuzzy_collected_spec _ range_order_perm _ _ rt); [|done|done|done|lia].
    split.
    - by intros (suf & -> & ? & ?).
    - intros [? ?]. by exists k. }
  split.
  - exists rt, all, res. split_and!; [done..|]. apply sort_Strings_sorted.
  - intros ks Hnf Hadd.
    pose proof (built_wf _ range_order_perm _ (built_create range_order)) as Hwf0.
    destruct (add_all_spec ks CreateTrie 0%nat Hwf0 eq_refl Hnf)
      as (t' & Hadd' & _ & Hr' & Hst).
    assert (t' = t) as -> by congruence.
    assert (rt = 0%nat) as -> by (cbn in Hr'; congruence).
    exists res. split_and!; [done| |apply sort_Strings_sorted].
    intros k. rewrite Hres, Hst. split; [|tauto].
    intros [[?|(e & s & Hw & Hk)] ?]; [done|]. exfalso.
    destruct k as [|r k]; cbn in Hw.
    + by injection Hw as <-.
    + done.
Qed.

(** C2, amended.  For every trie built by the operations, and again after
    every [Add] and every [Remove], the mask of every node other than the
    root is the bit of its character joined with, over its children, the
    bit of the child's character and the child's mask. *)
Theorem mask_invariant_below_root t :
  built range_order t ->
  mask_invariant_below t /\
  (forall k d t', nul_free k -> Add k t = Done d t' -> mask_invariant_below t') /\
  (forall k t', Remove range_order k t = Done tt t' -> mask_invariant_below t').
Proof.
  intros Hb. split_and!.
  - by apply wf_mask_invariant_below, (built_wf _ range_order_perm).
  - intros k d t' Hnf Hadd.
    apply wf_mask_invariant_below, (built_wf _ range_order_perm).
    eapply built_add; eauto.
  - intros k t' Hrm.
    apply wf_mask_invariant_below, (built_wf _ range_order_perm).
    eapply built_remove; eauto.
Qed.

(** C5. For every finite sequence of keys added to a fresh trie, [Keys]
    returns these keys and no others. *)
Theorem keys_after_adds ks :
  Forall nul_free ks ->
  exists t res,
    add_all ks CreateTrie = Done tt t /\
    Keys range_order t = Done res t /\
    forall k, k ∈ res <-> k ∈ ks.
Proof.
  intros Hnf.
  pose proof (built_wf _ range_order_perm _ (built_create range_order)) as Hwf0.
  destruct (add_all_spec ks CreateTrie 0%nat Hwf0 eq_refl Hnf)
    as (t & Hrun & Hwf & Hr & Hst).
  destruct (Keys_spec _ range_order_perm t 0%nat Hwf Hr) as (res & Hkeys & Hres).
  exists t, res. split_and!; [done..|].
  intros k. rewrite Hres, Hst. split; [|tauto].
  intros [?|(e & s & Hw & Hk)]; [done|]. exfalso.
  destruct k as [|r k]; cbn in Hw.
  - by injection Hw as <-.
  - done.
Qed.

(** C8. [Add(k)] adds one to [size] and returns the number of runes of
    [k], on every trie and for every key. *)
Theorem add_size_and_depth t k :
  closed t -> min_int <= size t < max_int -> int_len k ->
  exists t', Add k t = Done (Z.of_nat (length k)) t' /\ size t' = size t + 1.
Proof.
  intros Hc Hsz Hlen.
  destruct (Add_closed k t Hc) as (t' & Hrun & _ & Hsize).
  exists t'. split.
  - rewrite Hrun. f_equal. rewrite depth_after_ok; [lia|lia|].
    unfold int_len in Hlen. lia.
  - rewrite Hsize. apply int_wrap_id. unfold min_int, max_int in *. lia.
Qed.

Lemma nodeAtPath_Some t rt k o :
  wf t -> root t = Some rt -> nodeAtPath k t = Done o t ->
  walk (arena t) rt k = o.
Proof.
  intros Hwf Hr Hn. rewrite (nodeAtPath_walk t rt k (wf_closed _ Hwf) Hr) in Hn.
  by injection Hn.
Qed.

Lemma wf_set_size s t : wf t -> wf (set_size s t).
Proof. intros (rt & ? & ? & ?). by exists rt. Qed.

(** What the canonical order enumerates, any order enumerates. *)
Lemma Keys_any_order t res :
  wf t -> Keys canonical_order t = Done res t ->
  exists res', Keys range_order t = Done res' t /\ res' ≡ₚ res.
Proof.
  intros Hwf Hk. pose proof Hwf as (rt & Hr & _).
  rewrite (Keys_run _ canonical_order_perm t rt Hwf Hr) in Hk.
  injection Hk as <-. eexists. split.
  - by apply (Keys_run _ range_order_perm t rt).
  - by apply collected_perm.
Qed.

Lemma PrefixSearch_any_order pre t res :
  wf t -> PrefixSearch canonical_order pre t = Done res t ->
  exists res', PrefixSearch range_order pre t = Done res' t /\ res' ≡ₚ res.
Proof.
  intros Hwf Hk. pose proof Hwf as (rt & Hr & _).
  rewrite (PrefixSearch_run _ canonical_order_perm pre t rt Hwf Hr) in Hk.
  injection Hk as <-. eexists. split.
  - by apply (PrefixSearch_run _ range_order_perm pre t rt).
  - destruct (walk (arena t) rt pre); [|done]. by apply collected_perm.
Qed.

Lemma Remove_any_order k t o :
  wf t -> Remove canonical_order k t = o -> Remove range_order k t = o.
Proof.
  intros Hwf <-. by apply Remove_order; [|apply canonical_order_perm|].
Qed.

(** C3. After "cat" and "car" are added to a fresh trie and "cat" is
    removed, [Keys] returns "car" and nothing else. *)
Theorem remove_cat_leaves_car :
  exists t1 t2 t3,
    Add (runes_of "cat") CreateTrie = Done 3 t1 /\
    Add (runes_of "car") t1 = Done 3 t2 /\
    Remove range_order (runes_of "cat") t2 = Done tt t3 /\
    Keys range_order t3 = Done [runes_of "car"] t3.
Proof.
  set (t1 := after (Add (runes_of "cat")) CreateTrie).
  set (t2 := after (Add (runes_of "car")) t1).
  set (t3 := after (Remove canonical_order (runes_of "cat")) t2).
  assert (Add (runes_of "cat") CreateTrie = Done 3 t1) as H1 by (vm_compute; reflexivity).
  assert (Add (runes_of "car") t1 = Done 3 t2) as H2 by (vm_compute; reflexivity).
  assert (Remove canonical_order (runes_of "cat") t2 = Done tt t3) as H3
    by (vm_compute; reflexivity).
  assert (Keys canonical_order t3 = Done [runes_of "car"] t3) as H4
    by (vm_compute; reflexivity).
  assert (built range_order t2) as Hb2.
  { eapply built_add; [eapply built_add; [apply built_create| |exact H1]| |exact H2];
      unfold nul_free; repeat constructor; done. }
  pose proof (built_wf _ range_order_perm _ Hb2) as Hwf2.
  pose proof (Remove_any_order _ _ _ Hwf2 H3) as H3'.
  pose proof (built_wf _ range_order_perm _ (built_remove _ _ _ _ Hb2 H3')) as Hwf3.
  destruct (Keys_any_order t3 _ Hwf3 H4) as (res & Hres & Hperm).
  apply Permutation_singleton_r in Hperm as ->.
  exists t1, t2, t3. exact (conj H1 (conj H2 (conj H3' Hres))).
Qed.

(** C4, at the code.  [Remove] of a key whose path is not in the trie
    dereferences the nil pointer that [nodeAtPath] returned, after it has
    taken one from [size]. *)
Theorem remove_absent_key_panics t k :
  built range_order t -> nodeAtPath k t = Done None t ->
  Remove range_order k t
  = Panicked NilDereference (set_size (int_wrap (size t - 1)) t).
Proof.
  intros Hb Hn. pose proof (built_wf _ range_order_perm _ Hb) as Hwf.
  pose proof Hwf as (rt & Hr & _).
  rewrite (Remove_unfold _ k t rt Hwf Hr). cbv zeta.
  by rewrite (nodeAtPath_Some t rt k None Hwf Hr Hn).
Qed.

(** C6. After "cat", "car", "cart" and "dog" are added to a fresh trie,
    [PrefixSearch("ca")] returns "cat", "car" and "cart", in some order, and
    [PrefixSearch("z")] returns the empty sequence. *)
Theorem prefix_search_ca_and_z :
  exists t res,
    add_all [runes_of "cat"; runes_of "car"; runes_of "cart"; runes_of "dog"]
      CreateTrie = Done tt t /\
    PrefixSearch range_order (runes_of "ca") t = Done res t /\
    res ≡ₚ [runes_of "cat"; runes_of "car"; runes_of "cart"] /\
    PrefixSearch range_order (runes_of "z") t = Done [] t.
Proof.
  set (ks := [runes_of "cat"; runes_of "car"; runes_of "cart"; runes_of "dog"]).
  set (t := after (add_all ks) CreateTrie).
  assert (add_all ks CreateTrie = Done tt t) as H1 by (vm_compute; reflexivity).
  assert (built range_order t) as Hb.
  { eapply built_add_all; [apply built_create| |exact H1].
    unfold nul_free; repeat constructor; done. }
  pose proof (built_wf _ range_order_perm _ Hb) as Hwf.
  assert (PrefixSearch canonical_order (runes_of "ca") t
          = Done [runes_of "cart"; runes_of "car"; runes_of "cat"] t) as H2
    by (vm_compute; reflexivity).
  assert (PrefixSearch canonical_order (runes_of "z") t = Done [] t) as H3
    by (vm_compute; reflexivity).
  destruct (PrefixSearch_any_order _ t _ Hwf H2) as (res & Hres & Hperm).
  destruct (PrefixSearch_any_order _ t _ Hwf H3) as (res0 & Hres0 & Hperm0).
  apply Permutation_nil_r in Hperm0 as ->.
  exists t, res. refine (conj H1 (conj Hres (conj _ Hres0))).
  rewrite Hperm. clear.
  apply (Permutation_rev [runes_of "cart"; runes_of "car"; runes_of "cat"]).
Qed.

(** C9. [Remove(k)] takes exactly one from [size] whenever the path of [k]
    is in the trie; it does so too when it detaches no node, as for "ca" in
    the trie of "cat", after which [size] is 0 with one key stored. *)
Theorem remove_decrements_size :
  (forall t k l,
     built range_order t -> int_len k -> min_int < size t ->
     nodeAtPath k t = Done (Some l) t ->
     exists t', Remove range_order k t = Done tt t' /\ size t' = size t - 1) /\
  (exists t t',
     built range_order t /\
     Keys range_order t = Done [runes_of "cat"] t /\ size t = 1 /\
     Remove range_order (runes_of "ca") t = Done tt t' /\
     arena t' = arena t /\
     Keys range_order t' = Done [runes_of "cat"] t' /\ size t' = 0).
Proof.
  split.
  - intros t k l Hb Hlen Hsz Hn.
    pose proof (built_wf _ range_order_perm _ Hb) as Hwf.
    pose proof (built_size _ range_order_perm _ Hb) as Hrange.
    pose proof Hwf as (rt & Hr & Hs & Hm).
    pose proof (nodeAtPath_Some t rt k _ Hwf Hr Hn) as Hw.
    rewrite (Remove_unfold _ k t rt Hwf Hr). cbv zeta.
    rewrite Hw.
    destruct (sh_root _ _ Hs) as (nr & Hnr & _).
    pose proof (walk_alloc Hs rt _ l ltac:(by eapply lookup_lt_Some) Hw) as Hl.
    destruct (lookup_lt_is_Some_2 _ _ Hl) as [nl Hnl]. rewrite Hnl. cbn.
    set (t0 := set_size _ t).
    assert (size t0 = size t - 1) as Hsz0.
    { cbn. apply int_wrap_id. unfold min_int, max_int in *. lia. }
    destruct (remove_walk_wf _ range_order_perm k (length (arena t)) (parent nl) 0 t0 rt)
      as [(t' & Hrun & _ & _ & _ & Hsz')|Hpanic]; try done.
    + intros y Hy. pose proof (sh_up _ _ Hs l nl y Hnl Hy). cbn. lia.
    + exists t'. split; [done|]. congruence.
    + exfalso. revert Hpanic.
      pose proof (ancestor_step (arena t) rt k (length k) l nl Hs) as Hanc.
      rewrite firstn_all in Hanc. specialize (Hanc Hw Hnl ltac:(lia)).
      destruct (length k) as [|d] eqn:Hd.
      * rewrite Hanc. by destruct (arena t).
      * destruct Hanc as (y & Hy & Hwy). rewrite Hy.
        replace 0 with (Z.of_nat (length k - d - 1)) by lia.
        apply (remove_walk_indexed _ range_order_perm k _ _ t0 rt d); [done..|].
        intros y' [= <-]. pose proof (sh_up _ _ Hs l nl y Hnl Hy).
        split_and!; [cbn; lia|lia|done].
  - set (t := after (Add (runes_of "cat")) CreateTrie).
    set (t' := after (Remove canonical_order (runes_of "ca")) t).
    assert (Add (runes_of "cat") CreateTrie = Done 3 t) as H1 by (vm_compute; reflexivity).
    assert (Keys canonical_order t = Done [runes_of "cat"] t) as H2
      by (vm_compute; reflexivity).
    assert (Remove canonical_order (runes_of "ca") t = Done tt t') as H3
      by (vm_compute; reflexivity).
    assert (Keys canonical_order t' = Done [runes_of "cat"] t') as H4
      by (vm_compute; reflexivity).
    assert (built range_order t) as Hb.
    { eapply built_add; [apply built_create| |exact H1].
      unfold nul_free; repeat constructor; done. }
    pose proof (built_wf _ range_order_perm _ Hb) as Hwf.
    pose proof (Remove_any_order _ _ _ Hwf H3) as H3'.
    pose proof (built_wf _ range_order_perm _ (built_remove _ _ _ _ Hb H3')) as Hwf'.
    destruct (Keys_any_order t _ Hwf H2) as (res & Hres & Hperm).
    apply Permutation_singleton_r in Hperm as ->.
    destruct (Keys_any_order t' _ Hwf' H4) as (res' & Hres' & Hperm').
    apply Permutation_singleton_r in Hperm' as ->.
    assert (size t = 1) as Hsz by (vm_compute; reflexivity).
    assert (arena t' = arena t) as Har by (vm_compute; reflexivity).
    assert (size t' = 0) as Hsz' by (vm_compute; reflexivity).
    exists t, t'.
    exact (conj Hb (conj Hres (conj Hsz (conj H3' (conj Har (conj Hres' Hsz')))))).
Qed.

(** C10. When a stored key [k] is a proper prefix of another stored key and
    every node strictly above the last node of [k] has exactly one child,
    [Remove(k)] detaches nothing: the store is as before and [Keys] still
    returns [k]. *)
Theorem remove_prefix_key_stays t k k' res :
  built range_order t -> Keys range_order t = Done res t ->
  k ∈ res -> k' ∈ res -> k `prefix_of` k' -> k <> k' ->
  (forall j, (j < length k)%nat ->
     exists y ny, nodeAtPath (take j k) t = Done (Some y) t /\
       arena t !! y = Some ny /\ base.size (children ny) = 1%nat) ->
  exists t', Remove range_order k t = Done tt t' /\
    arena t' = arena t /\ root t' = root t /\
    Keys range_order t' = Done res t' /\ k ∈ res.
Proof.
  intros Hb Hkeys Hk Hk' Hpre Hne Hone.
  pose proof (built_wf _ range_order_perm _ Hb) as Hwf.
  pose proof Hwf as (rt & Hr & Hs & Hm).
  destruct (Keys_spec _ range_order_perm t rt Hwf Hr) as (res0 & Hkeys0 & Hres).
  assert (res0 = res) as -> by congruence.
  apply Hres in Hk as Hst. destruct Hst as (l & s & Hw & Hks).
  set (t0 := set_size (int_wrap (size t - 1)) t).
  exists t0. split_and!; try done.
  - rewrite (Remove_unfold _ k t rt Hwf Hr). cbv zeta.
    rewrite Hw. fold t0.
    destruct (sh_root _ _ Hs) as (nr & Hnr & _).
    pose proof (walk_alloc Hs rt _ l ltac:(by eapply lookup_lt_Some) Hw) as Hl.
    destruct (lookup_lt_is_Some_2 _ _ Hl) as [nl Hnl]. rewrite Hnl. cbn.
    pose proof (ancestor_step (arena t) rt k (length k) l nl Hs) as Hanc.
    rewrite firstn_all in Hanc. specialize (Hanc Hw Hnl ltac:(lia)).
    destruct (length k) as [|d] eqn:Hd.
    + rewrite Hanc. by destruct (arena t).
    + destruct Hanc as (y & Hy & Hwy). rewrite Hy.
      apply (remove_walk_single _ k _ _ _ t0 rt d); [done| |].
      * intros j z nz Hj Hwz Hz. destruct (Hone j ltac:(lia)) as (z' & nz' & Hn & Hz' & Hsz).
        apply (nodeAtPath_Some t rt _ _ Hwf Hr) in Hn.
        cbn in Hwz, Hz. assert (z' = z) as -> by congruence.
        assert (nz' = nz) as -> by congruence. done.
      * intros y' [= <-]. pose proof (sh_up _ _ Hs l nl y Hnl Hy).
        split_and!; [cbn; lia|lia|done].
  - rewrite (Keys_run _ range_order_perm t0 rt (wf_set_size _ _ Hwf) Hr).
    rewrite (Keys_run _ range_order_perm t rt Hwf Hr) in Hkeys.
    injection Hkeys as <-. done.
Qed.

(** C7. For every trie and every key [k] that [Keys] returns, [Add(k)]
    leaves the root, every node reached by a path (its character, its
    terminal flag and its mask) and the set of keys as they were, keeps the
    mask equation, and adds one to [size]. *)
Theorem add_present_key_again t k res :
  built range_order t -> Keys range_order t = Done res t -> k ∈ res ->
  size t < max_int -> int_len k ->
  exists t' res',
    Add k t = Done (Z.of_nat (length k)) t' /\
    size t' = size t + 1 /\ root t' = root t /\
    (forall p, view t' p = view t p) /\
    Keys range_order t' = Done res' t' /\ (forall k', k' ∈ res' <-> k' ∈ res) /\
    mask_invariant_below t' /\ (mask_invariant t -> mask_invariant t').
Proof.
  intros Hb Hkeys Hk Hsz Hlen.
  pose proof (built_wf _ range_order_perm _ Hb) as Hwf.
  pose proof (built_size _ range_order_perm _ Hb) as Hrange.
  pose proof Hwf as (rt & Hr & Hs & Hm).
  destruct (Keys_spec _ range_order_perm t rt Hwf Hr) as (res0 & Hkeys0 & Hres).
  assert (res0 = res) as -> by congruence.
  pose proof (proj1 (Hres k) Hk) as Hst.
  pose proof (stored_nul_free Hs _ _ Hst) as Hnf.
  destruct Hst as (e & s0 & Hw & Hks).
  pose proof Hks as (ne & Hne & Hc0)%kid_Some.
  destruct (sh_root _ _ Hs) as (nr & Hnr & Hpr & Htr).
  set (sent := mkNode nul true 0 (Some e) ∅).
  set (h' := add_kid (arena t) e ne nul sent).
  set (t0 := set_size (int_wrap (size t + 1)) t).
  assert (Add k t = Done (depth_after 0 k) (set_arena h' t0)) as Hrun.
  { unfold Add, bind, Root. fold t0. cbn [root t0 set_size]. rewrite Hr.
    apply (addrune_present k rt 0 t0 rt e ne s0); by eauto. }
  destruct (Add_spec k t Hwf Hnf) as (t' & Hrun' & Hwf' & Hsz' & Hr' & _ & Hst').
  assert (t' = set_arena h' t0) as Ht' by congruence.
  assert (arena t' = h') as Ha' by (by rewrite Ht').
  destruct (Keys_spec _ range_order_perm t' rt Hwf' ltac:(congruence))
    as (res' & Hkeys' & Hres').
  pose proof (kid_lt Hs _ _ _ Hks) as Hs0lt.
  pose proof (lookup_lt_Some _ _ _ Hnr) as Hrtlt.
  assert (forall x nx, arena t !! x = Some nx -> x <> s0 ->
            exists nx', h' !! x = Some nx' /\ val nx' = val nx /\
              term nx' = term nx /\ mask nx' = mask nx) as Hold.
  { intros x nx Hx _.
    destruct (add_kid_lookup_old (arena t) e ne nul sent x nx Hne Hx)
      as (nx' & Hx' & ? & ? & ? & _). by exists nx'. }
  exists t', res'. split_and!.
  - rewrite Hrun'. f_equal. rewrite depth_after_ok; [lia|lia|].
    unfold int_len in Hlen. lia.
  - rewrite Hsz'. apply int_wrap_id. unfold min_int, max_int in *. lia.
  - done.
  - intros p. unfold view. rewrite Hr', Hr, Ha'. cbn [mbind option_bind].
    unfold h', sent.
    rewrite (swap_walk Hs Hne Hks p rt Hrtlt (not_eq_sym (kid_not_root _ _ _ _ _ Hs Hks))).
    destruct (walk (arena t) rt p) as [l|] eqn:Hwl; cbn [fmap option_fmap option_map mbind option_bind]; [|done].
    pose proof (walk_alloc Hs rt _ l Hrtlt Hwl) as Hl.
    destruct (lookup_lt_is_Some_2 _ _ Hl) as [nl Hnl]. rewrite Hnl.
    destruct (decide (l = s0)) as [->|Hne0].
    + rewrite (swap_lookup_new Hne).
      destruct (swap_old_node Hs Hm Hks) as (ns & Hns & Hv & Htm & Hmk).
      assert (ns = nl) as -> by congruence.
      cbn. by rewrite Hv, Htm, Hmk.
    + destruct (Hold l nl Hnl Hne0) as (nl' & Hnl' & Hv & Htm & Hmk).
      fold sent. fold h'. rewrite Hnl'. cbn. by rewrite Hv, Htm, Hmk.
  - done.
  - intros k'. rewrite Hres', Hres, (Hst' rt Hr). split; [|by right].
    intros [->|?]; [|done]. by exists e, s0.
  - by apply wf_mask_invariant_below.
  - intros Hinv rt' p l n Hrt' Hwl Hl.
    destruct (decide (p = [])) as [->|Hp].
    + assert (rt' = rt) as -> by congruence.
      cbn in Hwl. injection Hwl as <-.
      pose proof (Hinv rt [] rt nr Hr eq_refl Hnr) as Heq.
      apply (mask_equation_ok _ rt rt nr Hs Hnr) in Heq.
      destruct (swap_mask_ok Hs Hm Hne Hks rt nr Hnr Heq) as (nr' & Hnr' & Hok).
      fold sent in Hnr', Hok. fold h' in Hnr', Hok. rewrite Ha' in *.
      assert (nr' = n) as -> by congruence.
      destruct Hwf' as (rt2 & Hr2 & Hs2 & _).
      assert (rt2 = rt) as -> by congruence. rewrite Ha' in Hs2.
      by apply (mask_equation_ok _ rt rt n Hs2 Hl).
    + by apply (wf_mask_invariant_below t' Hwf' rt' p l n).
Qed.

End Claims.

(** C2, as the specification has it, fails at the root: [Add] joins the
    new bits into the masks of the nodes on the path below the root only, so
    after "a" is added to a fresh trie the root has a child and its mask is
    still empty. *)
Lemma root_mask_not_maintained :
  exists t', Add (runes_of "a") CreateTrie = Done 1 t' /\ ~ mask_invariant t'.
Proof.
  exists (after (Add (runes_of "a")) CreateTrie). split.
  - vm_compute. reflexivity.
  - intros H.
    specialize (H 0%nat [] 0%nat
      (mkNode 0 false 0 None (<[97 := 1%nat]> ∅)) eq_refl eq_refl).
    assert (mask_equation (after (Add (runes_of "a")) CreateTrie).(arena)
              (mkNode 0 false 0 None (<[97 := 1%nat]> ∅))) as Heq.
    { apply H. vm_compute. reflexivity. }
    unfold mask_equation in Heq. vm_compute in Heq. discriminate Heq.
Qed.

(** ** The claims at concrete tries *)

(** Tries built by adding keys to a fresh one, enumerated in the order of
    [map_to_list]. *)
Lemma built_canonical ks t :
  Forall nul_free ks -> add_all ks CreateTrie = Done tt t ->
  built canonical_order t.
Proof.
  intros Hnf Hrun.
  exact (built_add_all canonical_order canonical_order_perm ks CreateTrie t
           (built_create _) Hnf Hrun).
Qed.

Ltac keys_nul_free := unfold nul_free; repeat constructor; discriminate.
Ltac runs := vm_compute; reflexivity.

Lemma built_cat_car_cart_dog : built canonical_order cat_car_cart_dog.
Proof.
  apply (built_canonical
    [runes_of "cat"; runes_of "car"; runes_of "cart"; runes_of "dog"]);
    [keys_nul_free|runs].
Qed.

Lemma built_car_cart : built canonical_order car_cart.
Proof.
  apply (built_canonical [runes_of "car"; runes_of "cart"]); [keys_nul_free|runs].
Qed.

Lemma built_only_cat : built canonical_order only_cat.
Proof. apply (built_canonical [runes_of "cat"]); [keys_nul_free|runs]. Qed.

(** The pattern "ct" on the trie of "cat", "car", "cart" and "dog". *)
Lemma fuzzy_search_subsequence_witness :
  (exists rt all res,
     root cat_car_cart_dog = Some rt /\
     Keys canonical_order cat_car_cart_dog = Done all cat_car_cart_dog /\
     (forall k, k ∈ all <-> stored_from (arena cat_car_cart_dog) rt k) /\
     FuzzySearch canonical_order (runes_of "ct") cat_car_cart_dog
     = Done res cat_car_cart_dog /\
     (forall k, k ∈ res <->
        stored_from (arena cat_car_cart_dog) rt k /\
        runes_of "ct" `sublist_of` k) /\
     StronglySorted key_le res) /\
  (exists res,
     FuzzySearch canonical_order (runes_of "ct") cat_car_cart_dog
     = Done res cat_car_cart_dog /\
     (forall k, k ∈ res <->
        k ∈ [runes_of "cat"; runes_of "car"; runes_of "cart"; runes_of "dog"] /\
        runes_of "ct" `sublist_of` k) /\
     StronglySorted key_le res).
Proof.
  destruct (fuzzy_search_subsequence canonical_order canonical_order_perm
              cat_car_cart_dog (runes_of "ct") built_cat_car_cart_dog)
    as [Hstored Hadded].
  split; [exact Hstored|].
  apply (Hadded [runes_of "cat"; runes_of "car"; runes_of "cart"; runes_of "dog"]).
  - unfold nul_free. repeat constructor; discriminate.
  - vm_compute. reflexivity.
Defined.

(** The masks of the trie of "cat", "car", "cart" and "dog". *)
Lemma mask_invariant_below_root_witness :
  mask_invariant_below cat_car_cart_dog /\
  (forall k d t', nul_free k -> Add k cat_car_cart_dog = Done d t' ->
     mask_invariant_below t') /\
  (forall k t', Remove canonical_order k cat_car_cart_dog = Done tt t' ->
     mask_invariant_below t').
Proof.
  apply (mask_invariant_below_root canonical_order canonical_order_perm
           cat_car_cart_dog).
  exact built_cat_car_cart_dog.
Defined.

(** "cat", "car", then "cat" removed, with the maps listed by their keys. *)
Lemma remove_cat_leaves_car_witness :
  exists t1 t2 t3,
    Add (runes_of "cat") CreateTrie = Done 3 t1 /\
    Add (runes_of "car") t1 = Done 3 t2 /\
    Remove canonical_order (runes_of "cat") t2 = Done tt t3 /\
    Keys canonical_order t3 = Done [runes_of "car"] t3.
Proof.
  apply (remove_cat_leaves_car canonical_order). exact canonical_order_perm.
Defined.

(** [Remove("dog")] on the trie of "cat": the panic, with [size] at 0. *)
Lemma remove_absent_key_panics_witness :
  Remove canonical_order (runes_of "dog") only_cat
  = Panicked NilDereference (set_size (int_wrap (size only_cat - 1)) only_cat).
Proof.
  apply (remove_absent_key_panics canonical_order canonical_order_perm
           only_cat (runes_of "dog")).
  - exact built_only_cat.
  - vm_compute. reflexivity.
Defined.

(** [Keys] after "cat", "car" and "dog". *)
Lemma keys_after_adds_witness :
  exists t res,
    add_all [runes_of "cat"; runes_of "car"; runes_of "dog"] CreateTrie
    = Done tt t /\
    Keys canonical_order t = Done res t /\
    forall k, k ∈ res <->
      k ∈ [runes_of "cat"; runes_of "car"; runes_of "dog"].
Proof.
  apply (keys_after_adds canonical_order canonical_order_perm
           [runes_of "cat"; runes_of "car"; runes_of "dog"]).
  unfold nul_free. repeat constructor; discriminate.
Defined.

(** The two prefix searches with the maps listed by their keys. *)
Lemma prefix_search_ca_and_z_witness :
  exists t res,
    add_all [runes_of "cat"; runes_of "car"; runes_of "cart"; runes_of "dog"]
      CreateTrie = Done tt t /\
    PrefixSearch canonical_order (runes_of "ca") t = Done res t /\
    res ≡ₚ [runes_of "cat"; runes_of "car"; runes_of "cart"] /\
    PrefixSearch canonical_order (runes_of "z") t = Done [] t.
Proof.
  apply (prefix_search_ca_and_z canonical_order). exact canonical_order_perm.
Defined.

(** "car" added again to the trie of "car" and "cart". *)
Lemma add_present_key_again_witness :
  exists t' res',
    Add (runes_of "car") car_cart = Done 3 t' /\
    size t' = size car_cart + 1 /\ root t' = root car_cart /\
    (forall p, view t' p = view car_cart p) /\
    Keys canonical_order t' = Done res' t' /\
    (forall k', k' ∈ res' <-> k' ∈ [runes_of "cart"; runes_of "car"]) /\
    mask_invariant_below t' /\
    (mask_invariant car_cart -> mask_invariant t').
Proof.
  apply (add_present_key_again canonical_order canonical_order_perm
           car_cart (runes_of "car") [runes_of "cart"; runes_of "car"]).
  - exact built_car_cart.
  - vm_compute. reflexivity.
  - apply list_elem_of_further, list_elem_of_here.
  - vm_compute. reflexivity.
  - unfold int_len. vm_compute. discriminate.
Defined.

(** "cart" added to the trie of "cat": depth 4. *)
Lemma add_size_and_depth_witness :
  exists t', Add (runes_of "cart") only_cat = Done 4 t' /\
    size t' = size only_cat + 1.
Proof.
  apply (add_size_and_depth only_cat (runes_of "cart")).
  - apply wf_closed, (built_wf _ canonical_order_perm), built_only_cat.
  - split; vm_compute; [discriminate|reflexivity].
  - unfold int_len. vm_compute. discriminate.
Defined.

(** [Remove("ca")] on the trie of "cat", whose path ends at the node 2. *)
Lemma remove_decrements_size_witness :
  exists t', Remove canonical_order (runes_of "ca") only_cat = Done tt t' /\
    size t' = size only_cat - 1.
Proof.
  apply (proj1 (remove_decrements_size canonical_order canonical_order_perm)
           only_cat (runes_of "ca") 2%nat).
  - exact built_only_cat.
  - unfold int_len. vm_compute. discriminate.
  - vm_compute. reflexivity.
  - vm_compute. reflexivity.
Defined.

(** [Remove("car")] on the trie of "car" and "cart": the root, "c" and "ca"
    have one child each. *)
Lemma remove_prefix_key_stays_witness :
  exists t', Remove canonical_order (runes_of "car") car_cart = Done tt t' /\
    arena t' = arena car_cart /\ root t' = root car_cart /\
    Keys canonical_order t' = Done [runes_of "cart"; runes_of "car"] t' /\
    runes_of "car" ∈ [runes_of "cart"; runes_of "car"].
Proof.
  apply (remove_prefix_key_stays canonical_order canonical_order_perm
           car_cart (runes_of "car") (runes_of "cart")).
  - exact built_car_cart.
  - vm_compute. reflexivity.
  - apply list_elem_of_further, list_elem_of_here.
  - apply list_elem_of_here.
  - exists [116]. vm_compute. reflexivity.
  - vm_compute. discriminate.
  - intros j Hj.
    destruct j as [|[|[|j]]]; [| | |cbn in Hj; lia];
      eexists _, _; (split; [vm_compute; reflexivity|]);
      (split; [vm_compute; reflexivity|]); vm_compute; reflexivity.
Defined.

(** ** Every key is enumerated once *)

Lemma collected_prefix (range_order : gmap Z nat -> list (Z * nat)) gas :
  forall h l pre k, k ∈ collected range_order gas h l pre -> pre `prefix_of` k.
Proof.
  induction gas as [|gas IH]; intros h l pre k Hk; cbn [collected] in Hk.
  - by apply elem_of_nil in Hk.
  - destruct (h !! l) as [n|]; [|by apply elem_of_nil in Hk].
    apply list_elem_of_bind in Hk as ([r c] & Hk & _). cbn [fst snd] in Hk.
    destruct (h !! c) as [x|]; [|by apply elem_of_nil in Hk].
    destruct (term x).
    + by apply list_elem_of_singleton in Hk as ->.
    + apply IH in Hk. by eapply prefix_app_l.
Qed.

Lemma sublist_bind {A B} (f g : A -> list B) (xs : list A) :
  (forall x, x ∈ xs -> f x `sublist_of` g x) ->
  (x ← xs; f x) `sublist_of` (x ← xs; g x).
Proof.
  induction xs as [|x xs IH]; intros H; cbn; [done|].
  apply sublist_app; [apply H; by left|]. apply IH. intros; apply H; by right.
Qed.

Section Once.

Variable range_order : gmap rune loc -> list (rune * loc).
Hypothesis range_order_perm : forall m, range_order m ≡ₚ map_to_list m.

Lemma range_order_NoDup (cs : gmap Z nat) : NoDup (range_order cs).
Proof. rewrite range_order_perm. apply NoDup_map_to_list. Qed.

Lemma range_order_empty : range_order ∅ = [].
Proof.
  apply Permutation_nil_r. rewrite range_order_perm. by rewrite map_to_list_empty.
Qed.

Lemma collected_NoDup gas : forall h rt l pre,
  shape h rt -> NoDup (collected range_order gas h l pre).
Proof.
  induction gas as [|gas IH]; intros h rt l pre Hs; cbn [collected].
  - constructor.
  - destruct (h !! l) as [n|] eqn:Hn; [|constructor].
    apply NoDup_bind; [| |apply range_order_NoDup].
    + intros [r1 c1] [r2 c2] k H1 H2 Hk1 Hk2. cbn [fst snd] in Hk1, Hk2.
      apply (range_order_elem _ range_order_perm) in H1, H2.
      assert (r1 = r2) as ->; [|congruence].
      destruct (sh_kid _ _ Hs l n r1 c1 Hn H1) as (x1 & Hx1 & _ & _ & Ht1).
      destruct (sh_kid _ _ Hs l n r2 c2 Hn H2) as (x2 & Hx2 & _ & _ & Ht2).
      rewrite Hx1 in Hk1. rewrite Hx2 in Hk2.
      destruct (term x1) eqn:E1, (term x2) eqn:E2.
      * symmetry in Ht1, Ht2.
        apply bool_decide_eq_true in Ht1, Ht2. congruence.
      * apply list_elem_of_singleton in Hk1 as ->.
        apply collected_prefix in Hk2. by apply prefix_snoc_not in Hk2.
      * apply list_elem_of_singleton in Hk2 as ->.
        apply collected_prefix in Hk1. by apply prefix_snoc_not in Hk1.
      * apply collected_prefix in Hk1 as [s1 ->].
        apply collected_prefix in Hk2 as [s2 Hk2].
        rewrite <- !app_assoc in Hk2. apply app_inv_head in Hk2.
        by injection Hk2.
    + intros [r c] _. cbn [fst snd].
      destruct (h !! c) as [x|]; [|constructor].
      destruct (term x); [apply NoDup_singleton|]. by apply (IH h rt).
Qed.

(** [fuzzycollect] visits the nodes in the order of [collect] and leaves
    some out. *)
Lemma fuzzy_collected_sublist gas : forall h rt l pm partial,
  shape h rt ->
  fuzzy_collected range_order gas h l pm partial
  `sublist_of` collected range_order gas h l pm.
Proof.
  induction gas as [|gas IH]; intros h rt l pm partial Hs.
  - destruct partial; cbn; done.
  - destruct partial as [|p0 ptail]; [done|].
    cbn [fuzzy_collected collected].
    destruct (h !! l) as [n|] eqn:Hn; [|done].
    apply sublist_bind. intros [r c] Hrc. cbn [fst snd].
    apply (range_order_elem _ range_order_perm) in Hrc.
    destruct (negb _); [apply sublist_nil_l|].
    destruct (sh_kid _ _ Hs l n r c Hn Hrc) as (x & Hx & _ & _ & _).
    rewrite Hx. destruct (term x) eqn:Ht; [|by apply (IH h rt)].
    pose proof (sh_term _ _ Hs c x Hx Ht) as Hcs.
    assert (forall pm' partial',
              fuzzy_collected range_order gas h c pm' partial' = []) as ->;
      [|apply sublist_nil_l].
    intros pm' partial'.
    destruct gas as [|gas']; [by destruct partial'|].
    destruct partial'; cbn [fuzzy_collected collected];
      by rewrite Hx, Hcs, range_order_empty.
Qed.

Lemma fuzzy_collected_NoDup gas h rt l pm partial :
  shape h rt -> NoDup (fuzzy_collected range_order gas h l pm partial).
Proof.
  intros Hs. eapply sublist_NoDup; [by apply (collected_NoDup gas h rt l pm)|].
  by apply (fuzzy_collected_sublist gas h rt).
Qed.

End Once.

(** ** What [Remove] detaches *)

Lemma map_two_keys (m : gmap Z nat) a b x y :
  m !! a = Some x -> m !! b = Some y -> a <> b -> (1 < base.size m)%nat.
Proof.
  intros Ha Hb Hab.
  rewrite <- (insert_delete_id m a x Ha).
  rewrite map_size_insert_None by apply lookup_delete_eq.
  assert (base.size (delete a m) <> 0%nat); [|lia].
  apply map_size_non_empty_iff. intros He.
  assert (delete a m !! b = Some y) as Hd by (by rewrite lookup_delete_ne).
  by rewrite He, lookup_empty in Hd.
Qed.

Lemma map_has_key (m : gmap Z nat) a x :
  m !! a = Some x -> (1 <= base.size m)%nat.
Proof.
  intros Ha. assert (base.size m <> 0%nat); [|lia].
  apply map_size_non_empty_iff. intros He. by rewrite He, lookup_empty in Ha.
Qed.

Lemma kids_at_node h rt p l n :
  walk h rt p = Some l -> h !! l = Some n ->
  kids_at h rt p = base.size (children n).
Proof. intros Hw Hl. unfold kids_at. by rewrite Hw; cbn; rewrite Hl. Qed.

Lemma kids_at_cons h c r c1 p :
  kid h c r = Some c1 -> kids_at h c (r :: p) = kids_at h c1 p.
Proof. intros Hk. unfold kids_at. cbn [walk]. by rewrite Hk. Qed.

Lemma stored_walk h l k :
  stored_from h l k <-> is_Some (walk h l (k ++ [nul])).
Proof.
  split.
  - intros (e & s & Hw & Hk). exists s. apply walk_snoc_Some. eauto.
  - intros [s (e & Hw & Hk)%walk_snoc_Some]. by exists e, s.
Qed.

Lemma unlink_kid h x r y s :
  kid (unlink h x r) y s = if decide (y = x /\ s = r) then None else kid h y s.
Proof.
  unfold kid. rewrite unlink_lookup.
  destruct (decide (y = x)) as [->|Hyx].
  - destruct (h !! x) as [n|]; cbn.
    + destruct (decide (s = r)) as [->|Hsr].
      * rewrite decide_True by done. apply lookup_delete_eq.
      * rewrite decide_False by tauto. by apply lookup_delete_ne.
    + by destruct (decide _).
  - by rewrite decide_False by tauto.
Qed.

(** After the child under [r] is taken from the node at the path [px], the
    paths through that child are gone and the others are as before. *)
Lemma unlink_walk h rt px x r :
  shape h rt -> walk h rt px = Some x ->
  forall q, walk (unlink h x r) rt q
            = if decide ((px ++ [r]) `prefix_of` q) then None else walk h rt q.
Proof.
  intros Hs Hx q. induction q as [|s q IH] using rev_ind.
  - rewrite decide_False; [done|].
    intros Hp%prefix_length. rewrite length_app in Hp. cbn in Hp. lia.
  - rewrite !walk_snoc, IH.
    destruct (decide ((px ++ [r]) `prefix_of` q)) as [Hpq|Hpq].
    + rewrite decide_True; [done|]. by apply prefix_app_r.
    + destruct (walk h rt q) as [y|] eqn:Hy; cbn [mbind option_bind];
        [|by destruct (decide _)].
      rewrite unlink_kid.
      destruct (decide (y = x /\ s = r)) as [[-> ->]|Hne].
      * rewrite (walk_inj Hs _ _ _ _ Hy Hx). by rewrite decide_True.
      * rewrite decide_False; [done|].
        intros [z Hz]. destruct z as [|z0 z] using rev_ind.
        -- rewrite app_nil_r in Hz. apply app_inj_tail in Hz as [-> ->].
           apply Hne. split; [congruence|done].
        -- clear IHz. rewrite !app_assoc in Hz.
           apply app_inj_tail in Hz as [-> _].
           apply Hpq. exists z. by rewrite <- app_assoc.
Qed.

Lemma remove_child_stored h rt px x r :
  shape h rt -> walk h rt px = Some x -> r <> nul ->
  forall k, stored_from (remove_child h x r) rt k <->
            stored_from h rt k /\ ~ (px ++ [r]) `prefix_of` k.
Proof.
  intros Hs Hx Hr k.
  assert (masks_differ (unlink h x r) (remove_child h x r)) as Hd.
  { unfold remove_child. cbv zeta.
    eapply masks_differ_trans; [apply recalc_masks_differ|].
    apply recalc_up_masks_differ. }
  rewrite (masks_differ_stored _ _ rt k Hd).
  rewrite !stored_walk, (unlink_walk h rt px x r Hs Hx).
  destruct (decide ((px ++ [r]) `prefix_of` (k ++ [nul]))) as [Hp|Hp].
  - split; [by intros []|]. intros [_ Hn]. exfalso. apply Hn.
    destruct Hp as [z Hz]. destruct z as [|z0 z] using rev_ind.
    + rewrite app_nil_r in Hz. apply app_inj_tail in Hz as [_ Hz]. congruence.
    + rewrite !app_assoc in Hz. apply app_inj_tail in Hz as [-> _].
      exists z. by rewrite <- app_assoc.
  - split; [|tauto]. intros H. split; [done|].
    intros Hk. apply Hp. by apply prefix_app_r.
Qed.

(** Below a node with a single child, every stored key goes through that
    child. *)
Lemma single_child_chain h rt (k k' : list Z) j :
  shape h rt -> nul_free k -> is_Some (walk h rt k) ->
  (forall j', (j < j' < length k)%nat -> (kids_at h rt (take j' k) <= 1)%nat) ->
  stored_from h rt k' -> (j < length k)%nat ->
  take (S j) k `prefix_of` k' -> k `prefix_of` k'.
Proof.
  intros Hs Hnf [l Hl] Hone Hst Hj Hpre.
  assert (forall m, (S j <= m <= length k)%nat -> take m k `prefix_of` k') as Hall.
  { intros m Hm. induction m as [|m IH]; [lia|].
    destruct (decide (m = j)) as [->|Hmj]; [done|].
    destruct (IH ltac:(lia)) as [rest Hrest].
    destruct (lookup_lt_is_Some_2 k m ltac:(lia)) as [r Hr].
    rewrite (take_S_r _ _ _ Hr).
    rewrite <- (take_drop m k) in Hl.
    rewrite (drop_S _ _ _ Hr) in Hl.
    rewrite walk_app in Hl.
    destruct (walk h rt (take m k)) as [y|] eqn:Hy; [|done].
    cbn [mbind option_bind walk] in Hl.
    destruct (kid h y r) as [c|] eqn:Hk; [|done].
    pose proof Hk as (ny & Hny & Hc)%kid_Some.
    pose proof (Hone m ltac:(lia)) as H1.
    rewrite (kids_at_node _ _ _ _ _ Hy Hny) in H1.
    apply stored_walk in Hst as [e He].
    rewrite Hrest, <- app_assoc, walk_app, Hy in He.
    cbn [mbind option_bind] in He.
    assert (r <> nul) as Hrn.
    { unfold nul_free in Hnf. rewrite Forall_forall in Hnf. apply Hnf.
      by eapply list_elem_of_lookup_2. }
    destruct rest as [|s rest]; cbn [app walk] in He.
    - destruct (kid h y nul) as [c'|] eqn:Hk'; [|done].
      apply kid_Some in Hk' as (ny' & Hny' & Hc').
      assert (ny' = ny) as -> by congruence.
      pose proof (map_two_keys _ _ _ _ _ Hc Hc' Hrn). lia.
    - destruct (kid h y s) as [c'|] eqn:Hk'; [|done].
      apply kid_Some in Hk' as (ny' & Hny' & Hc').
      assert (ny' = ny) as -> by congruence.
      destruct (decide (r = s)) as [->|Hrs].
      + exists rest. rewrite Hrest. by rewrite <- app_assoc.
      + pose proof (map_two_keys _ _ _ _ _ Hc Hc' Hrs). lia. }
  rewrite <- (firstn_all k). apply Hall. lia.
Qed.

(** A stored key that does not extend the path [k] leaves it at a node
    with more than one child. *)
Lemma diverging_key_branches h (k : list Z) : forall c l k2,
  nul_free k -> walk h c k = Some l -> stored_from h c k2 ->
  ~ k `prefix_of` k2 ->
  exists j, (j < length k)%nat /\ (1 < kids_at h c (take j k))%nat.
Proof.
  induction k as [|r k IH]; intros c l k2 Hnf Hw Hst Hpre.
  - exfalso. apply Hpre, prefix_nil.
  - apply Forall_cons in Hnf as [Hr Hnf]. cbn [walk] in Hw.
    destruct (kid h c r) as [c1|] eqn:Hk; [|done]. cbn in Hw.
    pose proof Hk as (nc & Hnc & Hc1)%kid_Some.
    assert (forall s c2, kid h c s = Some c2 -> s <> r ->
              exists j, (j < length (r :: k))%nat /\
                        (1 < kids_at h c (take j (r :: k)))%nat) as Htwo.
    { intros s c2 (nc' & Hnc' & Hc2)%kid_Some Hsr.
      assert (nc' = nc) as -> by congruence.
      exists 0%nat. split; [cbn; lia|]. cbn [take].
      rewrite (kids_at_node h c [] c nc eq_refl Hnc).
      by eapply (map_two_keys _ s r). }
    destruct k2 as [|r2 k2].
    + apply stored_from_nil in Hst as [s Hs0]. apply (Htwo nul s Hs0). congruence.
    + apply stored_from_cons in Hst as (c2 & Hk2 & Hst).
      destruct (decide (r2 = r)) as [->|Hne]; [|by apply (Htwo r2 c2)].
      assert (c2 = c1) as -> by congruence.
      destruct (IH c1 l k2 Hnf Hw Hst) as (j & Hj & Hb).
      { intros Hp. apply Hpre. by apply prefix_cons. }
      exists (S j). split; [cbn; lia|].
      cbn [take]. by rewrite (kids_at_cons _ _ _ _ _ Hk).
Qed.

Section Detach.

Variable range_order : gmap rune loc -> list (rune * loc).
Hypothesis range_order_perm : forall m, range_order m ≡ₚ map_to_list m.

Lemma remove_walk_nil gas (rs : list Z) i t :
  remove_walk range_order gas None rs i t = Done tt t.
Proof. by destruct gas. Qed.

(** The loop of [Remove] stops at the first node, going up, that has more
    than one child, and takes from it the child on the path; when there is
    no such node it changes nothing. *)
Lemma remove_walk_result (rs : list Z) gas : forall x t rt d,
  shape (arena t) rt -> int_len rs ->
  (x < gas)%nat -> (d < length rs)%nat ->
  walk (arena t) rt (take d rs) = Some x ->
  (exists j y r, (j <= d)%nat /\ walk (arena t) rt (take j rs) = Some y /\
     rs !! j = Some r /\ (1 < kids_at (arena t) rt (take j rs))%nat /\
     (forall j', (j < j' <= d)%nat ->
        (kids_at (arena t) rt (take j' rs) <= 1)%nat) /\
     remove_walk range_order gas (Some x) rs (Z.of_nat (length rs - d - 1)) t
     = Done tt (set_arena (remove_child (arena t) y r) t)) \/
  ((forall j', (j' <= d)%nat -> (kids_at (arena t) rt (take j' rs) <= 1)%nat) /\
   remove_walk range_order gas (Some x) rs (Z.of_nat (length rs - d - 1)) t
   = Done tt t).
Proof.
  induction gas as [|gas IH]; intros x t rt d Hs Hlen Hxg Hd Hw; [lia|].
  destruct (sh_root _ _ Hs) as (nr & Hnr & _).
  pose proof (walk_alloc Hs rt (take d rs) x ltac:(by eapply lookup_lt_Some) Hw)
    as Hxl.
  destruct (lookup_lt_is_Some_2 _ _ Hxl) as [nx Hx].
  pose proof (kids_at_node _ _ _ _ _ Hw Hx) as Hkx.
  cbn [remove_walk]. cbv zeta.
  rewrite (bind_Done _ _ _ _ _ (Children_Some _ _ _ Hx)).
  destruct (bool_decide (1 < base.size (children nx))%nat) eqn:Hb.
  - apply bool_decide_eq_true in Hb.
    destruct (lookup_lt_is_Some_2 rs d Hd) as [r Hr].
    left. exists d, x, r. split_and!; [lia|done|done|lia|intros; lia|].
    rewrite (bind_Done _ _ _ _ _ (index_run rs d r t Hr Hlen)).
    by rewrite (RemoveChild_run range_order range_order_perm t rt x r Hs) by eauto.
  - apply bool_decide_eq_false in Hb.
    rewrite (bind_Done _ _ _ _ _ (Parent_Some _ _ _ Hx)).
    pose proof (ancestor_step _ _ rs d x nx Hs Hw Hx ltac:(lia)) as Hanc.
    destruct d as [|d'].
    + right. split.
      * intros j' Hj'. assert (j' = 0%nat) as -> by lia. lia.
      * rewrite Hanc. by destruct gas.
    + destruct Hanc as (y & Hy & Hwy). rewrite Hy.
      assert (int_wrap (Z.of_nat (length rs - S d' - 1) + 1)
              = Z.of_nat (length rs - d' - 1)) as ->.
      { unfold int_len, max_int in Hlen.
        rewrite int_wrap_id by (unfold min_int, max_int; lia). lia. }
      pose proof (sh_up _ _ Hs x nx y Hx Hy) as Hyx.
      destruct (IH y t rt d' Hs Hlen ltac:(lia) ltac:(lia) Hwy)
        as [(j & z & r & Hj & Hz & Hr & Hbr & Hone & Hrun)|[Hone Hrun]].
      * left. exists j, z, r. split_and!; [lia|done..| |done].
        intros j' Hj'. destruct (decide (j' = S d')) as [->|]; [lia|].
        apply Hone. lia.
      * right. split; [|done].
        intros j' Hj'. destruct (decide (j' = S d')) as [->|]; [lia|].
        apply Hone. lia.
Qed.

(** [Remove(k)] on a path that exists: either some node strictly above the
    last node of [k] has more than one child, and then exactly the stored
    keys that extend [k] are gone; or the store is as before. *)
Lemma Remove_keys k t rt l :
  wf t -> root t = Some rt -> nul_free k -> int_len k ->
  walk (arena t) rt k = Some l ->
  exists t', Remove range_order k t = Done tt t' /\ wf t' /\
    root t' = Some rt /\ size t' = int_wrap (size t - 1) /\
    (((exists j, (j < length k)%nat /\
                 (1 < kids_at (arena t) rt (take j k))%nat) /\
      forall k', stored_from (arena t') rt k' <->
                 stored_from (arena t) rt k' /\ ~ k `prefix_of` k') \/
     ((forall j, (j < length k)%nat ->
         (kids_at (arena t) rt (take j k) <= 1)%nat) /\
      arena t' = arena t)).
Proof.
  intros Hwf Hr Hnf Hlen Hw. pose proof Hwf as (rt' & Hr' & Hs & Hm).
  assert (rt' = rt) as -> by congruence.
  destruct (Remove_wf range_order range_order_perm k t Hwf)
    as [(t' & Hrun & Hwf' & Hsz & Hrt)|(e & Hrun)].
  2:{ exfalso. revert Hrun.
      rewrite (Remove_unfold range_order k t rt Hwf Hr). cbv zeta. rewrite Hw.
      destruct (sh_root _ _ Hs) as (nr & Hnr & _).
      pose proof (walk_alloc Hs rt _ l ltac:(by eapply lookup_lt_Some) Hw) as Hl.
      destruct (lookup_lt_is_Some_2 _ _ Hl) as [nl Hnl]. rewrite Hnl. cbn.
      set (t0 := set_size _ t).
      destruct (remove_walk_wf range_order range_order_perm k (length (arena t))
                  (parent nl) 0 t0 rt) as [(t' & -> & _)|Hp]; try done.
      - intros y Hy. pose proof (sh_up _ _ Hs l nl y Hnl Hy). cbn. lia.
      - rewrite Hp. intros [= <-].
        pose proof (ancestor_step (arena t) rt k (length k) l nl Hs) as Hanc.
        rewrite firstn_all in Hanc. specialize (Hanc Hw Hnl ltac:(lia)).
        destruct (length k) as [|d] eqn:Hd.
        + rewrite Hanc in Hp. by destruct (arena t).
        + destruct Hanc as (y & Hy & Hwy). rewrite Hy in Hp. revert Hp.
          replace 0 with (Z.of_nat (length k - d - 1)) by lia.
          apply (remove_walk_indexed range_order range_order_perm k _ _ t0 rt d);
            [done..|].
          intros y' [= <-]. pose proof (sh_up _ _ Hs l nl y Hnl Hy).
          split_and!; [cbn; lia|lia|done]. }
  exists t'. split_and!; [done|done|congruence|done|].
  revert Hrun. rewrite (Remove_unfold range_order k t rt Hwf Hr). cbv zeta.
  rewrite Hw.
  destruct (sh_root _ _ Hs) as (nr & Hnr & _).
  pose proof (walk_alloc Hs rt _ l ltac:(by eapply lookup_lt_Some) Hw) as Hl.
  destruct (lookup_lt_is_Some_2 _ _ Hl) as [nl Hnl]. rewrite Hnl. cbn.
  set (t0 := set_size _ t).
  pose proof (ancestor_step (arena t) rt k (length k) l nl Hs) as Hanc.
  rewrite firstn_all in Hanc. specialize (Hanc Hw Hnl ltac:(lia)).
  destruct (length k) as [|d] eqn:Hd.
  - rewrite Hanc, remove_walk_nil. intros [= <-]. right. split; [intros; lia|done].
  - destruct Hanc as (y & Hy & Hwy). rewrite Hy.
    pose proof (sh_up _ _ Hs l nl y Hnl Hy) as Hyl.
    destruct (remove_walk_result k (length (arena t)) y t0 rt d Hs Hlen
                ltac:(lia) ltac:(lia) Hwy)
      as [(j & z & r & Hj & Hz & Hkr & Hbr & Hone & Hrun)|[Hone Hrun]].
    + replace (Z.of_nat (length k - d - 1)) with 0 in Hrun by lia.
      rewrite Hrun. intros [= <-]. left. split.
      * exists j. split; [lia|done].
      * intros k'. cbn [arena set_arena t0 set_size].
        assert (r <> nul) as Hrn.
        { unfold nul_free in Hnf. rewrite Forall_forall in Hnf. apply Hnf.
          by eapply list_elem_of_lookup_2. }
        rewrite (remove_child_stored _ rt (take j k) z r Hs Hz Hrn).
        rewrite <- (take_S_r _ _ _ Hkr).
        split; intros [Hst Hpre]; (split; [done|]); intros Hp; apply Hpre.
        -- etransitivity; [|exact Hp]. apply prefix_take.
        -- apply (single_child_chain (arena t) rt k k' j Hs Hnf); try done.
           ++ intros j' Hj'. apply Hone. lia.
           ++ lia.
    + replace (Z.of_nat (length k - d - 1)) with 0 in Hrun by lia.
      rewrite Hrun. intros [= <-]. right. split; [|done].
      intros j Hj. apply Hone. lia.
Qed.

End Detach.

(** ** The bits of the masks *)

Lemma maskrune_outside r :
  - 2 ^ 31 <= r < 2 ^ 31 -> ~ 97 <= r <= 160 -> maskrune r = 0.
Proof.
  intros Hr Hout. unfold maskrune, shl64, uint64.
  destruct (64 <=? (r mod 2 ^ 64 - 97) mod 2 ^ 64) eqn:E; [done|].
  apply Z.leb_gt in E. exfalso. revert E.
  change (2 ^ 64) with 18446744073709551616.
  change (2 ^ 31) with 2147483648 in Hr.
  destruct (decide (r < 0)).
  - replace (r mod 18446744073709551616) with (r + 18446744073709551616).
    2:{ apply (Z.mod_unique_pos _ _ (-1)); lia. }
    rewrite Z.mod_small by lia. lia.
  - rewrite (Z.mod_small r) by lia.
    destruct (decide (r < 97)).
    + replace ((r - 97) mod 18446744073709551616)
        with (r - 97 + 18446744073709551616).
      2:{ apply (Z.mod_unique_pos _ _ (-1)); lia. }
      lia.
    + rewrite Z.mod_small by lia. lia.
Qed.

Lemma maskrune_testbit r i :
  - 2 ^ 31 <= r < 2 ^ 31 ->
  Z.testbit (maskrune r) i = true <-> 97 <= r <= 160 /\ i = r - 97.
Proof.
  intros Hr. destruct (decide (97 <= r <= 160)) as [Hin|Hout].
  - rewrite (maskrune_letter r Hin), Z.pow2_bits_eqb by lia.
    rewrite Z.eqb_eq. split; [intros <-; done|]. by intros [_ ->].
  - rewrite (maskrune_outside r Hr Hout), Z.bits_0. split; [done|tauto].
Qed.

Lemma or_list_testbit zs i :
  Z.testbit (or_list zs) i = true <-> exists z, z ∈ zs /\ Z.testbit z i = true.
Proof.
  unfold or_list. induction zs as [|z zs IH]; cbn [foldr].
  - rewrite Z.bits_0. split; [done|]. by intros (? & ?%elem_of_nil & _).
  - rewrite Z.lor_spec, orb_true_iff, IH. split.
    + intros [H|(z' & Hz' & H)]; [exists z; split; [left|done]|].
      exists z'. split; [by right|done].
    + intros (z' & [->|Hz']%elem_of_cons & H); [by left|right; eauto].
Qed.

Lemma submask_testbit a b i :
  submask a b -> Z.testbit a i = true -> Z.testbit b i = true.
Proof.
  unfold submask. intros H Ha.
  apply (f_equal (fun z => Z.testbit z i)) in H.
  rewrite Z.lor_spec, Ha, orb_true_r in H. done.
Qed.

(** The mask of a node below the root holds the bit of its own rune and
    the bits of the runes on the paths that start at it, and no other. *)
Lemma mask_bits h rt :
  shape h rt -> masks_ok h rt (fun _ => False) ->
  forall m l nl i, (length h - l <= m)%nat -> l <> rt -> h !! l = Some nl ->
    Z.testbit (mask nl) i = true <->
    Z.testbit (maskrune (val nl)) i = true \/
    exists q r c, walk h l (q ++ [r]) = Some c /\
                  Z.testbit (maskrune r) i = true.
Proof.
  intros Hs Hm m. induction m as [|m IH]; intros l nl i Hlen Hl Hnl.
  { apply lookup_lt_Some in Hnl. lia. }
  pose proof (Hm l nl Hnl Hl ltac:(tauto)) as Hok. unfold mask_ok in Hok.
  split.
  - rewrite Hok, Z.lor_spec, orb_true_iff. intros [H|H]; [by left|right].
    unfold kids_mask in H. apply or_list_testbit in H as (z & Hz & H).
    apply list_elem_of_fmap in Hz as ([k c] & -> & Hkc).
    apply elem_of_map_to_list in Hkc.
    assert (kid h l k = Some c) as Hkid by (unfold kid; by rewrite Hnl).
    unfold entry_mask in H. cbn [fst snd] in H.
    rewrite Z.lor_spec, orb_true_iff in H. destruct H as [H|H].
    + exists [], k, c. split; [|done]. cbn. by rewrite Hkid.
    + destruct (kid_node Hs _ _ _ Hkid) as (nc & Hnc & _ & Hv & _).
      pose proof (kid_lt Hs _ _ _ Hkid) as Hlt.
      unfold node_mask in H. rewrite Hnc in H. cbn in H.
      apply (IH c nc i) in H; [|lia|by eapply kid_not_root|done].
      destruct H as [H|(q & r & c' & Hw & H)].
      * rewrite Hv in H. exists [], k, c. split; [|done]. cbn. by rewrite Hkid.
      * exists (k :: q), r, c'. split; [|done]. cbn. by rewrite Hkid.
  - intros [H|(q & r & c & Hw & H)].
    + rewrite Hok, Z.lor_spec, H. done.
    + destruct (q ++ [r]) as [|r0 s] eqn:Hq; [by destruct q|].
      cbn [walk] in Hw.
      destruct (kid h l r0) as [c0|] eqn:Hkid; [|done]. cbn in Hw.
      pose proof Hkid as (nl' & Hnl' & Hc0)%kid_Some.
      assert (nl' = nl) as -> by congruence.
      eapply submask_testbit; [|exact H].
      rewrite Hok. apply submask_lor_r.
      eapply submask_trans; [|by apply (kids_mask_entry h _ r0 c0)].
      unfold entry_mask. cbn [fst snd]. apply submask_lor_r.
      eapply submask_trans; [|by apply (mask_covers h rt s l r0 c0 c)].
      apply submask_maskrune_elem. rewrite <- Hq.
      apply elem_of_app. right. by left.
Qed.

(** ** The paths [addrune] makes *)

(** A path of the trie after [addrune] is a path of the trie before, to the
    same node, or it runs along the key that was added. *)
Lemma addrune_walks runes : forall l i t rt n d t',
  shape (arena t) rt -> arena t !! l = Some n -> term n = false ->
  nul_free runes ->
  masks_ok (arena t) rt (eq l) -> pending (arena t) rt l n runes ->
  addrune (Some l) runes i t = Done d t' ->
  forall p x, walk (arena t') l p = Some x ->
    p `prefix_of` (runes ++ [nul]) \/ walk (arena t) l p = Some x.
Proof.
  induction runes as [|r rest IH]; intros l i t rt n d t' Hs Hl Ht Hnf Hm Hp Hrun.
  - pose proof (lookup_lt_Some _ _ _ Hl) as Hlt.
    set (h := arena t) in *.
    set (x0 := mkNode nul true 0 (Some l) ∅).
    assert (addrune (Some l) [] i t = Done i (set_arena (add_kid h l n nul x0) t))
      as Hrun' by (cbn [addrune]; mrun; done).
    rewrite Hrun' in Hrun. injection Hrun as <- <-. cbn [arena set_arena].
    assert (forall r', kid (add_kid h l n nul x0) l r'
              = if decide (r' = nul) then Some (length h) else kid h l r') as Hkid.
    { intros r'. unfold kid. rewrite (add_kid_lookup _ _ _ _ _ _ Hl).
      rewrite decide_True by done. cbn. rewrite Hl. cbn.
      destruct (decide (r' = nul)) as [->|].
      - by rewrite lookup_insert_eq.
      - by rewrite lookup_insert_ne. }
    assert (forall r', kid (add_kid h l n nul x0) (length h) r' = None) as Hnew.
    { intros r'. unfold kid. rewrite (add_kid_lookup _ _ _ _ _ _ Hl).
      rewrite decide_False by lia. rewrite decide_True by done. done. }
    intros p x Hw. destruct p as [|s p]; [left; apply prefix_nil|].
    cbn [walk] in Hw. rewrite Hkid in Hw.
    destruct (decide (s = nul)) as [->|Hsn].
    + cbn in Hw. left. destruct p as [|s' p]; [done|].
      cbn [walk] in Hw. by rewrite Hnew in Hw.
    + right. cbn [walk]. destruct (kid h l s) as [c0|] eqn:Hk0; [|done].
      cbn in Hw |- *. rewrite <- Hw. symmetry. apply walk_frame.
      intros s' y Hy.
      pose proof (kid_lt Hs _ _ _ Hk0).
      pose proof (walk_le Hs _ _ _ Hy).
      pose proof (walk_alloc Hs c0 s' y ltac:(lia) Hy).
      rewrite (add_kid_lookup _ _ _ _ _ _ Hl).
      by rewrite !decide_False by lia.
  - apply Forall_cons in Hnf as [Hr Hnf].
    pose proof (lookup_lt_Some _ _ _ Hl) as Hlt.
    cbn [addrune] in Hrun.
    destruct (children n !! r) as [c|] eqn:Hc.
    + assert (kid (arena t) l r = Some c) as Hk by (unfold kid; by rewrite Hl).
      pose proof (kid_lt Hs _ _ _ Hk) as Hlc.
      destruct (kid_node Hs _ _ _ Hk) as (nc & Hnc & Hpar & Hval & Hterm).
      rewrite bool_decide_eq_false_2 in Hterm by done.
      set (nc' := set_mask (Z.lor (mask nc) (maskruneslice (r :: rest))) nc).
      set (t1 := set_arena (<[c := nc']> (arena t)) t).
      pose proof (masks_differ_insert (arena t) c nc
                    (Z.lor (mask nc) (maskruneslice (r :: rest))) Hnc) as Hd.
      fold nc' in Hd.
      destruct (or_child_masks (arena t) rt l n r c nc rest Hs Hl Hc Hnc Hm Hp)
        as [Hm1 Hp1]. fold nc' in Hm1, Hp1.
      assert (shape (arena t1) rt) as Hs1 by (by eapply masks_differ_shape).
      assert (arena t1 !! c = Some nc') as Hc1
        by (cbn; apply list_lookup_insert_eq; lia).
      assert (addrune (Some c) rest (int_wrap (i + 1)) t1 = Done d t') as Hrun1.
      { rewrite <- Hrun. symmetry. mrun. rewrite Hc. mrun. mrun. done. }
      destruct (addrune_spec rest c (int_wrap (i + 1)) t1 rt nc'
                  Hs1 Hc1 Hterm Hnf Hm1 Hp1)
        as (t'' & Hrun2 & _ & _ & _ & _ & _ & Hframe & _).
      assert (t'' = t') as -> by congruence.
      cbn in Hframe. rewrite length_insert in Hframe.
      assert (arena t' !! l = arena t !! l) as El.
      { rewrite Hframe; [by apply list_lookup_insert_ne; lia|done|].
        intros p _ Hw. apply (walk_le Hs1) in Hw. lia. }
      assert (forall r', kid (arena t') l r' = kid (arena t) l r') as Hkid.
      { intros r'. unfold kid. by rewrite El. }
      intros p x Hw. destruct p as [|s p]; [left; apply prefix_nil|].
      cbn [walk] in Hw |- *. rewrite Hkid in Hw.
      destruct (decide (s = r)) as [->|Hsr].
      * rewrite Hk in Hw |- *. cbn in Hw |- *.
        destruct (IH c _ t1 rt nc' d t' Hs1 Hc1 Hterm Hnf Hm1 Hp1 Hrun1 p x Hw)
          as [Hpre|Hold].
        -- left. by apply prefix_cons.
        -- right. by rewrite <- (masks_differ_walk _ _ _ _ Hd).
      * right. destruct (kid (arena t) l s) as [c0|] eqn:Hk0; [|done].
        cbn in Hw |- *. rewrite <- Hw. symmetry. apply walk_frame.
        intros s' y Hy.
        pose proof (kid_lt Hs _ _ _ Hk0).
        rewrite Hframe.
        -- apply list_lookup_insert_ne. intros Hcy.
           assert (walk (arena t) l (s :: s') = Some c) as Hw1
             by (cbn; rewrite Hk0; cbn; congruence).
           assert (walk (arena t) l [r] = Some c) as Hw2
             by (cbn; by rewrite Hk).
           pose proof (walk_inj Hs _ _ _ _ Hw1 Hw2). congruence.
        -- eapply (walk_alloc Hs c0); [lia|done].
        -- intros q Hpre Hwq.
           rewrite (masks_differ_walk _ _ _ _ Hd) in Hwq.
           assert (walk (arena t) l (s :: s') = Some y) as Hw1
             by (cbn; by rewrite Hk0).
           assert (walk (arena t) l (r :: q) = Some y) as Hw2
             by (cbn; by rewrite Hk).
           pose proof (walk_inj Hs _ _ _ _ Hw1 Hw2). congruence.
    + set (h := arena t) in *.
      set (x0 := mkNode r false (maskruneslice (r :: rest)) (Some l) ∅).
      set (t1 := set_arena (add_kid h l n r x0) t).
      assert (kid h l r = None) as Hk by (unfold kid; by rewrite Hl).
      assert (arena t1 !! length h = Some x0) as Hnew.
      { cbn. rewrite (add_kid_lookup _ _ _ _ _ _ Hl).
        rewrite decide_False by lia. by rewrite decide_True. }
      assert (shape (arena t1) rt) as Hs1.
      { cbn. pose proof (add_kid_shape h rt l n r (maskruneslice (r :: rest))
                           Hs Hl Ht) as H1.
        rewrite bool_decide_eq_false_2 in H1 by done. exact H1. }
      destruct (add_child_masks h rt l n r rest Hs Hl Hc Hm Hp) as [Hm1 Hp1].
      fold x0 in Hm1, Hp1.
      assert (addrune (Some (length h)) rest (int_wrap (i + 1)) t1 = Done d t')
        as Hrun1.
      { rewrite <- Hrun. symmetry. mrun. rewrite Hc. mrun. fold h x0 t1. mrun.
        cbv zeta.
        assert (set_arena (<[length h := set_mask
                   (Z.lor (mask x0) (maskruneslice (r :: rest))) x0]> (arena t1)) t1
                = t1) as ->; [|done].
        cbn [mask x0]. rewrite Z.lor_diag.
        change (set_mask (maskruneslice (r :: rest)) x0) with x0.
        rewrite list_insert_id by done. apply set_arena_id. }
      destruct (addrune_spec rest (length h) (int_wrap (i + 1)) t1 rt x0
                  Hs1 Hnew eq_refl Hnf Hm1 Hp1)
        as (t'' & Hrun2 & _ & _ & _ & _ & _ & Hframe & _).
      assert (t'' = t') as -> by congruence.
      cbn [arena set_arena t1] in Hframe.
      assert (add_kid h l n r x0 !! length h = Some x0) as Hnew' by exact Hnew.
      rewrite add_kid_length in Hframe.
      assert (arena t' !! l
              = Some (set_children (<[r := length h]> (children n)) n)) as El.
      { rewrite Hframe; [|lia|].
        - rewrite (add_kid_lookup _ _ _ _ _ _ Hl). by rewrite decide_True.
        - intros p _ Hw. apply (walk_le Hs1) in Hw. lia. }
      assert (forall r', kid (arena t') l r'
                = if decide (r' = r) then Some (length h) else kid h l r') as Hkid.
      { intros r'. unfold kid. rewrite El, Hl. cbn.
        destruct (decide (r' = r)) as [->|].
        - by rewrite lookup_insert_eq.
        - by rewrite lookup_insert_ne. }
      intros p x Hw. destruct p as [|s p]; [left; apply prefix_nil|].
      cbn [walk] in Hw |- *. rewrite Hkid in Hw.
      destruct (decide (s = r)) as [->|Hsr].
      * cbn in Hw. left.
        destruct (IH (length h) _ t1 rt x0 d t' Hs1 Hnew eq_refl Hnf Hm1 Hp1
                    Hrun1 p x Hw) as [Hpre|Hold].
        -- by apply prefix_cons.
        -- cbn [arena set_arena t1] in Hold.
           destruct p as [|s' p]; [apply prefix_cons, prefix_nil|].
           cbn [walk] in Hold. unfold kid in Hold. by rewrite Hnew' in Hold.
      * right. destruct (kid h l s) as [c0|] eqn:Hk0; [|done].
        cbn in Hw |- *. rewrite <- Hw. symmetry. apply walk_frame.
        intros s' y Hy.
        pose proof (kid_lt Hs _ _ _ Hk0).
        pose proof (walk_le Hs _ _ _ Hy).
        pose proof (walk_alloc Hs c0 s' y ltac:(lia) Hy).
        rewrite Hframe; [|lia|].
        -- rewrite (add_kid_lookup _ _ _ _ _ _ Hl).
           by rewrite !decide_False by lia.
        -- intros q _ Hwq. apply (walk_le Hs1) in Hwq. lia.
Qed.

(** ** No dead branches *)

Lemma prefix_snoc_inv {A} (a b : list A) r :
  a `prefix_of` b ++ [r] -> a = b ++ [r] \/ a `prefix_of` b.
Proof.
  intros [z Hz]. destruct z as [|z0 z _] using rev_ind.
  - left. by rewrite app_nil_r in Hz.
  - right. rewrite app_assoc in Hz. apply app_inj_tail in Hz as [-> _].
    by exists z.
Qed.

Lemma map_other_key (m : gmap Z nat) r :
  (1 < base.size m)%nat -> exists s c, s <> r /\ m !! s = Some c.
Proof.
  intros Hsz.
  assert (delete r m <> ∅) as Hne.
  { apply map_size_non_empty_iff. rewrite map_size_delete.
    destruct (m !! r); cbn; lia. }
  apply map_choose in Hne as (s & c & Hsc).
  apply lookup_delete_Some in Hsc as [? ?]. eauto.
Qed.

Lemma live_create : live (arena CreateTrie) 0.
Proof.
  intros p r [x Hw] _. exfalso.
  apply walk_snoc_Some in Hw as (y & Hy & Hk).
  destruct p as [|s p]; cbn in Hy.
  - injection Hy as <-. done.
  - done.
Qed.

Lemma live_add k t rt d t' :
  wf t -> root t = Some rt -> live (arena t) rt -> nul_free k ->
  Add k t = Done d t' -> live (arena t') rt.
Proof.
  intros Hwf Hr Hlive Hnf Hadd. pose proof Hwf as (rt' & Hr' & Hs & Hm).
  assert (rt' = rt) as -> by congruence.
  destruct (Add_spec k t Hwf Hnf) as (t'' & Hadd' & _ & _ & _ & _ & Hst).
  assert (t'' = t') as -> by congruence. specialize (Hst rt Hr).
  destruct (sh_root _ _ Hs) as (n & Hn & _ & Ht).
  set (t0 := set_size (int_wrap (size t + 1)) t).
  assert (addrune (Some rt) k 0 t0 = Done d t') as Hrun.
  { rewrite <- Hadd. unfold Add, bind, Root. fold t0.
    cbn [root t0 set_size]. by rewrite Hr. }
  assert (masks_ok (arena t0) rt (eq rt)) as Hm0.
  { eapply masks_ok_weaken; [|exact Hm]. done. }
  assert (pending (arena t0) rt rt n k) as Hp0 by (by intros ?).
  pose proof (addrune_walks k rt 0 t0 rt n d t' Hs Hn Ht Hnf Hm0 Hp0 Hrun) as Hwalks.
  intros p r [x Hw] Hrn.
  destruct (Hwalks _ _ Hw) as [Hpre|Hold].
  - apply prefix_snoc_inv in Hpre as [Heq|[suf Hsuf]].
    { apply app_inj_tail in Heq as [_ ?]. done. }
    exists suf. apply Hst. left. done.
  - destruct (Hlive p r ltac:(eauto) Hrn) as (suf & Hsuf).
    exists suf. apply Hst. by right.
Qed.

Lemma live_remove_child h rt py y ny r :
  shape h rt -> live h rt -> walk h rt py = Some y -> h !! y = Some ny ->
  (1 < base.size (children ny))%nat ->
  live (remove_child h y r) rt.
Proof.
  intros Hs Hlive Hy Hny Hsz.
  assert (masks_differ (unlink h y r) (remove_child h y r)) as Hd.
  { unfold remove_child. cbv zeta.
    eapply masks_differ_trans; [apply recalc_masks_differ|].
    apply recalc_up_masks_differ. }
  assert (forall k, stored_from (remove_child h y r) rt k <->
            ~ (py ++ [r]) `prefix_of` (k ++ [nul]) /\ stored_from h rt k) as Hst.
  { intros k. rewrite (masks_differ_stored _ _ rt k Hd).
    rewrite !stored_walk, (unlink_walk h rt py y r Hs Hy).
    destruct (decide _); [|tauto]. split; [by intros []|tauto]. }
  intros p s Hw Hsn.
  rewrite (masks_differ_walk _ _ rt _ Hd) in Hw.
  rewrite (unlink_walk h rt py y r Hs Hy) in Hw.
  destruct (decide ((py ++ [r]) `prefix_of` (p ++ [s]))) as [|Hnp];
    [by destruct Hw|].
  destruct (Hlive p s Hw Hsn) as (suf0 & Hsuf0).
  destruct (decide ((py ++ [r]) `prefix_of` (((p ++ [s]) ++ suf0) ++ [nul])))
    as [Hpre|Hnpre]; [|exists suf0; by apply Hst].
  assert ((p ++ [s]) `prefix_of` (((p ++ [s]) ++ suf0) ++ [nul])) as Hps.
  { rewrite <- app_assoc. by apply prefix_app_r. }
  destruct (prefix_weak_total _ _ _ Hpre Hps) as [?|Hps']; [done|].
  apply prefix_snoc_inv in Hps' as [Heq|[mid Hmid]].
  { rewrite Heq in Hnp. by destruct Hnp. }
  destruct (map_other_key (children ny) r Hsz) as (s2 & c2 & Hs2 & Hc2).
  assert (kid h y s2 = Some c2) as Hk2 by (unfold kid; by rewrite Hny).
  destruct (decide (s2 = nul)) as [->|Hs2n].
  - exists mid. rewrite <- Hmid. apply Hst. split.
    + intros Hp%prefix_app_inv. apply prefix_cons_inv_1 in Hp. congruence.
    + by exists y, c2.
  - destruct (Hlive py s2) as (suf2 & Hsuf2); [|done|].
    { exists c2. apply walk_snoc_Some. eauto. }
    exists (mid ++ [s2] ++ suf2).
    assert ((p ++ [s]) ++ mid ++ [s2] ++ suf2 = (py ++ [s2]) ++ suf2) as ->.
    { rewrite Hmid. by rewrite <- !app_assoc. }
    apply Hst. split; [|done].
    rewrite <- !app_assoc. intros Hp%prefix_app_inv.
    apply prefix_cons_inv_1 in Hp. congruence.
Qed.

Section Live.

Variable range_order : gmap rune loc -> list (rune * loc).
Hypothesis range_order_perm : forall m, range_order m ≡ₚ map_to_list m.

(** Whatever the key, when the loop of [Remove] returns it has changed
    nothing or has taken one child from a node with more than one. *)
Lemma remove_walk_any (rs : list Z) gas : forall x t rt i t',
  shape (arena t) rt -> (x < gas)%nat ->
  (exists px, walk (arena t) rt px = Some x) ->
  remove_walk range_order gas (Some x) rs i t = Done tt t' ->
  t' = t \/
  exists y py r ny, walk (arena t) rt py = Some y /\ arena t !! y = Some ny /\
    (1 < base.size (children ny))%nat /\
    t' = set_arena (remove_child (arena t) y r) t.
Proof.
  induction gas as [|gas IH]; intros x t rt i t' Hs Hxg [px Hpx]; [lia|].
  destruct (sh_root _ _ Hs) as (nr & Hnr & Hpr & _).
  pose proof (walk_alloc Hs rt px x ltac:(by eapply lookup_lt_Some) Hpx) as Hxl.
  destruct (lookup_lt_is_Some_2 _ _ Hxl) as [nx Hx].
  cbn [remove_walk]. cbv zeta.
  rewrite (bind_Done _ _ _ _ _ (Children_Some _ _ _ Hx)).
  destruct (bool_decide (1 < base.size (children nx))%nat) eqn:Hb.
  - apply bool_decide_eq_true in Hb.
    unfold bind at 1, index.
    destruct (_ || _); [done|].
    destruct (rs !! _) as [r|]; [|done]. cbn.
    rewrite (RemoveChild_run range_order range_order_perm t rt x r Hs) by eauto.
    intros [= <-]. right. by exists x, px, r, nx.
  - rewrite (bind_Done _ _ _ _ _ (Parent_Some _ _ _ Hx)).
    destruct px as [|r px _] using rev_ind.
    + cbn in Hpx. injection Hpx as <-.
      assert (nx = nr) as -> by congruence. rewrite Hpr.
      rewrite remove_walk_nil. intros [= <-]. by left.
    + destruct (walk_parent Hs rt px r x nx Hpx Hx) as (y & Hy & Hp & _).
      rewrite Hp. intros Hrun.
      pose proof (sh_up _ _ Hs x nx y Hx Hp).
      eapply (IH y t rt _ t' Hs); [lia|eauto|exact Hrun].
Qed.

Lemma Remove_live k t rt t' :
  wf t -> root t = Some rt -> live (arena t) rt ->
  Remove range_order k t = Done tt t' -> live (arena t') rt.
Proof.
  intros Hwf Hr Hlive. pose proof Hwf as (rt' & Hr' & Hs & Hm).
  assert (rt' = rt) as -> by congruence.
  rewrite (Remove_unfold range_order k t rt Hwf Hr). cbv zeta.
  destruct (walk (arena t) rt k) as [l|] eqn:Hw; [|done].
  destruct (sh_root _ _ Hs) as (nr & Hnr & _).
  pose proof (walk_alloc Hs rt _ l ltac:(by eapply lookup_lt_Some) Hw) as Hl.
  destruct (lookup_lt_is_Some_2 _ _ Hl) as [nl Hnl]. rewrite Hnl. cbn.
  set (t0 := set_size _ t).
  destruct (parent nl) as [y|] eqn:Hp.
  2:{ rewrite remove_walk_nil. by intros [= <-]. }
  intros Hrun.
  assert (exists py, walk (arena t0) rt py = Some y) as Hpy.
  { destruct k as [|r k _] using rev_ind.
    - cbn in Hw. injection Hw as <-.
      destruct (sh_root _ _ Hs) as (nr' & Hnr' & Hpr' & _). congruence.
    - destruct (walk_parent Hs rt k r l nl Hw Hnl) as (y' & Hy' & Hp' & _).
      exists k. cbn. congruence. }
  pose proof (sh_up _ _ Hs l nl y Hnl Hp).
  destruct (remove_walk_any k (length (arena t)) y t0 rt 0 t' Hs ltac:(cbn; lia)
              Hpy Hrun) as [->|(z & pz & r & nz & Hz & Hnz & Hsz & ->)].
  - done.
  - cbn [arena set_arena t0 set_size]. by eapply live_remove_child.
Qed.

Lemma built_live t rt :
  built range_order t -> root t = Some rt -> live (arena t) rt.
Proof.
  intros Hb. revert rt.
  induction Hb as [|t k d t' Hb IH Hnf Hadd|t k t' Hb IH Hrm|t k e t' Hb IH Hrm];
    intros rt Hr.
  - injection Hr as <-. apply live_create.
  - pose proof (built_wf _ range_order_perm _ Hb) as Hwf.
    destruct (Add_spec k t Hwf Hnf) as (t'' & Hadd' & _ & _ & Hr' & _).
    assert (t'' = t') as -> by congruence.
    assert (root t = Some rt) as Hrt by congruence.
    by apply (live_add k t rt d t' Hwf Hrt (IH rt Hrt) Hnf Hadd).
  - pose proof (built_wf _ range_order_perm _ Hb) as Hwf.
    destruct (Remove_wf _ range_order_perm k t Hwf)
      as [(t'' & Hrun & _ & _ & Hr')|(e & Hrun)]; [|congruence].
    assert (t'' = t') as -> by congruence.
    assert (root t = Some rt) as Hrt by congruence.
    by apply (Remove_live k t rt t' Hwf Hrt (IH rt Hrt) Hrm).
  - pose proof (built_wf _ range_order_perm _ Hb) as Hwf.
    destruct (Remove_wf _ range_order_perm k t Hwf)
      as [(t'' & Hrun & _)|(e' & Hrun)]; [congruence|].
    rewrite Hrun in Hrm. injection Hrm as <- <-. by apply IH.
Qed.

End Live.

Lemma add_all_size ks : forall t t',
  wf t -> Forall nul_free ks -> add_all ks t = Done tt t' ->
  min_int <= size t -> size t + Z.of_nat (length ks) <= max_int ->
  size t' = size t + Z.of_nat (length ks).
Proof.
  induction ks as [|k ks IH]; intros t t' Hwf Hnf Hrun Hlo Hhi.
  - cbn in Hrun. unfold ret in Hrun. injection Hrun as <-. cbn. lia.
  - apply Forall_cons in Hnf as [Hk Hnf].
    destruct (Add_spec k t Hwf Hk) as (t1 & Hadd & Hwf1 & Hsz & _).
    cbn [add_all] in Hrun. rewrite (bind_Done _ _ _ _ _ Hadd) in Hrun.
    cbn [length] in Hhi. rewrite Nat2Z.inj_succ in Hhi.
    rewrite int_wrap_id in Hsz by (unfold min_int, max_int in *; lia).
    rewrite (IH t1 t' Hwf1 Hnf Hrun) by lia.
    cbn [length]. lia.
Qed.

Lemma int_wrap_back s :
  min_int <= s <= max_int -> int_wrap (int_wrap (s + 1) - 1) = s.
Proof.
  intros Hs. destruct (decide (s = max_int)) as [->|Hne]; [done|].
  rewrite (int_wrap_id (s + 1)) by (unfold min_int, max_int in *; lia).
  replace (s + 1 - 1) with s by lia. by apply int_wrap_id.
Qed.

Lemma stored_prefix_path h rt (k k' : list Z) :
  k `prefix_of` k' -> stored_from h rt k' -> is_Some (walk h rt k).
Proof.
  intros [suf ->] (e & s & Hw & _). rewrite walk_app in Hw.
  destruct (walk h rt k); [eauto|done].
Qed.

Lemma Trie_eq t t' :
  arena t' = arena t -> root t' = root t -> size t' = size t -> t' = t.
Proof. destruct t, t'. cbn. by intros -> -> ->. Qed.

Lemma key_leb_antisym a : forall b, key_leb a b = true -> key_leb b a = true -> a = b.
Proof.
  induction a as [|x a IH]; intros [|y b] Hab Hba; cbn in *; try done.
  destruct (Z.ltb_spec x y), (Z.ltb_spec y x), (Z.eqb_spec x y),
    (Z.eqb_spec y x); cbn in *; try lia; try done.
  subst. f_equal. by apply IH.
Qed.

Global Instance key_le_antisymm : AntiSymm (=) key_le.
Proof. intros a b. apply key_leb_antisym. Qed.

(** A path that does not end in the terminal child exists exactly when a
    stored key runs along it. *)
Lemma live_path h rt (k : list Z) :
  shape h rt -> live h rt -> nul_free k -> k <> [] ->
  is_Some (walk h rt k) <-> exists k', stored_from h rt k' /\ k `prefix_of` k'.
Proof.
  intros Hs Hlive Hnf Hne. split.
  - intros Hw. destruct k as [|r k _] using rev_ind; [done|].
    apply Forall_app in Hnf as [_ Hr]. apply Forall_inv in Hr.
    destruct (Hlive k r Hw Hr) as (suf & Hst).
    exists ((k ++ [r]) ++ suf). split; [done|]. by apply prefix_app_r.
  - intros (k' & Hst & Hpre). by eapply stored_prefix_path.
Qed.

(** When every stored key extends the path [k], no node strictly above its
    last node has a second child. *)
Lemma all_extend_unbranched h rt (k : list Z) j :
  shape h rt -> live h rt -> is_Some (walk h rt k) ->
  (forall k', stored_from h rt k' -> k `prefix_of` k') ->
  (j < length k)%nat -> (kids_at h rt (take j k) <= 1)%nat.
Proof.
  intros Hs Hlive [l Hw] Hall Hj.
  apply Nat.nlt_ge. intros Hbr.
  destruct (lookup_lt_is_Some_2 k j Hj) as [r Hkr].
  pose proof Hw as Hw'. rewrite <- (take_drop j k) in Hw'.
  rewrite (drop_S _ _ _ Hkr), walk_app in Hw'.
  destruct (walk h rt (take j k)) as [y|] eqn:Hy; [|done].
  unfold kids_at in Hbr. rewrite Hy in Hbr. cbn in Hbr.
  destruct (h !! y) as [ny|] eqn:Hny; cbn in Hbr; [|lia].
  destruct (map_other_key (children ny) r Hbr) as (s2 & c2 & Hs2 & Hc2).
  assert (kid h y s2 = Some c2) as Hk2 by (unfold kid; by rewrite Hny).
  destruct (decide (s2 = nul)) as [->|Hs2n].
  - assert (stored_from h rt (take j k)) as Hst by (by exists y, c2).
    apply Hall, prefix_length in Hst. rewrite length_take in Hst. lia.
  - destruct (Hlive (take j k) s2) as (suf & Hst); [|done|].
    { exists c2. apply walk_snoc_Some. eauto. }
    apply Hall in Hst. rewrite <- (take_drop j k) in Hst at 1.
    rewrite (drop_S _ _ _ Hkr), <- !app_assoc in Hst.
    apply prefix_app_inv, prefix_cons_inv_1 in Hst. congruence.
Qed.

(** * Further properties of the operations *)

Section More.

Variable range_order : gmap rune loc -> list (rune * loc).
Hypothesis range_order_perm : forall m, range_order m ≡ₚ map_to_list m.

(** [PrefixSearch(pre)] returns the stored keys that begin with [pre], each
    of them once, and leaves the trie as it is. *)
Theorem prefix_search_exact t pre :
  built range_order t ->
  exists all res,
    Keys range_order t = Done all t /\
    PrefixSearch range_order pre t = Done res t /\
    (forall k, k ∈ res <-> k ∈ all /\ pre `prefix_of` k) /\
    NoDup res.
Proof.
  intros Hb. pose proof (built_wf _ range_order_perm _ Hb) as Hwf.
  pose proof Hwf as (rt & Hr & Hs & Hm).
  destruct (Keys_spec _ range_order_perm t rt Hwf Hr) as (all & Hkeys & Hall).
  destruct (PrefixSearch_spec _ range_order_perm pre t rt Hwf Hr)
    as (res & Hrun & Hres).
  exists all, res. split_and!; [done..| |].
  - intros k. by rewrite Hres, Hall.
  - rewrite (PrefixSearch_run _ range_order_perm pre t rt Hwf Hr) in Hrun.
    injection Hrun as <-.
    destruct (walk (arena t) rt pre); [|constructor].
    by apply (collected_NoDup _ range_order_perm _ _ rt).
Qed.

(** [Add(k)] on any trie the operations built: the keys afterwards are [k]
    and the keys before, and [PrefixSearch(k)] finds [k]. *)
Theorem add_inserts_key t k all :
  built range_order t -> nul_free k -> Keys range_order t = Done all t ->
  exists d t' all' res,
    Add k t = Done d t' /\
    Keys range_order t' = Done all' t' /\
    (forall k', k' ∈ all' <-> k' = k \/ k' ∈ all) /\
    PrefixSearch range_order k t' = Done res t' /\ k ∈ res.
Proof.
  intros Hb Hnf Hkeys. pose proof (built_wf _ range_order_perm _ Hb) as Hwf.
  pose proof Hwf as (rt & Hr & _).
  destruct (Keys_spec _ range_order_perm t rt Hwf Hr) as (all0 & Hkeys0 & Hall).
  assert (all0 = all) as -> by congruence.
  destruct (Add_spec k t Hwf Hnf) as (t' & Hadd & Hwf' & _ & Hr' & _ & Hst).
  assert (root t' = Some rt) as Hrt' by congruence.
  destruct (Keys_spec _ range_order_perm t' rt Hwf' Hrt') as (all' & Hkeys' & Hall').
  destruct (PrefixSearch_spec _ range_order_perm k t' rt Hwf' Hrt')
    as (res & Hrun & Hres).
  exists (depth_after 0 k), t', all', res. split_and!; [done..| |done|].
  - intros k'. by rewrite Hall', (Hst rt Hr), Hall.
  - apply Hres. split; [|done]. apply (Hst rt Hr). by left.
Qed.

(** After the keys of a sequence are added to a fresh trie, [Keys] returns
    each distinct key once, and [size] is the number of calls of [Add],
    repeated keys counted again. *)
Theorem keys_once_size_counts_calls ks :
  Forall nul_free ks -> Z.of_nat (length ks) <= max_int ->
  exists t res,
    add_all ks CreateTrie = Done tt t /\
    Keys range_order t = Done res t /\
    res ≡ₚ remove_dups ks /\
    size t = Z.of_nat (length ks).
Proof.
  intros Hnf Hlen.
  pose proof (built_wf _ range_order_perm _ (built_create range_order)) as Hwf0.
  destruct (add_all_spec ks CreateTrie 0%nat Hwf0 eq_refl Hnf)
    as (t & Hrun & Hwf & Hr & Hst).
  destruct (Keys_spec _ range_order_perm t 0%nat Hwf Hr) as (res & Hkeys & Hres).
  exists t, res. split_and!; [done..| |].
  - apply NoDup_Permutation.
    + rewrite (Keys_run _ range_order_perm t 0%nat Hwf Hr) in Hkeys.
      injection Hkeys as <-. destruct Hwf as (rt & Hrt & Hs & _).
      by apply (collected_NoDup _ range_order_perm _ _ rt).
    + apply NoDup_remove_dups.
    + intros k. rewrite Hres, Hst, elem_of_remove_dups. split; [|tauto].
      intros [?|(e & s & Hw & Hk)]; [done|]. exfalso.
      destruct k as [|r k]; cbn in Hw.
      * by injection Hw as <-.
      * done.
  - rewrite (add_all_size ks CreateTrie t Hwf0 Hnf Hrun); cbn; [lia|done|lia].
Qed.

(** [FuzzySearch] returns no key twice, however often it was added. *)
Theorem fuzzy_search_no_duplicates t p res :
  built range_order t -> FuzzySearch range_order p t = Done res t ->
  NoDup res.
Proof.
  intros Hb Hrun. pose proof (built_wf _ range_order_perm _ Hb) as Hwf.
  pose proof Hwf as (rt & Hr & Hs & Hm).
  rewrite (FuzzySearch_run _ range_order_perm p t rt Hwf Hr) in Hrun.
  injection Hrun as <-. rewrite sort_Strings_perm.
  by apply (fuzzy_collected_NoDup _ range_order_perm _ _ rt).
Qed.

(** With the empty pattern [FuzzySearch] returns the result of [Keys],
    sorted. *)
Theorem fuzzy_search_empty_pattern t all :
  built range_order t -> Keys range_order t = Done all t ->
  FuzzySearch range_order [] t = Done (sort_Strings all) t.
Proof.
  intros Hb Hkeys. pose proof (built_wf _ range_order_perm _ Hb) as Hwf.
  pose proof Hwf as (rt & Hr & _).
  rewrite (Keys_run _ range_order_perm t rt Hwf Hr) in Hkeys.
  injection Hkeys as <-.
  rewrite (FuzzySearch_run _ range_order_perm [] t rt Hwf Hr).
  by destruct (length (arena t)).
Qed.

Lemma Remove_Done_path k t t' rt :
  wf t -> root t = Some rt -> Remove range_order k t = Done tt t' ->
  is_Some (walk (arena t) rt k).
Proof.
  intros Hwf Hr. rewrite (Remove_unfold range_order k t rt Hwf Hr). cbv zeta.
  by destruct (walk (arena t) rt k); [eauto|].
Qed.

(** When some stored key extends [k] and some other does not, [Remove(k)]
    takes out of the trie every stored key that extends [k], the key [k]
    among them if it is stored, and no other. *)
Theorem remove_detaches_extensions t k all k1 k2 :
  built range_order t -> nul_free k -> int_len k ->
  Keys range_order t = Done all t ->
  k1 ∈ all -> k `prefix_of` k1 -> k2 ∈ all -> ~ k `prefix_of` k2 ->
  exists t' all',
    Remove range_order k t = Done tt t' /\
    Keys range_order t' = Done all' t' /\
    forall k', k' ∈ all' <-> k' ∈ all /\ ~ k `prefix_of` k'.
Proof.
  intros Hb Hnf Hlen Hkeys Hk1 Hpre1 Hk2 Hpre.
  pose proof (built_wf _ range_order_perm _ Hb) as Hwf.
  pose proof Hwf as (rt & Hr & Hs & Hm).
  destruct (Keys_spec _ range_order_perm t rt Hwf Hr) as (all0 & Hkeys0 & Hall).
  assert (all0 = all) as -> by congruence.
  destruct (stored_prefix_path (arena t) rt k k1 Hpre1 (proj1 (Hall k1) Hk1))
    as [l Hw].
  destruct (Remove_keys _ range_order_perm k t rt l Hwf Hr Hnf Hlen Hw)
    as (t' & Hrun & Hwf' & Hr' & _ & [[_ Hst]|[Hone _]]).
  - destruct (Keys_spec _ range_order_perm t' rt Hwf' Hr')
      as (all' & Hkeys' & Hall').
    exists t', all'. split_and!; [done..|].
    intros k'. by rewrite Hall', Hst, Hall.
  - exfalso. apply Hall in Hk2.
    destruct (diverging_key_branches (arena t) k rt l k2 Hnf Hw Hk2 Hpre)
      as (j & Hj & Hbr).
    specialize (Hone j Hj). lia.
Qed.

(** [Remove(k)] adds no key and takes out none that does not extend [k]. *)
Theorem remove_keeps_other_keys t k t' all :
  built range_order t -> nul_free k -> int_len k ->
  Remove range_order k t = Done tt t' -> Keys range_order t = Done all t ->
  exists all',
    Keys range_order t' = Done all' t' /\
    (forall k', k' ∈ all' -> k' ∈ all) /\
    (forall k', k' ∈ all -> ~ k `prefix_of` k' -> k' ∈ all').
Proof.
  intros Hb Hnf Hlen Hrm Hkeys.
  pose proof (built_wf _ range_order_perm _ Hb) as Hwf.
  pose proof Hwf as (rt & Hr & Hs & Hm).
  destruct (Remove_Done_path k t t' rt Hwf Hr Hrm) as [l Hw].
  destruct (Keys_spec _ range_order_perm t rt Hwf Hr) as (all0 & Hkeys0 & Hall).
  assert (all0 = all) as -> by congruence.
  destruct (Remove_keys _ range_order_perm k t rt l Hwf Hr Hnf Hlen Hw)
    as (t'' & Hrun & Hwf' & Hr' & _ & Hcases).
  assert (t'' = t') as -> by congruence.
  destruct (Keys_spec _ range_order_perm t' rt Hwf' Hr')
    as (all' & Hkeys' & Hall').
  exists all'. split; [done|].
  destruct Hcases as [[_ Hst]|[_ Har]].
  - split; intros k'; rewrite Hall', Hst, Hall; tauto.
  - split; intros k'; rewrite Hall', Har, Hall; tauto.
Qed.

(** No call of [Remove] takes the empty key out of the trie. *)
Theorem remove_keeps_empty_key t k t' all :
  built range_order t -> nul_free k -> int_len k ->
  Remove range_order k t = Done tt t' -> Keys range_order t = Done all t ->
  [] ∈ all ->
  exists all', Keys range_order t' = Done all' t' /\ [] ∈ all'.
Proof.
  intros Hb Hnf Hlen Hrm Hkeys Hin.
  pose proof (built_wf _ range_order_perm _ Hb) as Hwf.
  pose proof Hwf as (rt & Hr & Hs & Hm).
  destruct (Remove_Done_path k t t' rt Hwf Hr Hrm) as [l Hw].
  destruct (Keys_spec _ range_order_perm t rt Hwf Hr) as (all0 & Hkeys0 & Hall).
  assert (all0 = all) as -> by congruence.
  destruct (Remove_keys _ range_order_perm k t rt l Hwf Hr Hnf Hlen Hw)
    as (t'' & Hrun & Hwf' & Hr' & _ & Hcases).
  assert (t'' = t') as -> by congruence.
  destruct (Keys_spec _ range_order_perm t' rt Hwf' Hr')
    as (all' & Hkeys' & Hall').
  exists all'. split; [done|]. apply Hall'.
  destruct Hcases as [[(j & Hj & _) Hst]|[_ Har]].
  - apply Hst. split; [by apply Hall|].
    intros Hp%prefix_length. cbn in Hp. lia.
  - rewrite Har. by apply Hall.
Qed.

(** [Add(k)] followed by [Remove(k)], when some stored key does not extend
    [k]: [size] is as before, and the keys are those of before that do not
    extend [k]. *)
Theorem add_remove_round_trip t k all k2 :
  built range_order t -> nul_free k -> int_len k ->
  Keys range_order t = Done all t -> k2 ∈ all -> ~ k `prefix_of` k2 ->
  exists d t1 t2 all2,
    Add k t = Done d t1 /\ Remove range_order k t1 = Done tt t2 /\
    Keys range_order t2 = Done all2 t2 /\
    (forall k', k' ∈ all2 <-> k' ∈ all /\ ~ k `prefix_of` k') /\
    size t2 = size t.
Proof.
  intros Hb Hnf Hlen Hkeys Hk2 Hpre.
  pose proof (built_wf _ range_order_perm _ Hb) as Hwf.
  pose proof (built_size _ range_order_perm _ Hb) as Hrange.
  pose proof Hwf as (rt & Hr & Hs & Hm).
  destruct (Keys_spec _ range_order_perm t rt Hwf Hr) as (all0 & Hkeys0 & Hall).
  assert (all0 = all) as -> by congruence.
  destruct (Add_spec k t Hwf Hnf) as (t1 & Hadd & Hwf1 & Hsz1 & Hr1 & _ & Hst1).
  assert (root t1 = Some rt) as Hrt1 by congruence.
  specialize (Hst1 rt Hr).
  assert (stored_from (arena t1) rt k) as (e & s & Hw & Hks)
    by (apply Hst1; by left).
  destruct (Remove_keys _ range_order_perm k t1 rt e Hwf1 Hrt1 Hnf Hlen Hw)
    as (t2 & Hrun & Hwf2 & Hr2 & Hsz2 & [[_ Hst]|[Hone _]]).
  - destruct (Keys_spec _ range_order_perm t2 rt Hwf2 Hr2)
      as (all2 & Hkeys2 & Hall2).
    exists (depth_after 0 k), t1, t2, all2. split_and!; [done..| |].
    + intros k'. rewrite Hall2, Hst, Hst1, Hall. split; [|tauto].
      intros [[->|?] Hn]; [|done]. by destruct Hn.
    + rewrite Hsz2, Hsz1. by apply int_wrap_back.
  - exfalso.
    assert (stored_from (arena t1) rt k2) as Hst2
      by (apply Hst1; right; by apply Hall).
    destruct (diverging_key_branches (arena t1) k rt e k2 Hnf Hw Hst2 Hpre)
      as (j & Hj & Hbr).
    specialize (Hone j Hj). lia.
Qed.

(** [Remove(k)] for a key that is not empty, when no stored key extends
    [k]: the path of [k] is not in the trie, and the call panics on the nil
    node after it has taken one from [size]. *)
Theorem remove_panics_without_extension t k all :
  built range_order t -> nul_free k -> k <> [] ->
  Keys range_order t = Done all t ->
  (forall k', k' ∈ all -> ~ k `prefix_of` k') ->
  Remove range_order k t
  = Panicked NilDereference (set_size (int_wrap (size t - 1)) t).
Proof.
  intros Hb Hnf Hne Hkeys Hnone.
  pose proof (built_wf _ range_order_perm _ Hb) as Hwf.
  pose proof Hwf as (rt & Hr & Hs & Hm).
  pose proof (built_live _ range_order_perm t rt Hb Hr) as Hlive.
  destruct (Keys_spec _ range_order_perm t rt Hwf Hr) as (all0 & Hkeys0 & Hall).
  assert (all0 = all) as -> by congruence.
  rewrite (Remove_unfold _ k t rt Hwf Hr). cbv zeta.
  destruct (walk (arena t) rt k) as [l|] eqn:Hw; [|done].
  exfalso.
  destruct (proj1 (live_path (arena t) rt k Hs Hlive Hnf Hne) ltac:(eauto))
    as (k' & Hst & Hpre).
  apply (Hnone k'); [by apply Hall|done].
Qed.

(** [Remove(k)] when every stored key extends [k], as when [k] is the only
    key: the call takes one from [size] and changes nothing else, so [k]
    and all the other keys stay in the trie. *)
Theorem remove_keeps_all_when_all_extend t k all :
  built range_order t -> nul_free k -> int_len k ->
  Keys range_order t = Done all t ->
  (forall k', k' ∈ all -> k `prefix_of` k') -> k = [] \/ all <> [] ->
  Remove range_order k t = Done tt (set_size (int_wrap (size t - 1)) t).
Proof.
  intros Hb Hnf Hlen Hkeys Hext Hsome.
  pose proof (built_wf _ range_order_perm _ Hb) as Hwf.
  pose proof Hwf as (rt & Hr & Hs & Hm).
  pose proof (built_live _ range_order_perm t rt Hb Hr) as Hlive.
  destruct (Keys_spec _ range_order_perm t rt Hwf Hr) as (all0 & Hkeys0 & Hall).
  assert (all0 = all) as -> by congruence.
  assert (is_Some (walk (arena t) rt k)) as Hpath.
  { destruct Hsome as [->|Hne]; [by eexists|].
    destruct all as [|k1 all]; [done|].
    apply (stored_prefix_path _ _ k k1); [apply Hext; by left|].
    apply Hall. by left. }
  pose proof Hpath as [l Hw].
  destruct (Remove_keys _ range_order_perm k t rt l Hwf Hr Hnf Hlen Hw)
    as (t' & Hrun & Hwf' & Hr' & Hsz & [[(j & Hj & Hbr) _]|[_ Har]]).
  - exfalso.
    pose proof (all_extend_unbranched (arena t) rt k j Hs Hlive Hpath) as Hle.
    specialize (Hle ltac:(intros k' Hk'; by apply Hext, Hall) Hj). lia.
  - rewrite Hrun. f_equal. apply Trie_eq; [done|cbn; congruence|done].
Qed.

(** For a key [k] that is not empty, [nodeAtPath(k)] returns a node exactly
    when some stored key extends [k], and nil otherwise: the trie has no
    branch without a key. *)
Theorem path_exists_iff_key_extends t k all :
  built range_order t -> nul_free k -> k <> [] ->
  Keys range_order t = Done all t ->
  (exists l, nodeAtPath k t = Done (Some l) t) <->
  exists k', k' ∈ all /\ k `prefix_of` k'.
Proof.
  intros Hb Hnf Hne Hkeys.
  pose proof (built_wf _ range_order_perm _ Hb) as Hwf.
  pose proof Hwf as (rt & Hr & Hs & Hm).
  pose proof (built_live _ range_order_perm t rt Hb Hr) as Hlive.
  destruct (Keys_spec _ range_order_perm t rt Hwf Hr) as (all0 & Hkeys0 & Hall).
  assert (all0 = all) as -> by congruence.
  rewrite (nodeAtPath_walk t rt k (wf_closed _ Hwf) Hr).
  split.
  - intros (l & [= Hw]).
    destruct (proj1 (live_path (arena t) rt k Hs Hlive Hnf Hne) ltac:(eauto))
      as (k' & Hst & Hpre).
    exists k'. split; [by apply Hall|done].
  - intros (k' & Hk' & Hpre).
    destruct (stored_prefix_path (arena t) rt k k' Hpre (proj1 (Hall k') Hk'))
      as [l Hw].
    exists l. by rewrite Hw.
Qed.

(** The order in which Go ranges over the children maps does not show:
    with another order [Remove] leaves the same trie, [PrefixSearch] returns
    the same keys in another order, and [FuzzySearch] returns the same
    sequence. *)
Theorem range_order_does_not_show (other : gmap rune loc -> list (rune * loc)) t k :
  (forall m, other m ≡ₚ map_to_list m) -> built range_order t ->
  Remove other k t = Remove range_order k t /\
  (exists res res',
     PrefixSearch range_order k t = Done res t /\
     PrefixSearch other k t = Done res' t /\ res' ≡ₚ res) /\
  FuzzySearch other k t = FuzzySearch range_order k t.
Proof.
  intros Hother Hb.
  pose proof (built_wf _ range_order_perm _ Hb) as Hwf.
  pose proof Hwf as (rt & Hr & Hs & Hm).
  destruct (sh_root _ _ Hs) as (nr & Hnr & _). apply lookup_lt_Some in Hnr.
  split_and!.
  - by apply Remove_order.
  - eexists _, _. split_and!.
    + by apply (PrefixSearch_run _ range_order_perm k t rt).
    + by apply (PrefixSearch_run _ Hother k t rt).
    + destruct (walk (arena t) rt k); [|done]. by apply collected_perm.
  - rewrite (FuzzySearch_run _ range_order_perm k t rt Hwf Hr).
    rewrite (FuzzySearch_run _ Hother k t rt Hwf Hr). f_equal.
    apply (StronglySorted_unique key_le); [apply sort_Strings_sorted..|].
    rewrite !sort_Strings_perm.
    apply NoDup_Permutation.
    + by apply (fuzzy_collected_NoDup _ Hother _ _ rt).
    + by apply (fuzzy_collected_NoDup _ range_order_perm _ _ rt).
    + intros k'.
      rewrite (fuzzy_collected_spec _ Hother _ _ rt) by (done || lia).
      by rewrite (fuzzy_collected_spec _ range_order_perm _ _ rt) by (done || lia).
Qed.

End More.

(** [maskrune] gives the runes 97 to 160, the letters a to z among them,
    one bit each, and every other rune no bit at all: the shift count is 64
    or more there. *)
Theorem maskrune_bits r :
  - 2 ^ 31 <= r < 2 ^ 31 ->
  maskrune r = if bool_decide (97 <= r <= 160) then 2 ^ (r - 97) else 0.
Proof.
  intros Hr. destruct (decide (97 <= r <= 160)) as [Hin|Hout].
  - rewrite bool_decide_eq_true_2 by done. by apply maskrune_letter.
  - rewrite bool_decide_eq_false_2 by done. by apply maskrune_outside.
Qed.

(** The bit [i] is in [maskruneslice(rs)] exactly when [rs] holds the rune
    [97 + i], for the runes 97 to 160. *)
Theorem maskruneslice_bits rs i :
  Forall (fun r => - 2 ^ 31 <= r < 2 ^ 31) rs ->
  Z.testbit (maskruneslice rs) i = true <->
  exists r, r ∈ rs /\ 97 <= r <= 160 /\ i = r - 97.
Proof.
  induction rs as [|r rs IH]; intros Hrs.
  - rewrite maskruneslice_nil, Z.bits_0. split; [done|].
    by intros (? & ?%elem_of_nil & _).
  - apply Forall_cons in Hrs as [Hr Hrs].
    rewrite maskruneslice_cons, Z.lor_spec, orb_true_iff.
    rewrite (maskrune_testbit r i Hr), (IH Hrs). split.
    + intros [[? ?]|(r' & ? & ?)]; [exists r; split; [left|done]|].
      exists r'. split; [by right|done].
    + intros (r' & [->|?]%elem_of_cons & ?); [by left|right; eauto].
Qed.

Section Nodes.

Variable range_order : gmap rune loc -> list (rune * loc).
Hypothesis range_order_perm : forall m, range_order m ≡ₚ map_to_list m.

(** The mask of the node at a path below the root holds the bits of the
    last rune of the path and of the runes of every path that goes on from
    it, and no other bit. *)
Theorem mask_holds_reachable_runes t p0 r0 l :
  built range_order t -> nodeAtPath (p0 ++ [r0]) t = Done (Some l) t ->
  exists m, Mask (Some l) t = Done m t /\
    forall i, Z.testbit m i = true <->
      exists q c r, nodeAtPath (p0 ++ [r0] ++ q) t = Done (Some c) t /\
                    r ∈ r0 :: q /\ Z.testbit (maskrune r) i = true.
Proof.
  intros Hb Hn. pose proof (built_wf _ range_order_perm _ Hb) as Hwf.
  pose proof Hwf as (rt & Hr & Hs & Hm).
  pose proof (wf_closed _ Hwf) as Hc.
  pose proof (nodeAtPath_Some t rt _ _ Hwf Hr Hn) as Hw.
  destruct (sh_root _ _ Hs) as (nr & Hnr & _).
  pose proof (walk_alloc Hs rt _ l ltac:(by eapply lookup_lt_Some) Hw) as Hl.
  destruct (lookup_lt_is_Some_2 _ _ Hl) as [nl Hnl].
  destruct (walk_parent Hs rt p0 r0 l nl Hw Hnl) as (y & Hy & Hp & Hv).
  assert (l <> rt) as Hlrt.
  { apply walk_snoc_Some in Hw as (y' & _ & Hk). by eapply kid_not_root. }
  exists (mask nl). split; [by apply Mask_Some|].
  intros i.
  rewrite (mask_bits (arena t) rt Hs Hm (length (arena t)) l nl i
             ltac:(lia) Hlrt Hnl).
  rewrite Hv. split.
  - intros [H|(q & r & c & Hwq & H)].
    + exists [], l, r0. rewrite app_nil_r. split_and!; [done|by left|done].
    + exists (q ++ [r]), c, r. split_and!; [|by apply elem_of_cons; right;
        apply elem_of_app; right; left|done].
      rewrite (nodeAtPath_walk t rt _ Hc Hr). f_equal.
      by rewrite app_assoc, walk_app, Hw.
  - intros (q & c & r & Hnq & [->|Hrq]%elem_of_cons & H); [by left|right].
    apply (nodeAtPath_Some t rt _ _ Hwf Hr) in Hnq.
    apply list_elem_of_split in Hrq as (q1 & q2 & ->).
    rewrite app_assoc, walk_app, Hw in Hnq. cbn [mbind option_bind] in Hnq.
    rewrite (assoc_L (++) q1 [r] q2 : q1 ++ r :: q2 = (q1 ++ [r]) ++ q2) in Hnq.
    rewrite walk_app in Hnq.
    destruct (walk (arena t) l (q1 ++ [r])) as [c'|] eqn:Hc'; [|done].
    by exists q1, r, c'.
Qed.

(** The root has no parent; every other node of the trie is the child of
    the node one rune up its path, filed there under the rune it holds. *)
Theorem child_knows_parent t :
  built range_order t ->
  (exists rt, Root t = Done (Some rt) t /\ Parent (Some rt) t = Done None t) /\
  forall p r c, nodeAtPath (p ++ [r]) t = Done (Some c) t ->
    exists y cs,
      nodeAtPath p t = Done (Some y) t /\
      Parent (Some c) t = Done (Some y) t /\
      Val (Some c) t = Done r t /\
      Children (Some y) t = Done cs t /\ cs !! r = Some c.
Proof.
  intros Hb. pose proof (built_wf _ range_order_perm _ Hb) as Hwf.
  pose proof Hwf as (rt & Hr & Hs & Hm).
  pose proof (wf_closed _ Hwf) as Hc.
  destruct (sh_root _ _ Hs) as (nr & Hnr & Hpr & _).
  split.
  - exists rt. split; [unfold Root; by rewrite Hr|].
    rewrite (Parent_Some _ _ _ Hnr). by rewrite Hpr.
  - intros p r c Hn.
    pose proof (nodeAtPath_Some t rt _ _ Hwf Hr Hn) as Hw.
    pose proof (walk_alloc Hs rt _ c ltac:(by eapply lookup_lt_Some) Hw) as Hl.
    destruct (lookup_lt_is_Some_2 _ _ Hl) as [nc Hnc].
    destruct (walk_parent Hs rt p r c nc Hw Hnc) as (y & Hy & Hp & Hv).
    apply walk_snoc_Some in Hw as (y' & Hy' & Hk).
    assert (y' = y) as -> by congruence.
    apply kid_Some in Hk as (ny & Hny & Hcs).
    exists y, (children ny). split_and!.
    + rewrite (nodeAtPath_walk t rt _ Hc Hr). by rewrite Hy.
    + rewrite (Parent_Some _ _ _ Hnc). by rewrite Hp.
    + rewrite (Val_Some _ _ _ Hnc). by rewrite Hv.
    + by apply Children_Some.
    + done.
Qed.

End Nodes.

(** ** The further properties at concrete tries *)

Lemma reversed_order_perm m : reversed_order m ≡ₚ map_to_list m.
Proof. unfold reversed_order. apply reverse_Permutation. Qed.

Lemma built_car_cart_cat : built canonical_order car_cart_cat.
Proof.
  apply (built_canonical [runes_of "car"; runes_of "cart"; runes_of "cat"]);
    [keys_nul_free|runs].
Qed.

Lemma built_empty_and_a : built canonical_order empty_and_a.
Proof. apply (built_canonical [[]; runes_of "a"]); [keys_nul_free|runs]. Qed.

(** [PrefixSearch("ca")] on the trie of "cat", "car", "cart" and "dog". *)
Lemma prefix_search_exact_witness :
  exists all res,
    Keys canonical_order cat_car_cart_dog = Done all cat_car_cart_dog /\
    PrefixSearch canonical_order (runes_of "ca") cat_car_cart_dog
    = Done res cat_car_cart_dog /\
    (forall k, k ∈ res <-> k ∈ all /\ runes_of "ca" `prefix_of` k) /\
    NoDup res.
Proof.
  apply (prefix_search_exact canonical_order canonical_order_perm
           cat_car_cart_dog (runes_of "ca")).
  exact built_cat_car_cart_dog.
Defined.

(** "car" added to the trie of "cat". *)
Lemma add_inserts_key_witness :
  exists d t' all' res,
    Add (runes_of "car") only_cat = Done d t' /\
    Keys canonical_order t' = Done all' t' /\
    (forall k', k' ∈ all' <-> k' = runes_of "car" \/ k' ∈ [runes_of "cat"]) /\
    PrefixSearch canonical_order (runes_of "car") t' = Done res t' /\
    runes_of "car" ∈ res.
Proof.
  apply (add_inserts_key canonical_order canonical_order_perm
           only_cat (runes_of "car") [runes_of "cat"]).
  - exact built_only_cat.
  - keys_nul_free.
  - vm_compute. reflexivity.
Defined.

(** "cat", "car" and "cat" again: two keys, [size] 3. *)
Lemma keys_once_size_counts_calls_witness :
  exists t res,
    add_all [runes_of "cat"; runes_of "car"; runes_of "cat"] CreateTrie
    = Done tt t /\
    Keys canonical_order t = Done res t /\
    res ≡ₚ remove_dups [runes_of "cat"; runes_of "car"; runes_of "cat"] /\
    size t = 3.
Proof.
  apply (keys_once_size_counts_calls canonical_order canonical_order_perm
           [runes_of "cat"; runes_of "car"; runes_of "cat"]).
  - keys_nul_free.
  - vm_compute. discriminate.
Defined.

(** The pattern "ct" on the trie of "cat", "car", "cart" and "dog". *)
Lemma fuzzy_search_no_duplicates_witness :
  NoDup [runes_of "cart"; runes_of "cat"].
Proof.
  apply (fuzzy_search_no_duplicates canonical_order canonical_order_perm
           cat_car_cart_dog (runes_of "ct")).
  - exact built_cat_car_cart_dog.
  - vm_compute. reflexivity.
Defined.

(** The empty pattern on the trie of "car" and "cart". *)
Lemma fuzzy_search_empty_pattern_witness :
  FuzzySearch canonical_order [] car_cart
  = Done (sort_Strings [runes_of "cart"; runes_of "car"]) car_cart.
Proof.
  apply (fuzzy_search_empty_pattern canonical_order canonical_order_perm
           car_cart [runes_of "cart"; runes_of "car"]).
  - exact built_car_cart.
  - vm_compute. reflexivity.
Defined.

(** [Remove("car")] on the trie of "car", "cart" and "cat": "cart" goes
    too. *)
Lemma remove_detaches_extensions_witness :
  exists t' all',
    Remove canonical_order (runes_of "car") car_cart_cat = Done tt t' /\
    Keys canonical_order t' = Done all' t' /\
    forall k', k' ∈ all' <->
      k' ∈ [runes_of "cart"; runes_of "car"; runes_of "cat"] /\
      ~ runes_of "car" `prefix_of` k'.
Proof.
  apply (remove_detaches_extensions canonical_order canonical_order_perm
           car_cart_cat (runes_of "car")
           [runes_of "cart"; runes_of "car"; runes_of "cat"]
           (runes_of "cart") (runes_of "cat")).
  - exact built_car_cart_cat.
  - keys_nul_free.
  - unfold int_len. vm_compute. discriminate.
  - vm_compute. reflexivity.
  - apply list_elem_of_here.
  - exists [116]. vm_compute. reflexivity.
  - apply list_elem_of_further, list_elem_of_further, list_elem_of_here.
  - intros [z Hz]. vm_compute in Hz. discriminate Hz.
Defined.

(** [Remove("car")] on the trie of "car", "cart" and "cat": "cat" stays. *)
Lemma remove_keeps_other_keys_witness :
  exists all',
    Keys canonical_order (after (Remove canonical_order (runes_of "car")) car_cart_cat)
    = Done all' (after (Remove canonical_order (runes_of "car")) car_cart_cat) /\
    (forall k', k' ∈ all' ->
       k' ∈ [runes_of "cart"; runes_of "car"; runes_of "cat"]) /\
    (forall k', k' ∈ [runes_of "cart"; runes_of "car"; runes_of "cat"] ->
       ~ runes_of "car" `prefix_of` k' -> k' ∈ all').
Proof.
  apply (remove_keeps_other_keys canonical_order canonical_order_perm
           car_cart_cat (runes_of "car")).
  - exact built_car_cart_cat.
  - keys_nul_free.
  - unfold int_len. vm_compute. discriminate.
  - vm_compute. reflexivity.
  - vm_compute. reflexivity.
Defined.

(** [Remove("a")] on the trie of the empty key and "a". *)
Lemma remove_keeps_empty_key_witness :
  exists all',
    Keys canonical_order (after (Remove canonical_order (runes_of "a")) empty_and_a)
    = Done all' (after (Remove canonical_order (runes_of "a")) empty_and_a) /\
    [] ∈ all'.
Proof.
  apply (remove_keeps_empty_key canonical_order canonical_order_perm
           empty_and_a (runes_of "a") _ [runes_of "a"; []]).
  - exact built_empty_and_a.
  - keys_nul_free.
  - unfold int_len. vm_compute. discriminate.
  - vm_compute. reflexivity.
  - vm_compute. reflexivity.
  - apply list_elem_of_further, list_elem_of_here.
Defined.

(** "car" added to the trie of "cat" and removed again. *)
Lemma add_remove_round_trip_witness :
  exists d t1 t2 all2,
    Add (runes_of "car") only_cat = Done d t1 /\
    Remove canonical_order (runes_of "car") t1 = Done tt t2 /\
    Keys canonical_order t2 = Done all2 t2 /\
    (forall k', k' ∈ all2 <->
       k' ∈ [runes_of "cat"] /\ ~ runes_of "car" `prefix_of` k') /\
    size t2 = size only_cat.
Proof.
  apply (add_remove_round_trip canonical_order canonical_order_perm
           only_cat (runes_of "car") [runes_of "cat"] (runes_of "cat")).
  - exact built_only_cat.
  - keys_nul_free.
  - unfold int_len. vm_compute. discriminate.
  - vm_compute. reflexivity.
  - apply list_elem_of_here.
  - intros [z Hz]. vm_compute in Hz. discriminate Hz.
Defined.

(** [Remove("dog")] on the trie of "cat". *)
Lemma remove_panics_without_extension_witness :
  Remove canonical_order (runes_of "dog") only_cat
  = Panicked NilDereference (set_size (int_wrap (size only_cat - 1)) only_cat).
Proof.
  apply (remove_panics_without_extension canonical_order canonical_order_perm
           only_cat (runes_of "dog") [runes_of "cat"]).
  - exact built_only_cat.
  - keys_nul_free.
  - vm_compute. discriminate.
  - vm_compute. reflexivity.
  - intros k' Hk' [z Hz]. apply list_elem_of_singleton in Hk'.
    rewrite Hk' in Hz. vm_compute in Hz. discriminate Hz.
Defined.

(** [Remove("cat")] on the trie of "cat": the key stays. *)
Lemma remove_keeps_all_when_all_extend_witness :
  Remove canonical_order (runes_of "cat") only_cat
  = Done tt (set_size (int_wrap (size only_cat - 1)) only_cat).
Proof.
  apply (remove_keeps_all_when_all_extend canonical_order canonical_order_perm
           only_cat (runes_of "cat") [runes_of "cat"]).
  - exact built_only_cat.
  - keys_nul_free.
  - unfold int_len. vm_compute. discriminate.
  - vm_compute. reflexivity.
  - intros k' Hk'. apply list_elem_of_singleton in Hk'. rewrite Hk'.
    exists []. vm_compute. reflexivity.
  - right. discriminate.
Defined.

(** The path "ca" in the trie of "cat". *)
Lemma path_exists_iff_key_extends_witness :
  (exists l, nodeAtPath (runes_of "ca") only_cat = Done (Some l) only_cat) <->
  exists k', k' ∈ [runes_of "cat"] /\ runes_of "ca" `prefix_of` k'.
Proof.
  apply (path_exists_iff_key_extends canonical_order canonical_order_perm
           only_cat (runes_of "ca") [runes_of "cat"]).
  - exact built_only_cat.
  - keys_nul_free.
  - vm_compute. discriminate.
  - vm_compute. reflexivity.
Defined.

(** The entries listed from first to last and from last to first, on the
    trie of "cat", "car", "cart" and "dog". *)
Lemma range_order_does_not_show_witness :
  Remove reversed_order (runes_of "ca") cat_car_cart_dog
  = Remove canonical_order (runes_of "ca") cat_car_cart_dog /\
  (exists res res',
     PrefixSearch canonical_order (runes_of "ca") cat_car_cart_dog
     = Done res cat_car_cart_dog /\
     PrefixSearch reversed_order (runes_of "ca") cat_car_cart_dog
     = Done res' cat_car_cart_dog /\ res' ≡ₚ res) /\
  FuzzySearch reversed_order (runes_of "ca") cat_car_cart_dog
  = FuzzySearch canonical_order (runes_of "ca") cat_car_cart_dog.
Proof.
  apply (range_order_does_not_show canonical_order canonical_order_perm
           reversed_order cat_car_cart_dog (runes_of "ca")).
  - exact reversed_order_perm.
  - exact built_cat_car_cart_dog.
Defined.

(** The rune c. *)
Lemma maskrune_bits_witness :
  maskrune 99 = if bool_decide (97 <= 99 <= 160) then 2 ^ (99 - 97) else 0.
Proof. apply (maskrune_bits 99). lia. Defined.

(** The runes of "cat" and the bit 2. *)
Lemma maskruneslice_bits_witness :
  Z.testbit (maskruneslice (runes_of "cat")) 2 = true <->
  exists r, r ∈ runes_of "cat" /\ 97 <= r <= 160 /\ 2 = r - 97.
Proof.
  apply (maskruneslice_bits (runes_of "cat") 2).
  repeat constructor; vm_compute; congruence.
Defined.

(** The node at "ca" in the trie of "cat". *)
Lemma mask_holds_reachable_runes_witness :
  exists m, Mask (Some 2%nat) only_cat = Done m only_cat /\
    forall i, Z.testbit m i = true <->
      exists q c r,
        nodeAtPath ([99] ++ [97] ++ q) only_cat = Done (Some c) only_cat /\
        r ∈ 97 :: q /\ Z.testbit (maskrune r) i = true.
Proof.
  apply (mask_holds_reachable_runes canonical_order canonical_order_perm
           only_cat [99] 97 2%nat).
  - exact built_only_cat.
  - vm_compute. reflexivity.
Defined.

(** The nodes of the trie of "cat". *)
Lemma child_knows_parent_witness :
  (exists rt, Root only_cat = Done (Some rt) only_cat /\
              Parent (Some rt) only_cat = Done None only_cat) /\
  forall p r c, nodeAtPath (p ++ [r]) only_cat = Done (Some c) only_cat ->
    exists y cs,
      nodeAtPath p only_cat = Done (Some y) only_cat /\
      Parent (Some c) only_cat = Done (Some y) only_cat /\
      Val (Some c) only_cat = Done r only_cat /\
      Children (Some y) only_cat = Done cs only_cat /\ cs !! r = Some c.
Proof.
  apply (child_knows_parent canonical_order canonical_order_perm only_cat).
  exact built_only_cat.
Defined.
